(** * Scratchmark: a shallow embedding of the markdown parser

    The development follows the layout of scratchmark.js: the parser
    registry ([ParserCollection]), the line normaliser and the two engines
    ([parse_blocks], [parse_inline]) with the built-in grammars, the
    deferred resolution pass (footnotes, link references), the HTML printer
    and the top-level [scratchmark] function.

    Conventions of the embedding.
    - A JavaScript string is a [string]: a sequence of code units below 256.
    - A JavaScript exception is the outcome [Throw]; the closure variables
      and the per-document fields of the parser descriptors ([defs],
      [cites], [links], [config]) are the record [pstate], threaded by the
      monad [M].
    - Objects that the source shares between the syntax tree and a side
      list (link, image and footnote-citation nodes) live in [heap]; the
      tree holds their address ([Ref]).
    - The two engines recurse through each other; the embedding bounds
      that recursion by a [fuel] argument and reports [OutOfFuel] when it
      is used up. *)

From Stdlib Require Import Ascii String.
From stdpp Require Import gmap strings list fin_maps pretty.

(** ** JavaScript strings *)

Module Js.

Definition nl : ascii := ascii_of_nat 10.
Definition cr : ascii := ascii_of_nat 13.
Definition tab : ascii := ascii_of_nat 9.
Definition quote : ascii := ascii_of_nat 34.
Definition backslash : ascii := "\"%char.
Definition space : ascii := " "%char.

Definition str (c : ascii) : string := String c "".

Definition len (s : string) : nat := String.length s.

(** [s.at(i)] for [0 <= i]. *)
Definition at_ (i : nat) (s : string) : option ascii := String.get i s.

(** [s.slice(n)] *)
Fixpoint drop (n : nat) (s : string) : string :=
  match n, s with
  | 0, _ => s
  | S _, EmptyString => EmptyString
  | S n', String _ s' => drop n' s'
  end.

(** [s.slice(0, n)] *)
Fixpoint take (n : nat) (s : string) : string :=
  match n, s with
  | 0, _ => EmptyString
  | S _, EmptyString => EmptyString
  | S n', String c s' => String c (take n' s')
  end.

(** [s.slice(i, j)] for non-negative [i], [j]. *)
Definition slice (i j : nat) (s : string) : string := take (j - i) (drop i s).

(** [s.slice(0, -n)] *)
Definition drop_right (n : nat) (s : string) : string := take (len s - n) s.

(** [s.slice(i, -n)] *)
Definition slice_neg (i n : nat) (s : string) : string := slice i (len s - n) s.

(** [s.at(-n)] for [0 < n]. *)
Definition at_neg (n : nat) (s : string) : option ascii :=
  if len s <? n then None else at_ (len s - n) s.

(** [s.startsWith(p)] *)
Fixpoint startsWith (p s : string) : bool :=
  match p, s with
  | EmptyString, _ => true
  | String a p', String b s' => Ascii.eqb a b && startsWith p' s'
  | String _ _, EmptyString => false
  end.

(** [s.endsWith(p)] *)
Definition endsWith (p s : string) : bool :=
  (len p <=? len s) && String.eqb (drop (len s - len p) s) p.

(** [s.includes(c)] for a one-character [c]. *)
Fixpoint includes (c : ascii) (s : string) : bool :=
  match s with
  | EmptyString => false
  | String d s' => Ascii.eqb c d || includes c s'
  end.

(** [s.indexOf(p) != -1] *)
Fixpoint contains (p s : string) : bool :=
  startsWith p s ||
  match s with
  | EmptyString => false
  | String _ s' => contains p s'
  end.

(** White space of [trimRight] and [trim] among the code units below 256. *)
Definition is_space (c : ascii) : bool :=
  let n := nat_of_ascii c in
  ((9 <=? n) && (n <=? 13)) || (n =? 32) || (n =? 160).

Fixpoint trimRight (s : string) : string :=
  match s with
  | EmptyString => EmptyString
  | String c s' =>
      match trimRight s' with
      | EmptyString => if is_space c then EmptyString else str c
      | t => String c t
      end
  end.

Fixpoint trimLeft (s : string) : string :=
  match s with
  | EmptyString => EmptyString
  | String c s' => if is_space c then trimLeft s' else s
  end.

Definition trim (s : string) : string := trimRight (trimLeft s).

(** [s.split(c)] for a one-character separator. *)
Fixpoint split (c : ascii) (s : string) : list string :=
  match s with
  | EmptyString => [EmptyString]
  | String d s' =>
      if Ascii.eqb c d then EmptyString :: split c s'
      else match split c s' with
           | l :: ls => String d l :: ls
           | [] => [str d]
           end
  end.

(** [s.split(/\r?\n/)] *)
Fixpoint split_lines (s : string) : list string :=
  match s with
  | EmptyString => [EmptyString]
  | String c s' =>
      if Ascii.eqb c nl then EmptyString :: split_lines s'
      else
        match split_lines s' with
        | l :: ls =>
            if Ascii.eqb c cr && startsWith (str nl) s' then l :: ls
            else String c l :: ls
        | [] => [str c]
        end
  end.

(** [l.join(sep)] *)
Fixpoint join (sep : string) (l : list string) : string :=
  match l with
  | [] => EmptyString
  | [s] => s
  | s :: l' => s +:+ sep +:+ join sep l'
  end.

(** [s.replace(c, r)] with a one-character string [c]: the first
    occurrence only. *)
Fixpoint replace_first (c : ascii) (r : string) (s : string) : string :=
  match s with
  | EmptyString => EmptyString
  | String d s' => if Ascii.eqb c d then r +:+ s' else String d (replace_first c r s')
  end.

(** Length of the longest prefix of [s] made of the character [c]. *)
Fixpoint count_leading (c : ascii) (s : string) : nat :=
  match s with
  | String d s' => if Ascii.eqb c d then S (count_leading c s') else 0
  | EmptyString => 0
  end.

(** Length of the longest prefix of [s] whose characters satisfy [p]. *)
Fixpoint span (p : ascii → bool) (s : string) : nat :=
  match s with
  | String d s' => if p d then S (span p s') else 0
  | EmptyString => 0
  end.

Definition is_digit (c : ascii) : bool :=
  let n := nat_of_ascii c in (48 <=? n) && (n <=? 57).
Definition is_upper (c : ascii) : bool :=
  let n := nat_of_ascii c in (65 <=? n) && (n <=? 90).
Definition is_lower (c : ascii) : bool :=
  let n := nat_of_ascii c in (97 <=? n) && (n <=? 122).
Definition is_alpha (c : ascii) : bool := is_upper c || is_lower c.
Definition is_alnum (c : ascii) : bool := is_alpha c || is_digit c.

Definition lower (c : ascii) : ascii :=
  if is_upper c then ascii_of_nat (nat_of_ascii c + 32) else c.

(** [s.toLowerCase()] on the letters A to Z. *)
Fixpoint toLowerCase (s : string) : string :=
  match s with
  | EmptyString => EmptyString
  | String c s' => String (lower c) (toLowerCase s')
  end.

(** [s.replace(/^ {0,k}/, '')]: at most [k] leading spaces are removed. *)
Definition strip_spaces (k : nat) (s : string) : string :=
  drop (Nat.min k (count_leading space s)) s.

(** [s.replace(/#+$/, '')]: the run of hashes that ends the string. *)
Fixpoint strip_trailing_hashes (s : string) : string :=
  match s with
  | EmptyString => EmptyString
  | String c s' =>
      match strip_trailing_hashes s' with
      | EmptyString => if Ascii.eqb c "#" then EmptyString else str c
      | t => String c t
      end
  end.

(** The decimal numeral of a number, as string conversion prints it. *)
Definition of_nat (n : nat) : string := pretty n.

End Js.

(** ** String to Number conversion

    Two places of the source convert a string to a Number: the config
    fence ([isNaN(+value)]) and the loose comparisons [href == -1],
    [alt == -1] of the link and image parsers. A Number is kept as the
    decimal it was read from: [NumDec neg m e] stands for the double
    nearest to [(-1)^neg * m * 10^e]. *)

Module JsNumber.
Import Js.

Inductive jsnum : Type :=
| NumDec (neg : bool) (m : N) (e : Z)
| NumInf (neg : bool).

Definition digit_val (c : ascii) : N := N.of_nat (nat_of_ascii c - 48).

(** Value of a digit string in base [b]. *)
Fixpoint digits_val (b : N) (acc : N) (s : string) : N :=
  match s with
  | EmptyString => acc
  | String c s' => digits_val b (acc * b + digit_val c)%N s'
  end.

Definition hex_val (c : ascii) : option N :=
  let n := nat_of_ascii c in
  if is_digit c then Some (N.of_nat (n - 48))
  else if (97 <=? n) && (n <=? 102) then Some (N.of_nat (n - 87))
  else if (65 <=? n) && (n <=? 70) then Some (N.of_nat (n - 55))
  else None.

(** Value of a non-empty digit string in base [b], digits below [b]. *)
Fixpoint radix_val (b : N) (acc : option N) (s : string) : option N :=
  match s with
  | EmptyString => acc
  | String c s' =>
      match hex_val c with
      | Some d =>
          if (d <? b)%N then radix_val b (Some (default 0%N acc * b + d)%N) s'
          else None
      | None => None
      end
  end.

(** ExponentPart_opt at the end of a literal. *)
Definition exponent (s : string) : option Z :=
  match s with
  | EmptyString => Some 0%Z
  | String c s' =>
      if Ascii.eqb c "e" || Ascii.eqb c "E" then
        let '(neg, ds) :=
          match s' with
          | String "+" r => (false, r)
          | String "-" r => (true, r)
          | _ => (false, s')
          end in
        if (0 <? len ds) && (span is_digit ds =? len ds) then
          let v := Z.of_N (digits_val 10 0 ds) in
          Some (if neg then (- v)%Z else v)
        else None
      else None
  end.

(** StrUnsignedDecimalLiteral other than Infinity: mantissa and decimal
    exponent. *)
Definition unsigned_decimal (s : string) : option (N * Z) :=
  let ni := span is_digit s in
  let int := take ni s in
  let r := drop ni s in
  let '(frac, r') :=
    match r with
    | String "." r1 => let nf := span is_digit r1 in (Some (take nf r1), drop nf r1)
    | _ => (None, r)
    end in
  let fr := default EmptyString frac in
  if (0 <? ni) || (0 <? len fr) then
    match exponent r' with
    | Some e => Some (digits_val 10 0 (int +:+ fr), (e - Z.of_nat (len fr))%Z)
    | None => None
    end
  else None.

Definition signed_decimal (neg : bool) (s : string) : option jsnum :=
  if String.eqb s "Infinity" then Some (NumInf neg)
  else match unsigned_decimal s with
       | Some (m, e) => Some (NumDec neg m e)
       | None => None
       end.

(** [+s]: [None] stands for NaN. *)
Definition to_number (s : string) : option jsnum :=
  match trim s with
  | EmptyString => Some (NumDec false 0 0)
  | String "+" r => signed_decimal false r
  | String "-" r => signed_decimal true r
  | String "0" (String c r) as t =>
      if Ascii.eqb c "x" || Ascii.eqb c "X" then
        match radix_val 16 None r with Some v => Some (NumDec false v 0) | None => None end
      else if Ascii.eqb c "o" || Ascii.eqb c "O" then
        match radix_val 8 None r with Some v => Some (NumDec false v 0) | None => None end
      else if Ascii.eqb c "b" || Ascii.eqb c "B" then
        match radix_val 2 None r with Some v => Some (NumDec false v 0) | None => None end
      else signed_decimal false t
  | t => signed_decimal false t
  end.

(** The doubles next to 1 are [1 - 2^-53] and [1 + 2^-52]; a decimal is
    read as 1 when it lies between the two midpoints, ends included
    (ties go to the even mantissa, which is that of 1). *)
Definition rounds_to_one (m : N) (e : Z) : bool :=
  let m := Z.of_N m in
  let lo := (2 ^ 54 - 1)%Z in
  let hi := (2 ^ 54 + 2)%Z in
  if (0 <=? e)%Z then (m * 10 ^ e =? 1)%Z
  else
    let d := (10 ^ (- e))%Z in
    (lo * d <=? m * 2 ^ 54)%Z && (m * 2 ^ 54 <=? hi * d)%Z.

(** [s == -1] for a string [s]. *)
Definition loose_eq_minus_one (s : string) : bool :=
  match to_number s with
  | Some (NumDec true m e) => rounds_to_one m e
  | _ => false
  end.

End JsNumber.

(** ** Outcomes, exceptions *)

Inductive exn : Type :=
| ReferenceError (what : string)
| TypeError (what : string)
| Thrown (value : string).

Inductive outcome (A : Type) : Type :=
| Ret (a : A)
| Throw (e : exn)
| OutOfFuel.
Arguments Ret {A} a.
Arguments Throw {A} e.
Arguments OutOfFuel {A}.

#[global] Instance outcome_ret : MRet outcome := λ A a, Ret a.
#[global] Instance outcome_bind : MBind outcome := λ A B f m,
  match m with
  | Ret a => f a
  | Throw e => Throw e
  | OutOfFuel => OutOfFuel
  end.

(** ** The parser registry *)

Class Named (P : Type) := name_of : P → string.

Module ParserCollection.
Section collection.
Context {P : Type} `{Named P}.

(** An array of parsers with its [byname] table. *)
Record t : Type := Build { items : list P; byname : gmap string P }.

Definition empty : t := Build [] ∅.

(** [this.findIndex((b) => b.name == before)] *)
Fixpoint findIndex (before : string) (l : list P) : option nat :=
  match l with
  | [] => None
  | b :: l' =>
      if String.eqb (name_of b) before then Some 0
      else S <$> findIndex before l'
  end.

(** [this.splice(idx, 0, parser)] *)
Definition splice (idx : nat) (parser : P) (l : list P) : list P :=
  take idx l ++ parser :: drop idx l.

(** Truth value of the optional [before] argument: an absent argument
    and the empty string are both falsy. *)
Definition truthy (before : option string) : option string :=
  match before with
  | Some EmptyString | None => None
  | Some b => Some b
  end.

Definition add (parser : P) (before : option string) (c : t) : outcome t :=
  its ← match truthy before with
        | Some b =>
            match findIndex b (items c) with
            | None => Throw (Thrown ("no parser called " +:+ b))
            | Some idx => Ret (splice idx parser (items c))
            end
        | None => Ret (items c ++ [parser])
        end;
  Ret (Build its (<[name_of parser := parser]> (byname c))).

(** A sequence of [add] calls without [before], as the script makes them
    when it is loaded. *)
Definition add_all (ps : list P) (c : t) : outcome t :=
  foldl (λ acc p, c' ← acc; add p None c') (Ret c) ps.

End collection.
Arguments t P : clear implicits.
End ParserCollection.

(** ** The syntax tree *)

(** Values held by an attribute or by the [key] of a citation: strings,
    the footnote numbers, [undefined], and what a lookup in an object
    literal finds under a name it inherits from [Object.prototype]. *)
Inductive jsval : Type :=
| VUndef
| VStr (s : string)
| VNum (n : nat)
| VInherited (k : string).

(** The attributes of a node, in insertion order. *)
Definition attrs : Type := list (string * jsval).

(** A member of a syntax tree.
    - [Obj] is a node object with the fields the parsers set; a field that
      was never set is [None].
    - [Ref a] is the object at address [a] of the heap.
    - [Raw] is a bare line among the children of a [verbatim] node
      ([None] for [undefined]).
    - [Arr] is an array standing where a node is expected. *)
#[warnings="-register-all"]
Inductive node : Type :=
| Obj (name : string) (attributes : option attrs) (children : option (list node))
      (text : option string) (type : option string) (key : option jsval)
| Ref (addr : nat)
| Raw (line : option string)
| Arr (items : list node).

(** Induction on trees, with the hypothesis for every member of a list of
    children or of an array. *)
Section node_ind.
Context (P : node → Prop).
Context (HObj : ∀ nm a cs t ty k,
           match cs with Some l => Forall P l | None => True end →
           P (Obj nm a cs t ty k)).
Context (HRef : ∀ a, P (Ref a)) (HRaw : ∀ s, P (Raw s)).
Context (HArr : ∀ l, Forall P l → P (Arr l)).

Fixpoint node_ind' (n : node) : P n :=
  let all :=
    fix all (l : list node) : Forall P l :=
      match l with
      | [] => List.Forall_nil P
      | x :: l' => @List.Forall_cons node P x l' (node_ind' x) (all l')
      end in
  match n with
  | Obj nm a cs t ty k =>
      HObj nm a cs t ty k
        (match cs return match cs with Some l => Forall P l | None => True end with
         | Some l => all l
         | None => I
         end)
  | Ref a => HRef a
  | Raw s => HRaw s
  | Arr l => HArr l (all l)
  end.
End node_ind.

Module Node.

(** [{ name }] *)
Definition void (name : string) : node := Obj name None None None None None.
(** [{ name, children }] *)
Definition elem (name : string) (children : list node) : node :=
  Obj name None (Some children) None None None.
(** [{ name, attributes, children }] *)
Definition elem_attrs (name : string) (a : attrs) (children : list node) : node :=
  Obj name (Some a) (Some children) None None None.
(** [{ name: 'text', text }] *)
Definition text (s : string) : node := Obj "text" None None (Some s) None None.

Definition name (n : node) : option string :=
  match n with Obj nm _ _ _ _ _ => Some nm | _ => None end.
Definition children (n : node) : option (list node) :=
  match n with Obj _ _ cs _ _ _ => cs | _ => None end.
Definition attributes (n : node) : option attrs :=
  match n with Obj _ a _ _ _ _ => a | _ => None end.
Definition key (n : node) : option jsval :=
  match n with Obj _ _ _ _ _ k => k | _ => None end.

(** [n.name = nm] *)
Definition set_name (nm : string) (n : node) : node :=
  match n with Obj _ a cs t ty k => Obj nm a cs t ty k | _ => n end.
(** [n.attributes = a] *)
Definition set_attributes (a : attrs) (n : node) : node :=
  match n with Obj nm _ cs t ty k => Obj nm (Some a) cs t ty k | _ => n end.
(** [n.type = ty] *)
Definition set_type (ty : string) (n : node) : node :=
  match n with Obj nm a cs t _ k => Obj nm a cs t (Some ty) k | _ => n end.
(** [n.key = k] *)
Definition set_key (k : jsval) (n : node) : node :=
  match n with Obj nm a cs t ty _ => Obj nm a cs t ty (Some k) | _ => n end.
(** [n.text = s] *)
Definition set_text (s : string) (n : node) : node :=
  match n with Obj nm a cs _ ty k => Obj nm a cs (Some s) ty k | _ => n end.
(** [n.children = cs] *)
Definition set_children (cs : list node) (n : node) : node :=
  match n with Obj nm a _ t ty k => Obj nm a (Some cs) t ty k | _ => n end.

(** [a[k]] on an attribute object. *)
Fixpoint attr_get (k : string) (a : attrs) : jsval :=
  match a with
  | [] => VUndef
  | (k', v) :: a' => if String.eqb k k' then v else attr_get k a'
  end.

(** [a[k] = v] on an attribute object: an existing name keeps its
    place, a new one goes last. *)
Fixpoint attr_set (k : string) (v : jsval) (a : attrs) : attrs :=
  match a with
  | [] => [(k, v)]
  | (k', v') :: a' =>
      if String.eqb k k' then (k, v) :: a' else (k', v') :: attr_set k v a'
  end.

(** [n.attributes.k = v] *)
Definition set_attr (k : string) (v : jsval) (n : node) : node :=
  match n with
  | Obj nm (Some a) cs t ty ky => Obj nm (Some (attr_set k v a)) cs t ty ky
  | _ => n
  end.

End Node.

(** ** Object literals used as tables

    [defs], [tonumbers] and [config] are object literals indexed by
    arbitrary text. A read finds the own property if there is one, and
    otherwise what [Object.prototype] provides under that name. *)

Module Proto.

(** The property names of [Object.prototype]. *)
Definition names : list string :=
  [ "constructor"; "__defineGetter__"; "__defineSetter__"; "hasOwnProperty";
    "__lookupGetter__"; "__lookupSetter__"; "isPrototypeOf";
    "propertyIsEnumerable"; "toString"; "valueOf"; "__proto__";
    "toLocaleString" ].

Definition inherited (k : string) : bool := bool_decide (k ∈ names).

Inductive found (V : Type) : Type :=
| Own (v : V)
| Inherited
| Undefined.
Arguments Own {V} v.
Arguments Inherited {V}.
Arguments Undefined {V}.

(** [obj[k]] *)
Definition get {V : Type} (k : string) (obj : gmap string V) : found V :=
  match obj !! k with
  | Some v => Own v
  | None => if inherited k then Inherited else Undefined
  end.

(** String conversion of an inherited value: the accessor [__proto__]
    yields the prototype object, [constructor] the function [Object], and
    every other name the built-in function of that name. *)
Definition to_string (k : string) : string :=
  if String.eqb k "__proto__" then "[object Object]"
  else if String.eqb k "constructor" then "function Object() { [native code] }"
  else "function " +:+ k +:+ "() { [native code] }".

End Proto.

(** String conversion of a value, as a template literal performs it. *)
Definition jsval_to_string (v : jsval) : string :=
  match v with
  | VUndef => "undefined"
  | VStr s => s
  | VNum n => Js.of_nat n
  | VInherited k => Proto.to_string k
  end.

(** Truth value of a value. *)
Definition jsval_truthy (v : jsval) : bool :=
  match v with
  | VUndef => false
  | VStr s => negb (String.eqb s EmptyString)
  | VNum n => negb (n =? 0)
  | VInherited _ => true
  end.

(** ** Parser state *)

(** A value of the [config] object. *)
Inductive cfgval : Type :=
| CUndef
| CStr (s : string)
| CNum (n : JsNumber.jsnum).

Record pstate : Type := PState {
  heap : list node;                        (* shared node objects *)
  cites : list nat;                        (* footnote_def.cites *)
  links : list nat;                        (* href_def.links *)
  fn_defs : gmap string (list string);     (* footnote_def.defs *)
  href_defs : gmap string string;          (* href_def.defs *)
  config : gmap string cfgval              (* config *)
}.

Definition initial : pstate := PState [] [] [] ∅ ∅ ∅.

(** Computations of the parser: they read and write the state, and end
    with a value, an exception or no fuel. *)
Definition M (A : Type) : Type := pstate → outcome (A * pstate).

#[global] Instance M_ret : MRet M := λ A a st, Ret (a, st).
#[global] Instance M_bind : MBind M := λ A B f m st,
  match m st with
  | Ret (a, st') => f a st'
  | Throw e => Throw e
  | OutOfFuel => OutOfFuel
  end.

Module St.

Definition throw {A : Type} (e : exn) : M A := λ _, Throw e.
Definition out_of_fuel {A : Type} : M A := λ _, OutOfFuel.
Definition get : M pstate := λ st, Ret (st, st).
Definition modify (f : pstate → pstate) : M unit := λ st, Ret (tt, f st).
Definition lift {A : Type} (o : outcome A) : M A := λ st, x ← o; Ret (x, st).

(** A new shared object: its address is returned. *)
Definition alloc (o : node) : M nat := λ st,
  Ret (length (heap st),
       PState (heap st ++ [o]) (cites st) (links st)
              (fn_defs st) (href_defs st) (config st)).

(** In-place update of the object at an address. *)
Definition update (a : nat) (f : node → node) : M unit :=
  modify (λ st, PState (alter f a (heap st)) (cites st) (links st)
                       (fn_defs st) (href_defs st) (config st)).

Definition push_cite (a : nat) : M unit :=
  modify (λ st, PState (heap st) (cites st ++ [a]) (links st)
                       (fn_defs st) (href_defs st) (config st)).
Definition push_link (a : nat) : M unit :=
  modify (λ st, PState (heap st) (cites st) (links st ++ [a])
                       (fn_defs st) (href_defs st) (config st)).
Definition set_fn_def (k : string) (v : list string) : M unit :=
  modify (λ st, PState (heap st) (cites st) (links st)
                       (<[k := v]> (fn_defs st)) (href_defs st) (config st)).
Definition set_href_def (k v : string) : M unit :=
  modify (λ st, PState (heap st) (cites st) (links st)
                       (fn_defs st) (<[k := v]> (href_defs st)) (config st)).
Definition set_config (k : string) (v : cfgval) : M unit :=
  modify (λ st, PState (heap st) (cites st) (links st)
                       (fn_defs st) (href_defs st) (<[k := v]> (config st))).

(** [for (x of l) { f(x) }] with the results collected, as [l.map(f)]
    does. *)
Fixpoint mapM {A B : Type} (f : A → M B) (l : list A) : M (list B) :=
  match l with
  | [] => mret []
  | x :: l' => y ← f x; ys ← mapM f l'; mret (y :: ys)
  end.

End St.

(** ** The inline engine *)

Module Inline.
Import Js.

(** The type of [parse_inline] as the parsers receive it: the text, the
    terminator (a literal, searched with [make_re]) and the cursor; the
    result is the list of nodes and the cursor left in the state. *)
Definition parse_inline_t : Type :=
  string → option string → nat → M (list node * nat).

(** An inline parser descriptor. [ip_indexOf] returns [None] for -1;
    [ip_parse] returns [None] for a falsy result, with the cursor. *)
Record iparser : Type := IParser {
  ip_name : string;
  ip_indexOf : string → nat → option nat;
  ip_parse : parse_inline_t → string → nat → M (option node * nat)
}.
#[global] Instance iparser_named : Named iparser := ip_name.

(** Search of [make_re(pat)] in [text] from [start]: the first index at
    or after [start] where [pat] occurs and which no backslash precedes.
    [prev] is the character before index [i], [s] the text from [i]. *)
Fixpoint scan (pat : string) (start : nat) (prev : option ascii) (i : nat)
    (s : string) : option nat :=
  if (start <=? i) && startsWith pat s
     && negb (bool_decide (prev = Some backslash))
  then Some i
  else match s with
       | EmptyString => None
       | String c s' => scan pat start (Some c) (S i) s'
       end.

(** [make_indexOf(str)] *)
Definition make_indexOf (pat : string) (text : string) (start : nat) : option nat :=
  scan pat start None 0 text.

(** [noesc]: every backslash that no backslash follows is removed. *)
Fixpoint noesc (s : string) : string :=
  match s with
  | EmptyString => EmptyString
  | String c s' =>
      if Ascii.eqb c backslash && negb (startsWith (str backslash) s')
      then noesc s'
      else String c (noesc s')
  end.

(** [ender.indexOf]: the terminator, or the end of the text. *)
Definition ender_indexOf (ender : option string) (text : string) (cursor : nat) : nat :=
  match ender with
  | None => len text
  | Some e => default (len text) (make_indexOf e text cursor)
  end.

(** [grab(state, target, start, end_ok)]: the text up to the target and
    the new cursor, or [None] when -1 is returned (the cursor is then
    unchanged). *)
Definition grab (text : string) (cursor : nat) (target : string) (start : nat)
    (end_ok : bool) : option (string * nat) :=
  match make_indexOf target text (cursor + start) with
  | Some idx => Some (slice (start + cursor) idx text, idx)
  | None =>
      if end_ok then Some (drop (start + cursor) text, len text) else None
  end.

(** [delimited(name, startsWith, endsWith)] *)
Definition delimited (name s e : string) : iparser :=
  IParser name (make_indexOf s)
    (λ parse_inline text cursor,
       '(children, c) ← parse_inline text (Some e) (cursor + len s);
       mret (Some (Node.elem name children), c + len e)).

(** [capture(name, startsWith, endsWith, process, textfilter)] *)
Definition capture (name s e : string) (process : node → M node)
    (textfilter : string → string) : iparser :=
  IParser name (make_indexOf s)
    (λ _ text cursor,
       match grab text (cursor + len s) e 0 true with
       | Some (txt, c) =>
           n ← process (Node.elem name [Node.text (textfilter txt)]);
           mret (Some n, c + len e)
       | None => mret (None, cursor + len s)
       end).

(** The [process] argument of the footnote citation parser. *)
Definition footnote_cite_process (n : node) : M node :=
  match Node.children n with
  | Some ((Obj _ _ _ (Some t) _ _ :: _) as children) =>
      a ← St.alloc (Obj "a" (Some []) (Some children) None None (Some (VStr (noesc t))));
      _ ← St.push_cite a;
      mret (Node.elem "sup" [Ref a])
  | _ => St.throw (TypeError "children[0].text")
  end.

Definition footnote_cite : iparser :=
  capture "footnote_cite" "[^" "]" footnote_cite_process noesc.

(** The link parser. The test [state.cursor == state.length] of the
    source compares with a property the state does not have and never
    holds; it is left out. *)
Definition link : iparser :=
  IParser "a" (make_indexOf "[")
    (λ parse_inline text cursor,
       '(children, c) ← parse_inline text (Some "](") (S cursor);
       match grab text c ")" 2 false with
       | None => mret (None, cursor)
       | Some (href, c') =>
           if JsNumber.loose_eq_minus_one href then mret (None, cursor)
           else
             let href := noesc href in
             let children :=
               match children with
               | [] => [Node.text href]
               | _ => children
               end in
             a ← St.alloc (Node.elem_attrs "a" [("href", VStr href)] children);
             _ ← St.push_link a;
             mret (Some (Ref a), S c')
       end).

(** The image parser. *)
Definition img : iparser :=
  IParser "img" (make_indexOf "![")
    (λ _ text cursor,
       match grab text (cursor + 2) "](" 0 false with
       | None => mret (None, cursor)
       | Some (alt, c) =>
           if JsNumber.loose_eq_minus_one alt then mret (None, cursor)
           else
             match grab text c ")" 2 false with
             | None => mret (None, cursor)
             | Some (src, c') =>
                 if JsNumber.loose_eq_minus_one src then mret (None, cursor)
                 else
                   a ← St.alloc (Obj "img"
                          (Some [("src", VStr (noesc src)); ("alt", VStr (noesc alt))])
                          None None None None);
                   _ ← St.push_link a;
                   mret (Some (Ref a), S c')
             end
       end).

(** The built-in parsers in the order the script registers them. *)
Definition builtin : list iparser :=
  [ delimited "strong" "**" "**";
    delimited "em" "*" "*";
    delimited "strong" "__" "__";
    delimited "em" "_" "_";
    delimited "sup" "^" "^";
    delimited "sub" "~" "~";
    capture "code" "`" "`" mret noesc;
    footnote_cite;
    link;
    img ].

(** [inlineparsers] once the script is loaded: the collection and its
    array. *)
Definition registry : outcome (ParserCollection.t iparser) :=
  ParserCollection.add_all builtin ParserCollection.empty.

Definition inlineparsers : list iparser :=
  match registry with
  | Ret c => ParserCollection.items c
  | _ => []
  end.

(** One pass over [currentparsers]: the nearest match (the earlier
    parser wins a tie, and the terminator wins over all), and the
    parsers that can still match. *)
Fixpoint select (text : string) (cursor : nat) (ps : list iparser)
    (idx : nat) (first : option iparser) : nat * option iparser * list iparser :=
  match ps with
  | [] => (idx, first, [])
  | p :: ps' =>
      match ip_indexOf p text cursor with
      | Some idxp =>
          let '(idx', first') :=
            if idxp <? idx then (idxp, Some p) else (idx, first) in
          let '(i, f, kept) := select text cursor ps' idx' first' in
          (i, f, p :: kept)
      | None => select text cursor ps' idx first
      end
  end.

(** [node.type = 'inline'] *)
Definition mark_inline (n : node) : M node :=
  match n with
  | Ref a => _ ← St.update a (Node.set_type "inline"); mret n
  | _ => mret (Node.set_type "inline" n)
  end.

Definition finish (ast : list node) (cursor : nat) : M (list node * nat) :=
  ast' ← St.mapM mark_inline ast; mret (ast', cursor).

(** The loop of [parse_inline]. [current] is [currentparsers] and [ast]
    the nodes pushed so far. *)
Fixpoint run (fuel : nat) (text : string) (ender : option string)
    (current : list iparser) (cursor : nat) (ast : list node)
    : M (list node * nat) :=
  match fuel with
  | 0 => St.out_of_fuel
  | S fuel' =>
      if cursor <? len text then
        let '(idx, first, current') :=
          select text cursor current (ender_indexOf ender text cursor) None in
        let '(ast1, cursor1) :=
          if cursor <? idx
          then (ast ++ [Node.text (noesc (slice cursor idx text))], idx)
          else (ast, cursor) in
        match first with
        | None => finish ast1 cursor1
        | Some p =>
            '(r, cursor2) ←
              ip_parse p (λ t e c, run fuel' t e inlineparsers c []) text cursor1;
            match r with
            | Some n => run fuel' text ender current' cursor2 (ast1 ++ [n])
            | None =>
                match at_ cursor2 text with
                | Some ch =>
                    run fuel' text ender current' (S cursor2)
                        (ast1 ++ [Node.text (noesc (str ch))])
                | None => St.throw (TypeError "noesc(undefined)")
                end
            end
        end
      else finish ast cursor
  end.

(** [parse_inline(state, endsWith)] *)
Definition parse_inline (fuel : nat) : parse_inline_t :=
  λ text ender cursor, run fuel text ender inlineparsers cursor [].

(** [parse_inline(text)] on a string. *)
Definition parse_text (fuel : nat) (text : string) : M (list node) :=
  '(ast, _) ← parse_inline fuel text None 0; mret ast.

End Inline.

(** ** Line predicates and list-item helpers *)

Module Lines.
Import Js.

(** [blankline]: lines have been right trimmed. *)
Definition blankline (line : string) : bool := String.eqb line EmptyString.

(** [indented] *)
Definition indented (line : string) : bool := startsWith " " line.

(** [grablines(lines, predicate)]: the lines grabbed and the lines left. *)
Fixpoint grablines (predicate : string → bool) (lines : list string)
    : list string * list string :=
  match lines with
  | l :: lines' =>
      if predicate l
      then let '(g, rest) := grablines predicate lines' in (l :: g, rest)
      else ([], lines)
  | [] => ([], [])
  end.

(** A list item: its marker and its lines. *)
Record item : Type := Item { item_prefix : string; item_lines : list string }.

(** [list_item(lines, regex, check)]. The regular expression is given by
    the function that returns the matched prefix. *)
Definition list_item (regex : string → option string) (check : string → bool)
    (lines : list string) : option (item * list string) :=
  match lines with
  | l :: lines' =>
      match regex l with
      | Some prefix =>
          if negb (String.eqb prefix EmptyString) && check prefix then
            let '(g, rest) := grablines (λ line, indented line || blankline line) lines' in
            Some (Item prefix (l :: g), rest)
          else None
      | None => None
      end
  | [] => None
  end.

(** The loop [while ((item = list_item(lines, this.re, check)))] of the
    two list parsers, where [check] accepts any prefix until a style is
    set and [style ||= style_of(item.prefix)] sets it. Every item takes
    a line, so [n] need not exceed the number of lines. *)
Fixpoint collect {T : Type} `{EqDecision T} (n : nat) (regex : string → option string)
    (style_of : string → T) (style : option T) (lines : list string)
    : list item * option T * list string :=
  match n with
  | 0 => ([], style, lines)
  | S n' =>
      let check prefix :=
        match style with
        | None => true
        | Some s => bool_decide (style_of prefix = s)
        end in
      match list_item regex check lines with
      | Some (it, rest) =>
          let style' := Some (default (style_of (item_prefix it)) style) in
          let '(its, st, rest') := collect n' regex style_of style' rest in
          (it :: its, st, rest')
      | None => ([], style, lines)
      end
  end.

(** The blank lines that end a list of lines, split off. *)
Fixpoint split_trailing_blanks (l : list string) : list string * list string :=
  match l with
  | [] => ([], [])
  | x :: l' =>
      let '(kept, blanks) := split_trailing_blanks l' in
      match kept with
      | [] => if blankline x then ([], x :: blanks) else ([x], blanks)
      | _ => (x :: kept, blanks)
      end
  end.

(** [deblank(items, lines)] *)
Definition deblank (items : list item) (lines : list string)
    : list item * list string :=
  match items with
  | [] | [_] => (items, lines)
  | _ =>
      match last items with
      | Some it =>
          let '(kept, blanks) := split_trailing_blanks (item_lines it) in
          (removelast items ++ [Item (item_prefix it) kept], blanks ++ lines)
      | None => (items, lines)
      end
  end.

(** The first loop of [dedent] over [item.lines.slice(1)]: the minimum
    of [len] and of the indentation of the lines that are not blank.
    [line.match(/^ +/)] is null on a line with no leading space. *)
Fixpoint min_indent (len : nat) (rest : list string) : outcome nat :=
  match rest with
  | [] => Ret len
  | line :: rest' =>
      if blankline line then min_indent len rest'
      else
        match count_leading space line with
        | 0 => Throw (TypeError "line.match(/^ +/) is null")
        | S k => min_indent (Nat.min len (S k)) rest'
        end
  end.

(** The body of the loop of [dedent] for one item. *)
Definition dedent_item (it : item) : outcome item :=
  match item_lines it with
  | [] => Throw (TypeError "item.lines[0] is undefined")
  | l0 :: rest =>
      let first := drop (len (item_prefix it)) l0 in
      len ← min_indent (len (item_prefix it)) rest;
      let k := if len =? 0 then 1 else len in
      Ret (Item (item_prefix it) (first :: map (strip_spaces k) rest))
  end.

(** [dedent(items)] *)
Fixpoint dedent (items : list item) : outcome (list item) :=
  match items with
  | [] => Ret []
  | it :: items' => it' ← dedent_item it; its ← dedent items'; Ret (it' :: its)
  end.

(** [checkloose(items)] *)
Definition checkloose (items : list item) : list item :=
  let loose := existsb (λ it, existsb blankline (item_lines it)) items in
  if loose then
    map (λ it,
           match last (item_lines it) with
           | Some l => if blankline l then it
                       else Item (item_prefix it) (item_lines it ++ [EmptyString])
           | None => Item (item_prefix it) (item_lines it ++ [EmptyString])
           end) items
  else items.

End Lines.

(** ** The block parsers *)

Module Block.
Import Js Lines.

(** [parse_blocks] as the parsers receive it. *)
Definition parse_blocks_t : Type := list string → M (list node).

(** [parse_inline(text)] on a string: the cursor starts at 0 and there
    is no terminator. *)
Definition inline_text (parse_inline : Inline.parse_inline_t) (text : string)
    : M (list node) :=
  '(ast, _) ← parse_inline text None 0; mret ast.

(** A block parser descriptor. [bp_parse] receives the lines and returns
    the node ([None] for a falsy result) and the lines left in the
    array. *)
Record bparser : Type := BParser {
  bp_name : string;
  bp_init : option (M unit);
  bp_parse : parse_blocks_t → Inline.parse_inline_t → list string →
             M (option node * list string);
  bp_postprocess : option (parse_blocks_t → Inline.parse_inline_t →
                           list node → M (list node))
}.
#[global] Instance bparser_named : Named bparser := bp_name.

(** [lines[0].match(re)] and the like on an empty array. *)
Definition no_line {A : Type} : M A :=
  St.throw (TypeError "lines[0] is undefined").

(** *** Headers: [/^#{1,6} /] *)

(** The number of hashes of the matched prefix. *)
Definition header_re (line : string) : option nat :=
  let n := count_leading "#" line in
  if (1 <=? n) && (n <=? 6) && bool_decide (at_ n line = Some space)
  then Some n else None.

Definition header : bparser :=
  BParser "header" None
    (λ _ parse_inline lines,
       match lines with
       | [] => no_line
       | l :: rest =>
           match header_re l with
           | Some n =>
               let line := strip_trailing_hashes (drop (S n) l) in
               children ← inline_text parse_inline line;
               mret (Some (Node.elem ("h" +:+ of_nat n) children), rest)
           | None => mret (None, lines)
           end
       end)
    None.

(** *** Block quote *)

(** [line.replace(/^> ?/, '')] *)
Definition unquote (line : string) : string :=
  match line with
  | String ">" (String " " r) => r
  | String ">" r => r
  | _ => line
  end.

Definition blockquote : bparser :=
  BParser "blockquote" None
    (λ parse_blocks _ lines,
       let '(quoted, rest) := grablines (startsWith ">") lines in
       match quoted with
       | [] => mret (None, lines)
       | _ =>
           children ← parse_blocks (map unquote quoted);
           mret (Some (Node.elem "blockquote" children), rest)
       end)
    None.

(** *** Indented code block *)

Definition indented_codeblock : bparser :=
  BParser "indented_codeblock" None
    (λ _ _ lines,
       let '(block, rest) := grablines (startsWith "    ") lines in
       match block with
       | [] => mret (None, lines)
       | _ =>
           mret (Some (Node.elem "codeblock"
                         (map (λ c, Node.text (if startsWith "    " c then drop 4 c else c))
                              block)),
                 rest)
       end)
    None.

(** *** Fenced code block and the fence handlers *)

Record handler : Type := Handler {
  fh_init : option (M unit);
  fh_parse : list string → M node
}.

(** [config[name] = value]: the name [__proto__] is the prototype
    accessor, which ignores strings, numbers and [undefined]. *)
Definition config_assign (name : string) (v : cfgval) : M unit :=
  if String.eqb name "__proto__" then mret tt else St.set_config name v.

(** One line of a config fence. *)
Definition config_line (line : string) : M unit :=
  match map trim (split ":" line) with
  | [] => mret tt
  | [name] => config_assign name CUndef
  | name :: value :: _ =>
      match JsNumber.to_number value with
      | Some n => config_assign name (CNum n)
      | None => config_assign name (CStr value)
      end
  end.

Definition reset_config : M unit :=
  St.modify (λ st, PState (heap st) (cites st) (links st)
                          (fn_defs st) (href_defs st) ∅).

Definition fencehandler_config : handler :=
  Handler (Some reset_config)
    (λ lines, _ ← St.mapM config_line lines; mret (Node.void "omit")).

Definition fencehandler_verbatim : handler :=
  Handler None (λ lines, mret (Node.elem "verbatim" (map Node.text lines))).

Definition fencehandler_omit : handler :=
  Handler None (λ _, mret (Node.void "omit")).

Definition fencehandler : gmap string handler :=
  {[ "config" := fencehandler_config;
     "verbatim" := fencehandler_verbatim;
     "omit" := fencehandler_omit ]}.

(** Evaluation of an identifier that no scope binds. *)
Definition unbound {A : Type} (x : string) : M A :=
  St.throw (ReferenceError (x +:+ " is not defined")).

(** [c.replace(/^\\```/, '```')]: the backslash and three backquotes. *)
Definition unescape_fence (c : string) : string :=
  if startsWith "\```" c then drop 1 c else c.

(** The names that [fencehandler] inherits carry no [parse], so the
    optional call is made for the own entries only. Its argument is the
    identifier [children], which is bound neither in [parse] nor around
    it: the argument is evaluated before the call. *)
Definition fenced_codeblock : bparser :=
  BParser "fenced_codeblock"
    (Some (map_fold (λ _ h acc, _ ← acc; default (mret tt) (fh_init h))
                    (mret tt) fencehandler))
    (λ _ _ lines,
       match lines with
       | fence :: lines' =>
           if startsWith "```" fence then
             let type := drop 3 fence in
             let '(block, rest) := grablines (λ line, negb (startsWith "```" line)) lines' in
             let rest := tail rest in
             match fencehandler !! type with
             | Some h =>
                 children ← unbound "children";
                 n ← fh_parse h children;
                 mret (Some n, rest)
             | None =>
                 mret (Some (Obj "codeblock" None
                               (Some (map (λ c, Node.text (unescape_fence c)) block))
                               None (Some type) None),
                       rest)
             end
           else mret (None, lines)
       | [] => mret (None, lines)
       end)
    (Some (λ _ _ ast, mret ast)).

(** *** Lists *)

(** [/^[+*-] /] *)
Definition unordered_re (line : string) : option string :=
  match line with
  | String c (String d _) =>
      if includes c "+*-" && Ascii.eqb d " " then Some (take 2 line) else None
  | _ => None
  end.

(** [ulclass[marker]] *)
Definition ulclass (marker : option ascii) : jsval :=
  match marker with
  | Some c =>
      if Ascii.eqb c "*" then VStr "star-list"
      else if Ascii.eqb c "+" then VStr "plus-list"
      else if Ascii.eqb c "-" then VStr "minus-list"
      else VUndef
  | None => VUndef
  end.

(** [prefix[0]] *)
Definition marker_of (prefix : string) : option ascii := at_ 0 prefix.

(** The part of the two list parsers after the loop. *)
Definition finish_list (parse_blocks : parse_blocks_t) (items : list item)
    (lines : list string) (mk : list node → node) : M (option node * list string) :=
  let '(items, lines) := deblank items lines in
  items ← St.lift (dedent items);
  let items := checkloose items in
  children ← St.mapM parse_blocks (map item_lines items);
  mret (Some (mk (map (Node.elem "li") children)), lines).

Definition unordered_list : bparser :=
  BParser "unordered_list" None
    (λ parse_blocks _ lines,
       let '(items, marker, rest) :=
         collect (length lines) unordered_re marker_of None lines in
       match items with
       | [] => mret (None, lines)
       | _ =>
           finish_list parse_blocks items rest
             (Node.elem_attrs "ul" [("class", ulclass (mjoin marker))])
       end)
    None.

(** Longest run of characters of [p], then [)] or [.], then a space. *)
Definition run_then_close (p : ascii → bool) (line : string) : option string :=
  let n := span p line in
  if (1 <=? n)
     && bool_decide (at_ n line = Some ")"%char ∨ at_ n line = Some "."%char)
     && bool_decide (at_ (S n) line = Some space)
  then Some (take (n + 2) line) else None.

Definition is_roman (c : ascii) : bool := includes c "mclxivMCLXIV".

(** [/^([0-9]+|[a-zA-Z]|[mclxivMCLXIV]+)[).] /] *)
Definition ordered_re (line : string) : option string :=
  match run_then_close is_digit line with
  | Some p => Some p
  | None =>
      match line with
      | String c (String d (String e _)) =>
          if is_alpha c && (Ascii.eqb d ")" || Ascii.eqb d ".") && Ascii.eqb e " "
          then Some (take 3 line) else run_then_close is_roman line
      | _ => run_then_close is_roman line
      end
  end.

(** [getstyle(prefix)] *)
Definition getstyle (prefix : string) : string :=
  let endmarker := match at_neg 2 prefix with Some c => str c | None => "undefined" end in
  let orderstyle :=
    match at_ 0 prefix with
    | Some c =>
        if includes c "0123456789" then "1"
        else if includes c "IVMXL" then "I"
        else if includes c "ivmxl" then "i"
        else if includes c "ABCDEFGHIJK" then "A"
        else "a"
    | None => "a"
    end in
  orderstyle +:+ endmarker.

Definition ordered_list : bparser :=
  BParser "ordered_list" None
    (λ parse_blocks _ lines,
       let '(items, style, rest) :=
         collect (length lines) ordered_re getstyle None lines in
       match items with
       | [] => mret (None, lines)
       | it :: _ =>
           let start := drop_right 2 (item_prefix it) in
           finish_list parse_blocks items rest
             (Node.elem_attrs "ol"
                [("start", VStr start);
                 ("type", VStr (drop_right 1 (default EmptyString style)))])
       end)
    None.

(** *** Horizontal rule *)

Definition horizontal_rule : bparser :=
  BParser "horizontal_rule" None
    (λ _ _ lines,
       match lines with
       | [] => no_line
       | l :: rest =>
           if startsWith "***" l || startsWith "---" l || startsWith "___" l
           then mret (Some (Node.void "hr"), rest)
           else mret (None, lines)
       end)
    None.

(** *** Footnote definition: [/^\[\^[a-zA-Z0-9]+\]: */] *)

(** The matched prefix and the label in it. *)
Definition footnote_re (line : string) : option (string * string) :=
  if startsWith "[^" line then
    let r := drop 2 line in
    let n := span is_alnum r in
    if (1 <=? n) && startsWith "]:" (drop n r) then
      let k := count_leading space (drop (n + 2) r) in
      Some (take (2 + n + 2 + k) line, take n r)
    else None
  else None.

Definition reset_footnotes : M unit :=
  St.modify (λ st, PState (heap st) [] (links st) ∅ (href_defs st) (config st)).

(** The lines of a definition, turned into the lines of a list item. *)
Definition footnote_lines (prefix : string) (children : list string) : list string :=
  let children := map (strip_spaces (len prefix)) children in
  let children :=
    match children with
    | c :: cs => drop (len prefix) c :: cs
    | [] => []
    end in
  let children := map (λ c, "   " +:+ c) children in
  match children with
  | c :: cs => ("1) " +:+ drop 3 c) :: cs
  | [] => []
  end.

(** [tonumbers[cite.key]] and the assignments that follow it, for the
    citation at address [a]. [i] is the next number. *)
Definition number_cite (a : nat) (acc : nat * gmap string nat)
    : M (nat * gmap string nat) :=
  let '(i, tonumbers) := acc in
  st ← St.get;
  match heap st !! a with
  | Some cite =>
      let label := jsval_to_string (default VUndef (Node.key cite)) in
      let '(k, i', tonumbers') :=
        match Proto.get label tonumbers with
        | Proto.Own n => (VNum n, i, tonumbers)
        | Proto.Inherited => (VInherited label, i, tonumbers)
        | Proto.Undefined => (VNum i, S i, <[label := i]> tonumbers)
        end in
      match Node.attributes cite, Node.children cite with
      | Some _, Some (c0 :: cs) =>
          _ ← St.update a (λ cite,
                Node.set_children (Node.set_text (jsval_to_string k) c0 :: cs)
                  (Node.set_attr "href" (VStr ("#footnote_" +:+ jsval_to_string k))
                     (Node.set_key k cite)));
          mret (i', tonumbers')
      | _, _ => St.throw (TypeError "cite.attributes or cite.children[0]")
      end
  | None => St.throw (TypeError "cite is undefined")
  end.

(** [for (let cite of this.cites)] *)
Fixpoint number_cites (cs : list nat) (acc : nat * gmap string nat)
    : M (nat * gmap string nat) :=
  match cs with
  | [] => mret acc
  | a :: cs' => acc' ← number_cite a acc; number_cites cs' acc'
  end.

(** [Object.fromEntries(Object.entries(tonumbers).map((c) => c.toReversed()))] *)
Definition reversed (tonumbers : gmap string nat) : gmap nat string :=
  list_to_map (prod_swap <$> map_to_list tonumbers).

(** [for (let j = 1; j < i; j++) defs.push(...this.defs[tonumbers[j]])];
    [n] counts the numbers left. A label without a definition, own or
    inherited, gives a value that cannot be spread. *)
Fixpoint collect_defs (n j : nat) (byno : gmap nat string)
    (defs : gmap string (list string)) : outcome (list string) :=
  match n with
  | 0 => Ret []
  | S n' =>
      let label := default "undefined" (byno !! j) in
      match Proto.get label defs with
      | Proto.Own lines => rest ← collect_defs n' (S j) byno defs; Ret (lines ++ rest)
      | _ => Throw (TypeError "this.defs[tonumbers[j]] is not iterable")
      end
  end.

(** [n.attributes = a] on a member of a tree. *)
Definition assign_attributes (a : attrs) (n : node) : M node :=
  match n with
  | Ref b => _ ← St.update b (Node.set_attributes a); mret n
  | _ => mret (Node.set_attributes a n)
  end.

(** [for (let i = 0; i < cs.length; i++) cs[i].attributes = { id: ... }] *)
Fixpoint number_items (i : nat) (cs : list node) : M (list node) :=
  match cs with
  | [] => mret []
  | c :: cs' =>
      c' ← assign_attributes [("id", VStr ("footnote_" +:+ of_nat (S i)))] c;
      cs'' ← number_items (S i) cs';
      mret (c' :: cs'')
  end.

(** The loop over [defs[0].children]. *)
Definition number_first (d0 : node) : M node :=
  match d0 with
  | Obj _ _ (Some cs) _ _ _ =>
      cs' ← number_items 0 cs; mret (Node.set_children cs' d0)
  | Ref b =>
      st ← St.get;
      match heap st !! b ≫= Node.children with
      | Some cs =>
          cs' ← number_items 0 cs;
          _ ← St.update b (Node.set_children cs');
          mret d0
      | None => St.throw (TypeError "defs[0].children is undefined")
      end
  | _ => St.throw (TypeError "defs[0].children is undefined")
  end.

Definition footnote_postprocess (parse_blocks : parse_blocks_t) (ast : list node)
    : M (list node) :=
  st ← St.get;
  '(i, tonumbers) ← number_cites (cites st) (1, ∅);
  st ← St.get;
  defs ← St.lift (collect_defs (i - 1) 1 (reversed tonumbers) (fn_defs st));
  defs ← parse_blocks defs;
  match defs with
  | [] => mret ast
  | d0 :: ds =>
      d0' ← number_first d0;
      mret (ast ++ [Node.elem_attrs "div" [("class", VStr "footnotes")] [Arr (d0' :: ds)]])
  end.

Definition footnote_def : bparser :=
  BParser "footnote_def" (Some reset_footnotes)
    (λ _ _ lines,
       match lines with
       | [] => no_line
       | l :: lines' =>
           match footnote_re l with
           | Some (prefix, note) =>
               let '(g, rest) := grablines (λ line, blankline line || indented line) lines' in
               _ ← St.set_fn_def note (footnote_lines prefix (l :: g));
               mret (Some (Node.void "omit"), rest)
           | None => mret (None, lines)
           end
       end)
    (Some (λ parse_blocks _ ast, footnote_postprocess parse_blocks ast)).

(** *** Link reference definition: [/^\[[A-Za-z0-9]+\]: */] *)

Definition href_re (line : string) : option (string * string) :=
  if startsWith "[" line then
    let r := drop 1 line in
    let n := span is_alnum r in
    if (1 <=? n) && startsWith "]:" (drop n r) then
      let k := count_leading space (drop (n + 2) r) in
      Some (take (1 + n + 2 + k) line, take n r)
    else None
  else None.

Definition reset_hrefs : M unit :=
  St.modify (λ st, PState (heap st) (cites st) [] (fn_defs st) ∅ (config st)).

(** [this.defs[v] || v] *)
Definition resolve_ref (defs : gmap string string) (v : jsval) : jsval :=
  let k := jsval_to_string v in
  match Proto.get k defs with
  | Proto.Own d => if String.eqb d EmptyString then v else VStr d
  | Proto.Inherited => VInherited k
  | Proto.Undefined => v
  end.

(** The body of the loop of the postprocessing for one link or image. *)
Definition resolve_link (defs : gmap string string) (n : node) : node :=
  match Node.attributes n with
  | Some a =>
      if jsval_truthy (Node.attr_get "href" a)
      then Node.set_attr "href" (resolve_ref defs (Node.attr_get "href" a)) n
      else Node.set_attr "src" (resolve_ref defs (Node.attr_get "src" a)) n
  | None => n
  end.

Definition href_postprocess (ast : list node) : M (list node) :=
  st ← St.get;
  _ ← St.mapM (λ a, St.update a (resolve_link (href_defs st))) (links st);
  mret ast.

Definition href_def : bparser :=
  BParser "href_def" (Some reset_hrefs)
    (λ _ _ lines,
       match lines with
       | [] => no_line
       | l :: rest =>
           match href_re l with
           | Some (prefix, note) =>
               _ ← St.set_href_def note (drop (len prefix) l);
               mret (Some (Node.void "omit"), rest)
           | None => mret (None, lines)
           end
       end)
    (Some (λ _ _ ast, href_postprocess ast)).

(** *** Raw HTML: [/^<(script|head|!--|!doctype)/i] *)

Definition html_groups_re (line : string) : option string :=
  let l := toLowerCase line in
  if startsWith "<script" l then Some "<script"
  else if startsWith "<head" l then Some "<head"
  else if startsWith "<!--" l then Some "<!--"
  else if startsWith "<!doctype" l then Some "<!doctype"
  else None.

Definition close_tag (prefix : string) : string :=
  if String.eqb prefix "<!--" then "-->"
  else if String.eqb prefix "<!doctype" then ">"
  else "</" +:+ drop 1 prefix +:+ ">".

Definition html_groups : bparser :=
  BParser "html_groups" None
    (λ _ _ lines,
       match lines with
       | [] => no_line
       | l :: _ =>
           match html_groups_re l with
           | Some prefix =>
               let '(g, rest) :=
                 grablines (λ line, negb (contains (close_tag prefix) line)) lines in
               mret (Some (Node.elem "verbatim" (map (λ c, Raw (Some c)) g ++ [Raw (head rest)])),
                     tail rest)
           | None => mret (None, lines)
           end
       end)
    None.

(** [/^<\/?[^>]*>$/] *)
Definition html_tags_re (line : string) : bool :=
  match line with
  | String "<" r => S (span (λ c, negb (Ascii.eqb c ">")) r) =? len r
  | _ => false
  end.

Definition html_tags : bparser :=
  BParser "html_tags" None
    (λ _ _ lines,
       match lines with
       | l :: rest =>
           if html_tags_re l
           then mret (Some (Node.elem "verbatim" [Raw (Some l)]), rest)
           else mret (None, lines)
       | [] => mret (None, lines)
       end)
    None.

(** *** Tables *)

(** [/^ *:?-+:? *$/] *)
Definition marker_cell (c : string) : bool :=
  let r := drop (count_leading space c) c in
  let r := match r with String ":" r' => r' | _ => r end in
  let n := count_leading "-" r in
  let r := drop n r in
  let r := match r with String ":" r' => r' | _ => r end in
  (1 <=? n) && (count_leading space r =? len r).

(** [c.match(/^ *:-+/)] *)
Definition left_marker (c : string) : bool :=
  startsWith ":-" (drop (count_leading space c) c).

(** [c.match(/-+: *$/)] *)
Definition right_marker (c : string) : bool :=
  endsWith "-:" (drop_right (count_leading space (String.rev c)) c).

Definition alignment_of (c : string) : string :=
  if left_marker c && right_marker c then "center"
  else if left_marker c then "left"
  else if right_marker c then "right"
  else EmptyString.

(** What [row] returns: nothing, an alignment array or a [tr] node. *)
Inductive row_result : Type :=
| NoRow
| Alignment (a : list string)
| Row (tr : node).

(** [line.split('|').slice(1, -1)] *)
Definition columns (line : string) : list string :=
  removelast (tail (split "|" line)).

(** [row(line, parse_inline, number)] *)
Definition row (parse_inline : Inline.parse_inline_t) (line : option string)
    (number : nat) : M row_result :=
  match line with
  | Some line =>
      if startsWith "|" line then
        let cols := columns line in
        if (number <=? 2)
           && forallb (λ c, negb (String.eqb c EmptyString) && marker_cell c) cols
        then mret (Alignment (map alignment_of cols))
        else
          cells ← St.mapM (λ c, children ← inline_text parse_inline c;
                                mret (Node.elem "td" children)) cols;
          mret (Row (Node.elem "tr" cells))
      else mret NoRow
  | None => mret NoRow
  end.

(** The loop of the table parser: the data rows, the last alignment row
    ([None] while the variable is undefined), its number, and the lines
    left. *)
Fixpoint rows_loop (parse_inline : Inline.parse_inline_t) (lines : list string)
    (rowcount : nat) (rows : list node) (alignment : option (list string))
    (alignedrow : option nat)
    : M (list node * option (list string) * option nat * list string) :=
  match lines with
  | [] => mret (rows, alignment, alignedrow, lines)
  | l :: lines' =>
      r ← row parse_inline (Some l) (S rowcount);
      match r with
      | NoRow => mret (rows, alignment, alignedrow, lines)
      | Alignment a =>
          rows_loop parse_inline lines' (S rowcount) rows (Some a) (Some (S rowcount))
      | Row tr =>
          rows_loop parse_inline lines' (S rowcount) (rows ++ [tr]) alignment alignedrow
      end
  end.

(** [row.children[i].attributes = { style }] for every column [i] that
    has an alignment and a cell. *)
Fixpoint align_cells (alignment : list string) (cells : list node) : list node :=
  match alignment, cells with
  | a :: alignment', c :: cells' =>
      (if String.eqb a EmptyString then c
       else Node.set_attributes [("style", VStr ("text-align:" +:+ a))] c)
      :: align_cells alignment' cells'
  | _, _ => cells
  end.

Definition align_row (alignment : list string) (tr : node) : node :=
  match Node.children tr with
  | Some cells => Node.set_children (align_cells alignment cells) tr
  | None => tr
  end.

(** [for (let c of rows[0].children) c.name = 'th'] *)
Definition to_header (tr : node) : node :=
  match Node.children tr with
  | Some cells => Node.set_children (map (Node.set_name "th") cells) tr
  | None => tr
  end.

Definition table : bparser :=
  BParser "table" None
    (λ _ parse_inline lines,
       '(rows, alignment, alignedrow, rest) ←
         rows_loop parse_inline lines 0 [] None None;
       match rows with
       | [] => mret (None, rest)
       | _ =>
           match alignment with
           | None => St.throw (TypeError "alignment is undefined")
           | Some [] =>
               mret (Some (Node.elem "table" [Node.elem "tbody" rows]), rest)
           | Some a =>
               let rows := map (align_row a) rows in
               let rows :=
                 match rows with
                 | r0 :: rs =>
                     (if bool_decide (alignedrow = Some 2) then to_header r0 else r0) :: rs
                 | [] => rows
                 end in
               mret (Some (Node.elem "table"
                             [Node.elem "thead" (firstn 1 rows);
                              Node.elem "tbody" (skipn 1 rows)]),
                     rest)
           end
       end)
    None.

(** *** The registry *)

Definition builtin : list bparser :=
  [ header; blockquote; indented_codeblock; fenced_codeblock;
    unordered_list; ordered_list; horizontal_rule; footnote_def;
    href_def; html_groups; html_tags; table ].

(** [blockparsers] once the script is loaded: the collection and its
    array. *)
Definition registry : outcome (ParserCollection.t bparser) :=
  ParserCollection.add_all builtin ParserCollection.empty.

Definition blockparsers : list bparser :=
  match registry with
  | Ret c => ParserCollection.items c
  | _ => []
  end.

End Block.

(** ** The block engine *)

Module Engine.
Import Js Lines Block.

(** [for (let bp of blockparsers)]: the first parser that returns a node
    ends the loop; every parser is given the array as the ones before
    left it. *)
Fixpoint try_parsers (parse_blocks : parse_blocks_t)
    (parse_inline : Inline.parse_inline_t) (bps : list bparser)
    (lines : list string) : M (option node * list string) :=
  match bps with
  | [] => mret (None, lines)
  | bp :: bps' =>
      '(r, lines') ← bp_parse bp parse_blocks parse_inline lines;
      match r with
      | Some n => mret (Some n, lines')
      | None => try_parsers parse_blocks parse_inline bps' lines'
      end
  end.

(** [push_text(name)]: the input lines, the accumulated text and the
    tree, before and after. *)
Definition push_text (parse_inline : Inline.parse_inline_t) (name : string)
    (lines text : list string) (ast : list node)
    : M (list string * list string * list node) :=
  let is_p := String.eqb name "p" in
  let '(lines, text) :=
    if is_p then
      match last text with
      | Some blank => (blank :: lines, removelast text)
      | None => (lines, text)
      end
    else (lines, text) in
  match text with
  | [] => mret (lines, text, ast)
  | _ =>
      children ← inline_text parse_inline (join (str nl) text);
      if is_p then mret (lines, [], ast ++ [Node.elem name children])
      else mret (lines, [], ast ++ children)
  end.

(** The loop of [parse_blocks]. An [undefined] pushed on [text] (the
    array was emptied by a parser that returned no node) is kept as the
    empty string, which is what [join] makes of it. *)
Fixpoint run (fuel : nat) (lines text : list string) (ast : list node)
    : M (list node) :=
  match fuel with
  | 0 => St.out_of_fuel
  | S fuel' =>
      let parse_inline := Inline.parse_inline fuel' in
      match lines with
      | [] =>
          match text with
          | [] => mret ast
          | _ =>
              '(_, _, ast) ← push_text parse_inline "textblock" lines text ast;
              mret ast
          end
      | _ =>
          '(r, lines) ←
            try_parsers (λ ls, run fuel' ls [] []) parse_inline blockparsers lines;
          match r with
          | Some n =>
              if bool_decide (Node.name n = Some "omit") then run fuel' lines text ast
              else
                '(lines, text, ast) ← push_text parse_inline "textblock" lines text ast;
                run fuel' lines text (ast ++ [n])
          | None =>
              match lines with
              | [] => run fuel' [] (text ++ [EmptyString]) ast
              | l :: rest =>
                  if blankline l then
                    match text with
                    | [] => run fuel' rest text (ast ++ [Node.text l])
                    | _ =>
                        '(lines, text, ast) ←
                          push_text parse_inline "p" rest (text ++ [l]) ast;
                        run fuel' lines text ast
                    end
                  else run fuel' rest (text ++ [l]) ast
              end
          end
      end
  end.

(** [parse_blocks(lines)] *)
Definition parse_blocks (fuel : nat) : parse_blocks_t :=
  λ lines, run fuel lines [] [].

End Engine.

(** ** Reading the tree through the heap *)

Module Heap.

(** A member of a tree with every address replaced by the object [h]
    holds there. *)
Fixpoint subst (h : list node) (n : node) : node :=
  match n with
  | Obj nm a cs t ty k => Obj nm a (option_map (map (subst h)) cs) t ty k
  | Ref a => default n (h !! a)
  | Raw _ => n
  | Arr l => Arr (map (subst h) l)
  end.

(** The objects of the heap as trees. An object is allocated after the
    objects its children refer to, so one pass in allocation order is
    enough. *)
Definition resolve_heap (h : list node) : list node :=
  foldl (λ acc o, acc ++ [subst acc o]) [] h.

(** The tree a printer walks. *)
Definition resolve (h : list node) (ast : list node) : list node :=
  map (subst (resolve_heap h)) ast.

End Heap.

(** ** The HTML printer *)

Module Printer.
Import Js.

(** [attributes(attr)] *)
Definition attributes (attr : option attrs) : string :=
  match attr with
  | None => EmptyString
  | Some a =>
      " " +:+ join " " (map (λ '(name, v),
                               name +:+ "=" +:+ str quote +:+ jsval_to_string v +:+ str quote) a)
  end.

(** [html_escape(s)] *)
Fixpoint html_escape (s : string) : string :=
  match s with
  | EmptyString => EmptyString
  | String c s' =>
      (if Ascii.eqb c ">" then "&gt;"
       else if Ascii.eqb c "&" then "&amp;"
       else if Ascii.eqb c "<" then "&lt;"
       else str c) +:+ html_escape s'
  end.

(** [s.split('\n').map((t) => indent + t).join('\n')] *)
Definition indent_lines (indent : string) (s : string) : string :=
  join (str nl) (map (λ t, indent +:+ t) (split nl s)).

(** The entries of [printers]. *)
Inductive printer : Type :=
| PText | PBlock | PCodeblock | PHr | PVerbatim | POmit | PImg | PCode.

(** [printers[name]]. The names the parsers give to nodes are not names
    that an object literal inherits. *)
Definition printers (name : string) : option printer :=
  if String.eqb name "text" then Some PText
  else if bool_decide (name ∈ ["h1"; "h2"; "h3"; "h4"; "h5"; "h6"; "p"]) then Some PBlock
  else if String.eqb name "codeblock" then Some PCodeblock
  else if String.eqb name "hr" then Some PHr
  else if String.eqb name "verbatim" then Some PVerbatim
  else if String.eqb name "omit" then Some POmit
  else if String.eqb name "img" then Some PImg
  else if String.eqb name "code" then Some PCode
  else None.

Definition concat_map {A : Type} (f : A → outcome string) : list A → outcome string :=
  fix go l :=
    match l with
    | [] => Ret EmptyString
    | x :: l' => a ← f x; b ← go l'; Ret (a +:+ b)
    end.

(** String conversion of a member of a children array, as [join]
    performs it. *)
Fixpoint to_string (n : node) : string :=
  match n with
  | Raw (Some s) => s
  | Raw None => EmptyString
  | Arr l => join "," (map to_string l)
  | _ => "[object Object]"
  end.

(** [html_escape(c.text)] for a child [c]. *)
Definition escaped_text (c : node) : outcome string :=
  match c with
  | Obj _ _ _ (Some t) _ _ => Ret (html_escape t)
  | _ => Throw (TypeError "html_escape(undefined)")
  end.

Definition mapM_outcome {A B : Type} (f : A → outcome B) : list A → outcome (list B) :=
  fix go l :=
    match l with
    | [] => Ret []
    | x :: l' => y ← f x; ys ← go l'; Ret (y :: ys)
    end.

(** The tag printers. [inlined_children] is [inlined(ast.children, ·)]. *)
Definition run_printer (p : printer) (inlined_children : string → outcome string)
    (ast : node) (indent : string) : outcome string :=
  match ast with
  | Obj name a cs t ty _ =>
      match p with
      | PText =>
          match t with
          | Some t =>
              let text := indent_lines indent t in
              Ret (if negb (endsWith (str nl) text) && negb (bool_decide (ty = Some "inline"))
                   then text +:+ str nl else text)
          | None => Throw (TypeError "ast.text is undefined")
          end
      | PBlock =>
          body ← inlined_children (indent +:+ "    ");
          Ret (indent +:+ "<" +:+ name +:+ attributes a +:+ ">" +:+ str nl
               +:+ body +:+ str nl
               +:+ indent +:+ "</" +:+ name +:+ ">" +:+ str nl)
      | PCodeblock =>
          match cs with
          | Some cs =>
              ls ← mapM_outcome escaped_text cs;
              Ret (indent +:+ "<pre> <code" +:+ attributes a +:+ ">" +:+ str nl
                   +:+ join (str nl) ls +:+ str nl
                   +:+ indent +:+ "</code> </pre>" +:+ str nl)
          | None => Throw (TypeError "ast.children is undefined")
          end
      | PHr => Ret (indent +:+ "<hr>" +:+ str nl)
      | PVerbatim =>
          match cs with
          | Some cs => Ret (join (str nl) (map to_string cs) +:+ str nl)
          | None => Throw (TypeError "ast.children is undefined")
          end
      | POmit => Ret EmptyString
      | PImg => Ret ("<" +:+ name +:+ attributes a +:+ ">")
      | PCode =>
          match cs with
          | Some cs =>
              ls ← mapM_outcome escaped_text cs;
              Ret (indent +:+ "<code" +:+ attributes a +:+ ">"
                   +:+ join EmptyString ls +:+ "</code>")
          | None => Throw (TypeError "ast.children is undefined")
          end
      end
  | _ => Throw (TypeError "not a node")
  end.

(** [inlined(ast, indent)]. The tree has no [Ref]: it was read through
    the heap. *)
Fixpoint inlined (indent : string) (ast : node) : outcome string :=
  match ast with
  | Arr l =>
      outstr ← concat_map (inlined EmptyString) l;
      Ret (if String.eqb indent EmptyString then outstr else indent_lines indent outstr)
  | Obj name a cs _ _ _ =>
      let inlined_children ind :=
        match cs with
        | Some cs =>
            outstr ← concat_map (inlined EmptyString) cs;
            Ret (if String.eqb ind EmptyString then outstr else indent_lines ind outstr)
        | None => Throw (TypeError "inlined(undefined)")
        end in
      match printers name with
      | Some p => run_printer p inlined_children ast indent
      | None =>
          body ← inlined_children EmptyString;
          Ret (indent +:+ "<" +:+ name +:+ attributes a +:+ ">" +:+ body
               +:+ "</" +:+ name +:+ ">")
      end
  | Raw (Some _) =>
      Throw (TypeError "inlined(undefined)")
  | Raw None | Ref _ => Throw (TypeError "ast is undefined")
  end.

(** [inlined(ast.children, indent)] *)
Definition inlined_array (cs : option (list node)) (indent : string) : outcome string :=
  match cs with
  | Some cs => inlined indent (Arr cs)
  | None => Throw (TypeError "inlined(undefined)")
  end.

(** [html_printer(ast, indent)] *)
Fixpoint html_printer (indent : string) (ast : node) : outcome string :=
  match ast with
  | Arr l => concat_map (html_printer indent) l
  | Obj name a cs _ ty _ =>
      if bool_decide (ty = Some "inline") then
        s ← inlined indent ast; Ret (s +:+ str nl)
      else
        match printers name with
        | Some p => run_printer p (inlined_array cs) ast indent
        | None =>
            match cs with
            | Some cs =>
                body ← concat_map (html_printer (indent +:+ "    ")) cs;
                Ret (indent +:+ "<" +:+ name +:+ attributes a +:+ ">" +:+ str nl
                     +:+ body
                     +:+ indent +:+ "</" +:+ name +:+ ">" +:+ str nl)
            | None =>
                Ret (indent +:+ "<" +:+ name +:+ attributes a +:+ ">" +:+ str nl
                     +:+ indent +:+ "</" +:+ name +:+ ">" +:+ str nl)
            end
        end
  | Raw (Some _) =>
      Ret (indent +:+ "<undefined>" +:+ str nl +:+ indent +:+ "</undefined>" +:+ str nl)
  | Raw None | Ref _ => Throw (TypeError "ast is undefined")
  end.

End Printer.

(** ** The top level *)

(** What a printer returns: a string, or something else, here a tree. *)
Inductive printed : Type :=
| PString (s : string)
| PTree (ast : list node).

(** What [scratchmark] returns: what the printer returned, or the config
    object with the string as its [body]. *)
Inductive jsout : Type :=
| OutString (s : string)
| OutTree (ast : list node)
| OutConfig (config : gmap string cfgval).

Definition printer_t : Type := list node → outcome printed.

(** [html_printer] as the default printer. *)
Definition html_printer : printer_t :=
  λ ast, s ← Printer.html_printer EmptyString (Arr ast); Ret (PString s).

(** [(tree) => tree] *)
Definition tree_printer : printer_t := λ ast, Ret (PTree ast).

Module Top.
Import Js Block.

(** The first statements of [scratchmark]: tabs, lines, right trimming
    and line continuations. *)
Definition join_continuations (lines : list string) : list string :=
  match lines with
  | [] => []
  | l :: ls =>
      foldl (λ joined line,
               match last joined with
               | Some p =>
                   if endsWith (str backslash) p
                   then removelast joined ++ [drop_right 1 p +:+ line]
                   else joined ++ [line]
               | None => joined ++ [line]
               end) [l] ls
  end.

Definition normalize (doc : string) : list string :=
  let lines := map trimRight (split_lines (replace_first tab "    " doc)) in
  map trimRight (join_continuations lines).

(** [for (let block of blockparsers) block?.init?.()] *)
Definition init_all : M unit :=
  foldl (λ acc bp, _ ← acc; default (mret tt) (bp_init bp)) (mret tt) blockparsers.

(** [for (let block of blockparsers) block?.postprocess?.(ast, ...)].
    No inline parser has a [postprocess]. *)
Definition postprocess_all (fuel : nat) (ast : list node) : M (list node) :=
  foldl (λ acc bp,
           ast ← acc;
           match bp_postprocess bp with
           | Some post => post (Engine.parse_blocks fuel) (Inline.parse_inline fuel) ast
           | None => mret ast
           end) (mret ast) blockparsers.

(** The tree handed to the printer. *)
Definition parse (fuel : nat) (doc : string) : M (list node) :=
  _ ← init_all;
  ast ← Engine.parse_blocks fuel (normalize doc);
  ast ← postprocess_all fuel ast;
  st ← St.get;
  mret (Heap.resolve (heap st) ast).

(** [scratchmark(lines, printer)] *)
Definition scratchmark (fuel : nat) (doc : string) (printer : option printer_t)
    : M jsout :=
  ast ← parse fuel doc;
  html ← St.lift (default html_printer printer ast);
  st ← St.get;
  match html with
  | PTree t => mret (OutTree t)
  | PString s =>
      if bool_decide (config st = ∅) then mret (OutString s)
      else mret (OutConfig (<["body" := CStr s]> (config st)))
  end.

End Top.

(** * Statements

    The vocabulary of the theorems: the shape of list items, the two
    readings of the dedent, well-formed trees, and the invariant that the
    parsers keep. *)

Module Wf.

(** Whether a field was set. *)
Definition present {A : Type} (o : option A) : bool :=
  match o with Some _ => true | None => false end.

(** A void node: one of the names the parsers give to a node without
    [children] and without [text]. *)
Definition void_name (nm : string) : bool :=
  String.eqb nm "hr" || String.eqb nm "img".

(** Whether every node object of a tree has [children] or [text], the
    void nodes apart. *)
Fixpoint wf (n : node) : bool :=
  match n with
  | Obj nm _ cs t _ _ =>
      (present cs || present t || void_name nm)
      && match cs with Some l => forallb wf l | None => true end
  | Ref _ | Raw _ => true
  | Arr l => forallb wf l
  end.

(** The claim as C5 states it: no exception for void nodes. *)
Fixpoint has_body (n : node) : bool :=
  match n with
  | Obj nm _ cs t _ _ =>
      (present cs || present t)
      && match cs with Some l => forallb has_body l | None => true end
  | Ref _ | Raw _ => true
  | Arr l => forallb has_body l
  end.

End Wf.

Module Hoare.
Import Wf.

Definition heap_wf (st : pstate) : Prop := Forall (λ o, wf o = true) (heap st).

(** [post m Q]: from a state whose heap is well formed, [m] ends in such
    a state with a value that satisfies [Q], if it ends with a value. *)
Definition post {A : Type} (m : M A) (Q : A → Prop) : Prop :=
  ∀ st, heap_wf st →
    match m st with
    | Ret (a, st') => heap_wf st' ∧ Q a
    | _ => True
    end.

Definition wfs (l : list node) : Prop := Forall (λ n, wf n = true) l.

End Hoare.

Module Shape.
Import Js Lines.

(** A line that continues a list item. *)
Definition continues (line : string) : Prop :=
  indented line || blankline line = true.

(** An item as [list_item] returns it. *)
Definition collected (it : item) : Prop :=
  item_prefix it ≠ EmptyString ∧
  ∃ l0 rest, item_lines it = l0 :: rest ∧ Forall continues rest.

Section items.
Context {T : Type} `{EqDecision T}.
Context (regex : string → option string) (style_of : string → T).

(** A list item of style [s], as the loop collects it. *)
Definition item_ok (s : T) (it : item) : Prop :=
  ∃ l0 g, item_lines it = l0 :: g ∧ regex l0 = Some (item_prefix it)
          ∧ style_of (item_prefix it) = s ∧ Forall continues g.

(** The regular expression matches no blank or indented line, and never
    matches the empty string. *)
Definition starts_items : Prop :=
  ∀ l p, regex l = Some p → p ≠ EmptyString ∧ indented l || blankline l = false.

End items.

(** The lines of a run of items. *)
Definition flatten (its : list item) : list string :=
  concat (map item_lines its).

(** A document given by its lines. *)
Definition doc_lines (ls : list string) : string := join (str nl) ls.

End Shape.

Module Amended.
Import Js Lines.

(** The dedent of an item as the amended claim C7 words it: the number of
    spaces taken from the lines after the first is the smaller of the
    marker length and the least indentation of those lines that are not
    blank. *)
Definition indent (prefix : string) (rest : list string) : nat :=
  foldr Nat.min (len prefix)
        (map (count_leading space) (List.filter (λ l, negb (blankline l)) rest)).

Definition dedent_item (it : item) : item :=
  match item_lines it with
  | [] => it
  | l0 :: rest =>
      Item (item_prefix it)
           (drop (len (item_prefix it)) l0
            :: map (strip_spaces (indent (item_prefix it) rest)) rest)
  end.

End Amended.

Module Claimed.
Import Js Lines.

(** The dedent of an item as claim C7 words it: the least indentation of
    the lines after the first that are not blank, 2 when there is none. *)
Definition indent (rest : list string) : nat :=
  match map (count_leading space) (List.filter (λ l, negb (blankline l)) rest) with
  | [] => 2
  | n :: ns => foldr Nat.min n ns
  end.

Definition dedent_item (it : item) : item :=
  match item_lines it with
  | [] => it
  | l0 :: rest =>
      Item (item_prefix it)
           (drop (len (item_prefix it)) l0 :: map (strip_spaces (indent rest)) rest)
  end.

End Claimed.

Module Good.
Import Wf Hoare.

(** [parse_inline] keeps the invariant and returns well-formed nodes. *)
Definition good_pi (pi : Inline.parse_inline_t) : Prop :=
  ∀ t e c, post (pi t e c) (λ r, wfs r.1).

Definition opt_wf (o : option node) : Prop :=
  match o with Some n => wf n = true | None => True end.

Definition good_ip (p : Inline.iparser) : Prop :=
  ∀ pi, good_pi pi → ∀ t c, post (Inline.ip_parse p pi t c) (λ r, opt_wf r.1).

Definition good_pb (pb : Block.parse_blocks_t) : Prop :=
  ∀ ls, post (pb ls) wfs.

(** What a block parser may return: a well-formed node, or the
    placeholder [omit], which the engine never puts in a tree. *)
Definition opt_ok (o : option node) : Prop :=
  match o with
  | Some n => wf n = true ∨ Node.name n = Some "omit"
  | None => True
  end.

Definition good_bp (bp : Block.bparser) : Prop :=
  ∀ pb pi, good_pb pb → good_pi pi →
    ∀ lines, post (Block.bp_parse bp pb pi lines) (λ r, opt_ok r.1).

Definition good_post (bp : Block.bparser) : Prop :=
  ∀ f pb pi ast, Block.bp_postprocess bp = Some f → good_pb pb → good_pi pi → wfs ast →
    post (f pb pi ast) wfs.

(** The cells and rows of a table under construction. *)
Definition is_cell (c : node) : Prop :=
  wf c = true ∧ is_Some (Node.children c).

Definition is_row (r : node) : Prop :=
  ∃ nm a cells t ty k, r = Obj nm a (Some cells) t ty k ∧ Forall is_cell cells.

End Good.

(** ** Inputs and readings used by the statements *)

Module Inputs.
Import Js.

(** A line that a following line does not continue. *)
Definition no_continuation (l : string) : Prop := endsWith (str backslash) l = false.

(** [n] hash signs. *)
Fixpoint hashes (n : nat) : string :=
  match n with
  | 0 => EmptyString
  | S n' => String "#" (hashes n')
  end.

(** [n] spaces. *)
Fixpoint spaces (n : nat) : string :=
  match n with
  | 0 => EmptyString
  | S n' => String " " (spaces n')
  end.

(** Whether [pat] stands at index [j] of [text] with no backslash in
    front of it: what the regular expression of [make_re] matches. *)
Definition unescaped_at (pat text : string) (j : nat) : bool :=
  (j <=? len text) && startsWith pat (drop j text)
  && negb (bool_decide (match j with 0 => None | S j' => at_ j' text end
                        = Some backslash)).

(** A text in which no built-in inline parser can start: none of its
    characters opens a span, a link or a footnote citation. *)
Definition plain (text : string) : bool :=
  negb (existsb (λ c, includes c text) ["*"; "_"; "^"; "~"; "`"; "["]%char).

(** A label of a footnote or of a link reference: letters and digits,
    at least one. *)
Definition alnum (s : string) : bool :=
  (1 <=? len s) && (span is_alnum s =? len s).

(** A footnote citation object as the inline parser leaves it in the
    heap: an [a] node with attributes, a first child, and the label as
    its key. *)
Definition is_cite (o : node) (label : string) : Prop :=
  ∃ a c0 cs ty, o = Obj "a" (Some a) (Some (c0 :: cs)) None ty (Some (VStr label)).

(** The number of distinct labels in a list. *)
Definition distinct (labels : list string) : nat :=
  size (list_to_set labels : gset string).

(** The citation at address [a] of the heap carries the label [l], and
    [l] is no name that an object literal inherits. *)
Definition cited (st : pstate) (a : nat) (l : string) : Prop :=
  Proto.inherited l = false ∧ ∃ o, heap st !! a = Some o ∧ is_cite o l.

(** The counter and the table of the numbering loop once the citations
    of the labels [seen] are numbered. *)
Definition numbered (seen : list string) (i : nat) (m : gmap string nat) : Prop :=
  i = S (distinct seen)
  ∧ (∀ l, is_Some (m !! l) ↔ l ∈ seen)
  ∧ ∀ l n, m !! l = Some n →
      ∃ j, seen !! j = Some l ∧ (l ∉ firstn j seen) ∧ n = S (distinct (firstn j seen)).

(** The distinct labels of a list, in the order of their first
    occurrence. *)
Definition first_cited (labels : list string) : list string :=
  foldl (λ acc l, if bool_decide (l ∈ acc) then acc else acc ++ [l]) [] labels.

(** The counter and the table of the numbering loop when the labels
    numbered so far are [order], in the order of their numbers. *)
Definition tabled (order : list string) (i : nat) (m : gmap string nat) : Prop :=
  i = S (length order) ∧ NoDup order
  ∧ ∀ l n, m !! l = Some n ↔ 1 ≤ n ∧ order !! (n - 1) = Some l.

(** A node that is not the placeholder [omit]. *)
Definition not_omit (n : node) : Prop := Node.name n ≠ Some "omit".

(** An inline parser none of whose nodes is the placeholder. *)
Definition never_omits (p : Inline.iparser) : Prop :=
  ∀ pi text cursor st n c st',
    Inline.ip_parse p pi text cursor st = Ret (Some n, c, st') → not_omit n.

End Inputs.

(** ** Computations that return *)

Module Total.

(** [returns m Q]: from every state, [m] ends with a value that satisfies
    [Q]; it neither throws nor runs out of fuel. *)
Definition returns {A : Type} (m : M A) (Q : A → Prop) : Prop :=
  ∀ st, ∃ a st', m st = Ret (a, st') ∧ Q a.

(** A [parse_inline] that returns, with a cursor that did not go back,
    whenever it is started behind [cursor]. *)
Definition advances (text : string) (cursor : nat) (pi : Inline.parse_inline_t) : Prop :=
  ∀ e c, cursor < c → returns (pi text e c) (λ r, c ≤ r.2).

(** An inline parser that returns when it is called inside the text: with
    a node and the cursor moved forward, or without a node and the cursor
    where it was. *)
Definition progresses (p : Inline.iparser) : Prop :=
  ∀ pi text cursor, cursor < Js.len text → advances text cursor pi →
    returns (Inline.ip_parse p pi text cursor)
            (λ r, match r.1 with Some _ => cursor < r.2 | None => r.2 = cursor end).

(** The weight of an array of lines: its characters, and one for every
    line. *)
Definition weight (lines : list string) : nat :=
  foldr (λ l n, S (Js.len l) + n) 0 lines.

(** [ends_with m Q]: from every state, [m] ends, with a value that
    satisfies [Q] or with an exception; the fuel is not used up. *)
Definition ends_with {A : Type} (m : M A) (Q : A → Prop) : Prop :=
  ∀ st, match m st with
        | Ret (a, _) => Q a
        | Throw _ => True
        | OutOfFuel => False
        end.

(** Engines that have fuel for the inputs below a weight or a length. *)
Definition pb_fueled (k : nat) (pb : Block.parse_blocks_t) : Prop :=
  ∀ ls, weight ls < k → ends_with (pb ls) (λ _, True).

Definition pi_fueled (k : nat) (pi : Inline.parse_inline_t) : Prop :=
  ∀ text e c, Js.len text < k → ends_with (pi text e c) (λ _, True).

(** A block parser that, given engines with fuel for the inputs smaller
    than its lines, ends; that takes at least one line when it returns a
    node; and that adds no line when it declines. *)
Definition consumes (bp : Block.bparser) : Prop :=
  ∀ pb pi lines, pb_fueled (weight lines) pb → pi_fueled (weight lines) pi →
    ends_with (Block.bp_parse bp pb pi lines)
      (λ r, match r.1 with
            | Some _ => weight r.2 < weight lines
            | None => weight r.2 ≤ weight lines
            end).

(** A list item whose first line holds its marker, of two characters or
    more. *)
Definition headed (it : Lines.item) : Prop :=
  ∃ l0 g, Lines.item_lines it = l0 :: g
          ∧ 2 ≤ Js.len (Lines.item_prefix it) ≤ Js.len l0.

End Total.

(** * Facts

    ** The registry *)

(** * Facts about the registry *)

Module RegistryFacts.
Import ParserCollection.

Section facts.
Context {P : Type} `{Named P}.
Implicit Types (c : t P) (p : P) (b : string).

Lemma findIndex_Some b (l : list P) i :
  findIndex b l = Some i →
  (∃ q, l !! i = Some q ∧ name_of q = b) ∧
  ∀ j q, j < i → l !! j = Some q → name_of q ≠ b.
Proof.
  revert i. induction l as [|q l IH]; intros i; simpl; [done|].
  destruct (String.eqb_spec (name_of q) b) as [Heq|Hne].
  - intros [= <-]. split; [by exists q | intros; lia].
  - destruct (findIndex b l) as [i'|] eqn:E; simpl; [|done].
    intros [= <-]. destruct (IH i' eq_refl) as [[q' [Hq Hn]] Hlt].
    split; [by exists q'|].
    intros [|j] q''; simpl; [by intros _ [= <-]|].
    intros Hj. apply Hlt. lia.
Qed.

Lemma findIndex_None b (l : list P) :
  findIndex b l = None ↔ ∀ q, q ∈ l → name_of q ≠ b.
Proof.
  induction l as [|q l IH]; simpl.
  - split; [intros _ q Hq; by apply elem_of_nil in Hq | done].
  - destruct (String.eqb_spec (name_of q) b) as [Heq|Hne].
    + split; [done|]. intros Hall. exfalso. apply (Hall q); [left | done].
    + destruct (findIndex b l) as [i'|] eqn:E; simpl.
      * split; [done|]. intros Hall.
        assert (Some i' = None) as Habs; [|done].
        apply IH. intros q' Hq'. apply Hall. by right.
      * split; [|done]. intros _ q' Hq'.
        apply elem_of_cons in Hq' as [->|Hq']; [done|].
        by apply IH.
Qed.

Lemma truthy_Some (before : option string) b :
  truthy before = Some b ↔ before = Some b ∧ b ≠ EmptyString.
Proof.
  destruct before as [[|a s]|]; simpl; split; try done.
  - by intros [[= <-] ?].
  - intros [= <-]. done.
  - by intros [[= <-] _].
  - by intros [? _].
Qed.

Lemma truthy_None (before : option string) :
  truthy before = None ↔ before = None ∨ before = Some EmptyString.
Proof.
  destruct before as [[|a s]|]; simpl; split; try done; auto.
  - by intros [|].
Qed.

End facts.
End RegistryFacts.

Module RegistryClaims.
Import ParserCollection RegistryFacts.

Section claims.
Context {P : Type} `{Named P}.


End claims.



End RegistryClaims.

(** ** List items *)

Module LinesFacts.
Import Js Lines Shape.

Lemma blankline_spec l : blankline l = true ↔ l = EmptyString.
Proof. unfold blankline. by rewrite String.eqb_eq. Qed.

Lemma indented_count l : indented l = true ↔ 1 ≤ count_leading space l.
Proof.
  unfold indented, space.
  destruct l as [|c l]; cbn [startsWith count_leading]; [split; [done|lia]|].
  destruct (Ascii.eqb_spec " " c) as [<-|Hne]; cbn [andb].
  - split; [lia | by destruct l].
  - split; [done | lia].
Qed.

Lemma grablines_spec p lines g rest :
  grablines p lines = (g, rest) →
  lines = g ++ rest ∧ Forall (λ l, p l = true) g ∧
  match rest with [] => True | l :: _ => p l = false end.
Proof.
  revert g rest. induction lines as [|l lines IH]; intros g rest; simpl.
  - by intros [= <- <-].
  - destruct (p l) eqn:Hp.
    + destruct (grablines p lines) as [g' rest'] eqn:E.
      intros [= <- <-]. destruct (IH _ _ eq_refl) as (-> & Hall & Hrest).
      repeat split; [by constructor | done].
    + intros [= <- <-]. by repeat split.
Qed.

Lemma grablines_app p g rest :
  Forall (λ l, p l = true) g →
  match rest with [] => True | l :: _ => p l = false end →
  grablines p (g ++ rest) = (g, rest).
Proof.
  intros Hall Hrest. induction Hall as [|l g Hl Hall IH]; simpl.
  - destruct rest as [|l rest]; simpl; [done|]. by rewrite Hrest.
  - by rewrite Hl, IH.
Qed.

Lemma foldr_min_le a l : foldr Nat.min a l ≤ a.
Proof. induction l as [|x l IH]; simpl; lia. Qed.

Lemma foldr_min_acc a c l :
  foldr Nat.min (Nat.min a c) l = Nat.min c (foldr Nat.min a l).
Proof. induction l as [|x l IH]; simpl; [lia|]. rewrite IH. lia. Qed.

Lemma foldr_min_elem a l x : x ∈ l → foldr Nat.min a l ≤ x.
Proof.
  induction l as [|y l IH]; simpl; [by intros ?%elem_of_nil|].
  intros [->|Hx]%elem_of_cons; [lia|]. specialize (IH Hx). lia.
Qed.

Lemma min_indent_spec len rest :
  Forall continues rest →
  min_indent len rest
  = Ret (foldr Nat.min len
           (map (count_leading space) (List.filter (λ l, negb (blankline l)) rest))).
Proof.
  intros Hall. revert len.
  induction Hall as [|l rest Hl Hall IH]; intros len; [done|].
  cbn [min_indent List.filter].
  destruct (blankline l) eqn:Hb; cbn [negb map foldr]; [apply IH|].
  unfold continues in Hl. rewrite Hb, orb_false_r in Hl.
  apply indented_count in Hl.
  destruct (count_leading space l) as [|k] eqn:Hk; [lia|].
  by rewrite IH, foldr_min_acc.
Qed.

Lemma indent_pos prefix rest :
  prefix ≠ EmptyString → Forall continues rest → 1 ≤ Amended.indent prefix rest.
Proof.
  intros Hp Hall. unfold Amended.indent.
  induction Hall as [|l rest Hl Hall IH]; simpl.
  - destruct prefix; [done | simpl; lia].
  - destruct (blankline l) eqn:Hb; simpl; [done|].
    unfold continues in Hl. rewrite Hb, orb_false_r in Hl.
    apply indented_count in Hl. lia.
Qed.

Lemma dedent_item_spec it :
  collected it → dedent_item it = Ret (Amended.dedent_item it).
Proof.
  intros (Hp & l0 & rest & Hl & Hall).
  unfold dedent_item, Amended.dedent_item. rewrite Hl.
  rewrite (min_indent_spec _ _ Hall). simpl.
  fold (Amended.indent (item_prefix it) rest).
  pose proof (indent_pos _ _ Hp Hall) as Hpos.
  destruct (Amended.indent (item_prefix it) rest) as [|k]; [lia | done].
Qed.

Lemma dedent_spec items :
  Forall collected items → dedent items = Ret (map Amended.dedent_item items).
Proof.
  induction 1 as [|it items Hit Hall IH]; simpl; [done|].
  by rewrite (dedent_item_spec _ Hit), IH.
Qed.

(** What the amended dedent takes from a line: nothing from a blank line,
    and exactly [indent] spaces from any other. *)
Lemma strip_indent prefix rest l :
  l ∈ rest →
  let m := Amended.indent prefix rest in
  if blankline l then strip_spaces m l = l
  else m ≤ count_leading space l ∧ strip_spaces m l = drop m l.
Proof.
  intros Hl m. destruct (blankline l) eqn:Hb.
  - apply blankline_spec in Hb as ->. unfold strip_spaces. simpl.
    by rewrite Nat.min_0_r.
  - assert (m ≤ count_leading space l) as Hle.
    { unfold m, Amended.indent. apply foldr_min_elem.
      apply list_elem_of_fmap. exists l. split; [done|].
      apply list_elem_of_In, filter_In. split; [by apply list_elem_of_In|].
      by rewrite Hb. }
    split; [done|]. unfold strip_spaces. by rewrite Nat.min_l.
Qed.

End LinesFacts.

Module CollectFacts.
Import Js Lines Shape LinesFacts.

Section collect.
Context {T : Type} `{EqDecision T}.
Context (regex : string → option string) (style_of : string → T).
Local Abbreviation item_ok := (Shape.item_ok regex style_of).
Local Abbreviation starts_items := (Shape.starts_items regex).

Lemma list_item_Some chk lines it rest :
  list_item regex chk lines = Some (it, rest) →
  ∃ l0 g, lines = l0 :: g ++ rest ∧ it = Item (item_prefix it) (l0 :: g)
          ∧ regex l0 = Some (item_prefix it) ∧ item_prefix it ≠ EmptyString
          ∧ chk (item_prefix it) = true ∧ Forall continues g.
Proof.
  unfold list_item. destruct lines as [|l0 lines]; [done|].
  destruct (regex l0) as [p|] eqn:Hre; [|done].
  destruct (negb (String.eqb p EmptyString)) eqn:Hne; [|done].
  destruct (chk p) eqn:Hchk; [|done]. cbn [andb].
  destruct (grablines _ lines) as [g rest'] eqn:Hg.
  intros [= <- <-]. apply grablines_spec in Hg as (-> & Hall & _).
  exists l0, g. repeat split; try done.
  apply negb_true_iff, String.eqb_neq in Hne. done.
Qed.

Lemma collect_collected n style lines its st rest :
  collect n regex style_of style lines = (its, st, rest) → Forall collected its.
Proof.
  revert style lines its st rest.
  induction n as [|n IH]; intros style lines its st rest; cbn [collect].
  - by intros [= <- <- <-].
  - destruct (list_item _ _ lines) as [[it rest1]|] eqn:Hit.
    + destruct (collect n _ _ _ rest1) as [[its' st'] rest'] eqn:Hc.
      intros [= <- <- <-]. constructor; [|by eapply IH].
      apply list_item_Some in Hit as (l0 & g & _ & Hit & _ & Hne & _ & Hg).
      split; [done|]. exists l0, g. by rewrite Hit.
    + by intros [= <- <- <-].
Qed.

Lemma collect_style n s lines its st rest :
  collect n regex style_of (Some s) lines = (its, st, rest) → st = Some s.
Proof.
  revert lines its st rest.
  induction n as [|n IH]; intros lines its st rest; cbn [collect].
  - by intros [= <- <- <-].
  - destruct (list_item _ _ lines) as [[it rest1]|] eqn:Hit.
    + destruct (collect n _ _ _ rest1) as [[its' st'] rest'] eqn:Hc.
      intros [= <- <- <-]. by eapply IH.
    + by intros [= <- <- <-].
Qed.

(** The first item decides the style of the list. *)
Lemma collect_first n lines it its st rest :
  collect n regex style_of None lines = (it :: its, st, rest) →
  ∃ l0 ls, lines = l0 :: ls ∧ regex l0 = Some (item_prefix it)
           ∧ st = Some (style_of (item_prefix it)).
Proof.
  destruct n as [|n]; cbn [collect]; [done|].
  destruct (list_item _ _ lines) as [[it' rest1]|] eqn:Hit; [|done].
  destruct (collect n _ _ _ rest1) as [[its' st'] rest'] eqn:Hc.
  intros [= -> -> -> ->].
  apply list_item_Some in Hit as (l0 & g & -> & _ & Hre & _).
  apply collect_style in Hc. by exists l0, (g ++ rest1).
Qed.

(** The loop takes a run of items of one style and stops in front of a
    line that starts an item of another style. *)
Lemma collect_run (Hre : starts_items) n s its l' p' rest :
  Forall (item_ok s) its → length its ≤ n →
  regex l' = Some p' → style_of p' ≠ s →
  collect n regex style_of (Some s) (flatten its ++ l' :: rest)
  = (its, Some s, l' :: rest).
Proof.
  intros Hits Hn Hl' Hp'. revert n Hn.
  induction Hits as [|it its Hit Hits IH]; intros n Hn.
  - destruct n as [|n]; cbn [collect flatten map concat app]; [done|].
    unfold list_item. rewrite Hl'.
    destruct (Hre _ _ Hl') as [Hne _].
    apply String.eqb_neq in Hne. rewrite Hne. cbn [negb andb].
    by rewrite bool_decide_false.
  - destruct n as [|n]; [simpl in Hn; lia|].
    destruct Hit as (l0 & g & Hlines & Hl0 & Hs & Hg).
    cbn [collect flatten map concat]. rewrite Hlines.
    rewrite <- List.app_assoc. cbn [app]. unfold list_item. rewrite Hl0.
    destruct (Hre _ _ Hl0) as [Hne _].
    apply String.eqb_neq in Hne. rewrite Hne. cbn [negb andb].
    rewrite bool_decide_true by done.
    rewrite (grablines_app _ g (concat (map item_lines its) ++ l' :: rest)); [|done|].
    + fold (flatten its). cbn [default from_option item_prefix id].
      rewrite (IH n) by (simpl in Hn; lia).
      destruct it as [p ls]. simpl in *. by subst.
    + destruct Hits as [|it2 its2 Hit2 _]; cbn [map concat app].
      * by destruct (Hre _ _ Hl') as [_ ?].
      * destruct Hit2 as (l2 & g2 & Hl2 & Hr2 & _). rewrite Hl2. cbn [app].
        by destruct (Hre _ _ Hr2) as [_ ?].
Qed.

Lemma collect_run_first (Hre : starts_items) n s it its l' p' rest :
  Forall (item_ok s) (it :: its) → length (it :: its) ≤ n →
  regex l' = Some p' → style_of p' ≠ s →
  collect n regex style_of None (flatten (it :: its) ++ l' :: rest)
  = (it :: its, Some s, l' :: rest).
Proof.
  intros Hits Hn Hl' Hp'.
  destruct n as [|n]; [simpl in Hn; lia|].
  inversion Hits as [|? ? Hit Hits']; subst.
  destruct Hit as (l0 & g & Hlines & Hl0 & Hs & Hg).
  cbn [collect flatten map concat]. rewrite Hlines.
  rewrite <- List.app_assoc. cbn [app]. unfold list_item. rewrite Hl0.
  destruct (Hre _ _ Hl0) as [Hne _].
  apply String.eqb_neq in Hne. rewrite Hne. cbn [negb andb].
  rewrite (grablines_app _ g (concat (map item_lines its) ++ l' :: rest)); [|done|].
  - fold (flatten its). cbn [default from_option item_prefix id]. rewrite Hs.
    rewrite (collect_run Hre n s its l' p' rest) by (done || simpl in Hn; lia).
    destruct it as [p ls]. simpl in *. by subst.
  - destruct Hits' as [|it2 its2 Hit2 _]; cbn [map concat app].
    + by destruct (Hre _ _ Hl') as [_ ?].
    + destruct Hit2 as (l2 & g2 & Hl2 & Hr2 & _). rewrite Hl2. cbn [app].
      by destruct (Hre _ _ Hr2) as [_ ?].
Qed.

(** A line that starts an item is taken by a loop that has no style
    yet. *)
Lemma collect_head (Hre : starts_items) n l' p' rest :
  regex l' = Some p' →
  ∃ g its rest2,
    collect (S n) regex style_of None (l' :: rest)
    = (Item p' (l' :: g) :: its, Some (style_of p'), rest2).
Proof.
  intros Hl'. cbn [collect]. unfold list_item. rewrite Hl'.
  destruct (Hre _ _ Hl') as [Hne _].
  apply String.eqb_neq in Hne. rewrite Hne. cbn [negb andb].
  destruct (grablines _ rest) as [g rest1].
  cbn [default from_option item_prefix id].
  destruct (collect n _ _ _ rest1) as [[its st] rest2] eqn:Hc.
  apply collect_style in Hc as ->. by exists g, its, rest2.
Qed.

Lemma flatten_length s its :
  Forall (item_ok s) its → length its ≤ length (flatten its).
Proof.
  induction 1 as [|it its (l0 & g & Hl & _) _ IH]; [done|].
  unfold flatten in *. cbn [map concat]. rewrite Hl, length_app. simpl. lia.
Qed.

End collect.
End CollectFacts.

Module ListFacts.
Import Js Lines Block Shape LinesFacts CollectFacts.

(** Reductions of the monad. *)
Lemma bind_ret {A B : Type} (a : A) (f : A → M B) st :
  (mret a ≫= f) st = f a st.
Proof. done. Qed.

Lemma bind_lift_ret {A B : Type} (a : A) (f : A → M B) st :
  (St.lift (Ret a) ≫= f) st = f a st.
Proof. done. Qed.

Lemma bind_Ret {A B : Type} (m : M A) (f : A → M B) st b st' :
  (m ≫= f) st = Ret (b, st') →
  ∃ a st1, m st = Ret (a, st1) ∧ f a st1 = Ret (b, st').
Proof.
  unfold mbind, M_bind. destruct (m st) as [[a st1]| |]; [|done..].
  intros Hf. by exists a, st1.
Qed.

Lemma mapM_length {A B : Type} (f : A → M B) l st ys st' :
  St.mapM f l st = Ret (ys, st') → length ys = length l.
Proof.
  revert st ys st'. induction l as [|x l IH]; intros st ys st'; cbn [St.mapM].
  - unfold mret, M_ret. intros [= <- _]. reflexivity.
  - intros (y & st1 & _ & H)%bind_Ret.
    apply bind_Ret in H as (ys' & st2 & Hys & H).
    unfold mret, M_ret in H. injection H as <- _.
    simpl. f_equal. by eapply IH.
Qed.

(** *** The two regular expressions start items *)

Lemma unordered_re_Some l p :
  unordered_re l = Some p →
  ∃ c r, l = String c (String " " r) ∧ p = String c " "
         ∧ (c = "*" ∨ c = "+" ∨ c = "-")%char.
Proof.
  unfold unordered_re. destruct l as [|c [|d r]]; [done | done |].
  destruct (includes c "+*-") eqn:Hc; [|done].
  destruct (Ascii.eqb_spec d " ") as [->|Hd]; [|done].
  intros [= <-]. exists c, r. split; [done|]. split; [done|].
  cbn [includes] in Hc.
  destruct (Ascii.eqb_spec c "+") as [->|_]; [auto|].
  destruct (Ascii.eqb_spec c "*") as [->|_]; [auto|].
  destruct (Ascii.eqb_spec c "-") as [->|_]; [auto|]. done.
Qed.

Lemma unordered_starts_items : starts_items unordered_re.
Proof.
  intros l p (c & r & -> & -> & Hc)%unordered_re_Some. split; [done|].
  by destruct Hc as [->|[->| ->]].
Qed.

Lemma run_then_close_starts (p : ascii → bool) l pre :
  p " "%char = false →
  run_then_close p l = Some pre →
  pre ≠ EmptyString ∧ indented l || blankline l = false.
Proof.
  intros Hp. unfold run_then_close.
  destruct (1 <=? span p l) eqn:Hn; [|done].
  apply Nat.leb_le in Hn.
  destruct l as [|c l]; [simpl in Hn; lia|].
  match goal with |- context [if ?b then _ else _] => destruct b end; [|done].
  intros [= <-]. rewrite Nat.add_comm. split; [done|].
  cbn [span] in Hn. destruct (p c) eqn:Hc; [|lia].
  unfold indented, blankline. cbn [startsWith].
  destruct (Ascii.eqb_spec " " c) as [<-|_]; [congruence | done].
Qed.

Lemma ordered_starts_items : starts_items ordered_re.
Proof.
  intros l p. unfold ordered_re.
  destruct (run_then_close is_digit l) as [q|] eqn:Hd.
  - intros [= <-]. by apply (run_then_close_starts is_digit).
  - assert (∀ q, run_then_close is_roman l = Some q →
              q ≠ EmptyString ∧ indented l || blankline l = false) as Hr.
    { intros q. by apply (run_then_close_starts is_roman). }
    destruct l as [|c [|d [|e r]]]; try apply Hr.
    destruct (is_alpha c && _ && _) eqn:Hc; [|apply Hr].
    intros [= <-]. split; [done|].
    apply andb_true_iff in Hc as [Hc _]. apply andb_true_iff in Hc as [Hc _].
    unfold indented, blankline. cbn [startsWith].
    destruct (Ascii.eqb_spec " " c) as [<-|_]; [done | done].
Qed.

(** *** deblank *)

Lemma split_trailing_blanks_spec l kept blanks :
  split_trailing_blanks l = (kept, blanks) →
  l = kept ++ blanks ∧ Forall (λ x, blankline x = true) blanks.
Proof.
  revert kept blanks. induction l as [|x l IH]; intros kept blanks; cbn [split_trailing_blanks].
  - by intros [= <- <-].
  - destruct (split_trailing_blanks l) as [k b] eqn:E.
    destruct (IH _ _ eq_refl) as [-> Hb].
    destruct k as [|y k].
    + destruct (blankline x) eqn:Hx; intros [= <- <-]; by repeat constructor.
    + by intros [= <- <-].
Qed.

Lemma split_trailing_blanks_head x l kept blanks :
  blankline x = false →
  split_trailing_blanks (x :: l) = (kept, blanks) →
  ∃ kept', kept = x :: kept'.
Proof.
  intros Hx. cbn [split_trailing_blanks].
  destruct (split_trailing_blanks l) as [k b].
  destruct k as [|y k]; [rewrite Hx|]; intros [= <- <-]; eauto.
Qed.

Section finish.
Context {T : Type} `{EqDecision T}.
Context (regex : string → option string) (style_of : string → T).
Context (Hre : starts_items regex).

Lemma item_ok_collected s it : item_ok regex style_of s it → collected it.
Proof.
  intros (l0 & g & Hl & Hr & _ & Hg). split; [|by exists l0, g].
  by destruct (Hre _ _ Hr).
Qed.

Lemma deblank_spec s its tail its' lines' :
  Forall (item_ok regex style_of s) its →
  deblank its tail = (its', lines') →
  Forall collected its' ∧ length its' = length its
  ∧ ∃ blanks, lines' = blanks ++ tail ∧ Forall (λ x, blankline x = true) blanks.
Proof.
  intros Hits. unfold deblank.
  assert (Forall collected its) as Hc.
  { eapply Forall_impl; [done|]. intros it. apply item_ok_collected. }
  destruct its as [|it1 [|it2 its]].
  - intros [= <- <-]. split; [done|]. split; [done|]. by exists [].
  - intros [= <- <-]. split; [done|]. split; [done|]. by exists [].
  - change (deblank (it1 :: it2 :: its) tail)
      with (match last (it1 :: it2 :: its) with
            | Some it =>
                let '(kept, blanks) := split_trailing_blanks (item_lines it) in
                (removelast (it1 :: it2 :: its) ++ [Item (item_prefix it) kept],
                 blanks ++ tail)
            | None => (it1 :: it2 :: its, tail)
            end).
    remember (it1 :: it2 :: its) as l eqn:El. clear El.
    destruct (last l) as [it|] eqn:Hlast.
    2:{ intros [= <- <-]. split; [done|]. split; [done|]. by exists []. }
    destruct (split_trailing_blanks (item_lines it)) as [kept blanks] eqn:Hs.
    intros [= <- <-].
    apply last_Some in Hlast as [init ->].
    rewrite removelast_last.
    apply Forall_app in Hits as [_ Hit]. apply Forall_app in Hc as [Hc _].
    apply Forall_inv in Hit. destruct Hit as (l0 & g & Hl & Hr & _ & Hg).
    rewrite Hl in Hs.
    destruct (Hre _ _ Hr) as [Hne Hcont]. apply orb_false_iff in Hcont as [_ Hb].
    destruct (split_trailing_blanks_head _ _ _ _ Hb Hs) as [kept' ->].
    apply split_trailing_blanks_spec in Hs as [Hs Hbl].
    split; [|split].
    + apply Forall_app. split; [done|]. constructor; [|done].
      split; [done|]. exists l0, kept'. split; [done|].
      injection Hs as ->. by apply Forall_app in Hg as [? _].
    + by rewrite !length_app.
    + by exists blanks.
Qed.

Lemma checkloose_length its : length (checkloose its) = length its.
Proof. unfold checkloose. destruct (existsb _ its); [by rewrite length_map | done]. Qed.

(** After the loop: as many list items as items collected, and the
    lines left are the ones in front of which the loop stopped, behind the
    blank lines given back. *)
Lemma finish_list_run pb s its tail mk st :
  Forall (item_ok regex style_of s) its →
  ∃ bodies blanks,
    length bodies = length its ∧ Forall (λ x, blankline x = true) blanks ∧
    finish_list pb its tail mk st
    = (children ← St.mapM pb bodies;
       mret (Some (mk (map (Node.elem "li") children)), blanks ++ tail)) st.
Proof.
  intros Hits. unfold finish_list.
  destruct (deblank its tail) as [its' lines'] eqn:Hd.
  destruct (deblank_spec _ _ _ _ _ Hits Hd) as (Hc & Hlen & blanks & -> & Hb).
  exists (map item_lines (checkloose (map Amended.dedent_item its'))), blanks.
  split; [|split; [done|]].
  - by rewrite length_map, checkloose_length, length_map.
  - by rewrite (dedent_spec _ Hc), bind_lift_ret.
Qed.

End finish.

Lemma finish_list_Ret pb its lines mk st r lines' st' :
  finish_list pb its lines mk st = Ret (r, lines', st') →
  ∃ children, r = Some (mk (map (Node.elem "li") children)).
Proof.
  unfold finish_list. destruct (deblank its lines) as [its1 lines1].
  intros (its2 & st1 & _ & H)%bind_Ret.
  apply bind_Ret in H as (children & st2 & _ & H).
  unfold mret, M_ret in H. injection H as <- _ _.
  by exists children.
Qed.

End ListFacts.

Module ListClaims.
Import Js Lines Block Shape LinesFacts CollectFacts ListFacts.

(** C7 (amended). For every list of items as the list parsers collect
    them, [dedent] takes the marker from the first line of each item and,
    from every later line, a number of leading spaces equal to the smaller
    of the marker length and the least indentation of the later lines that
    are not blank: exactly that many from such a line, none from a blank
    one. *)
Theorem dedent_amended (items : list item) :
  Forall collected items →
  dedent items = Ret (map Amended.dedent_item items)
  ∧ Forall (λ it, ∀ l0 rest, item_lines it = l0 :: rest →
              let m := Amended.indent (item_prefix it) rest in
              1 ≤ m ∧ m ≤ len (item_prefix it)
              ∧ Forall (λ l, if blankline l then strip_spaces m l = l
                             else m ≤ count_leading space l
                                  ∧ strip_spaces m l = drop m l) rest) items.
Proof.
  intros Hall. split; [by apply dedent_spec|].
  eapply Forall_impl; [exact Hall|].
  intros it (Hp & l0' & rest' & Hl' & Hcont) l0 rest Hl m.
  rewrite Hl in Hl'. injection Hl' as <- <-.
  split; [by apply indent_pos|]. split; [apply foldr_min_le|].
  apply Forall_forall. intros l Hin. by apply strip_indent.
Qed.

Lemma dedent_amended_witness :
  let it := Item "* " ["* a"; "    b"; ""; "   c"] in
  list_item unordered_re (λ _, true) ["* a"; "    b"; ""; "   c"; "x"] = Some (it, ["x"])
  ∧ dedent [it] = Ret [Item "* " ["a"; "  b"; ""; " c"]].
Proof.
  split; [reflexivity|].
  refine (proj1 (dedent_amended [_] _)).
  constructor; [|constructor]. split; [done|].
  eexists _, _. split; [reflexivity|]. by repeat constructor.
Defined.

(** C7 as stated fails: the marker length caps the number of spaces
    taken. The item below is one that [list_item] returns. *)
Lemma dedent_claimed_fails :
  let it := Item "* " ["* a"; "    b"] in
  list_item unordered_re (λ _, true) ["* a"; "    b"] = Some (it, [])
  ∧ dedent [it] = Ret [Item "* " ["a"; "  b"]]
  ∧ Claimed.dedent_item it = Item "* " ["a"; "b"].
Proof. repeat split. Qed.

(** C10. Every node that the unordered list parser returns is a [ul]
    whose [class] attribute is decided by the marker of the first line:
    [star-list] for an asterisk, [plus-list] for a plus sign, [minus-list]
    for a minus sign. *)
Theorem unordered_list_class pb pi lines st n rest st' :
  bp_parse unordered_list pb pi lines st = Ret (Some n, rest, st') →
  ∃ c l ls cls children,
    lines = String c l :: ls
    ∧ n = Obj "ul" (Some [("class", VStr cls)]) (Some children) None None None
    ∧ (c = "*"%char ∧ cls = "star-list"
       ∨ c = "+"%char ∧ cls = "plus-list"
       ∨ c = "-"%char ∧ cls = "minus-list").
Proof.
  cbn [bp_parse unordered_list].
  destruct (collect _ _ _ _ lines) as [[items marker] rest1] eqn:Hc.
  destruct items as [|it items].
  { unfold mret, M_ret. done. }
  intros [children [= ->]]%finish_list_Ret.
  apply collect_first in Hc as (l0 & ls & -> & Hre & ->).
  apply unordered_re_Some in Hre as (c & r & -> & -> & Hm).
  exists c, (String " " r), ls. cbn [mjoin option_join marker_of at_ String.get].
  destruct Hm as [->|[->| ->]]; eexists _, _; (split; [done|]); (split; [done|]); auto.
Qed.

Lemma unordered_list_class_witness :
  let li t := Node.elem "li" [Obj "text" None None (Some t) (Some "inline") None] in
  let ul := Node.elem_attrs "ul" [("class", VStr "plus-list")] [li "a"; li "b"] in
  bp_parse unordered_list (Engine.parse_blocks 5) (Inline.parse_inline 5)
    ["+ a"; "+ b"; "- c"] initial
  = Ret (Some ul, ["- c"], initial)
  ∧ ∃ c l ls cls children,
      ["+ a"; "+ b"; "- c"] = String c l :: ls
      ∧ ul = Obj "ul" (Some [("class", VStr cls)]) (Some children) None None None
      ∧ (c = "*"%char ∧ cls = "star-list"
         ∨ c = "+"%char ∧ cls = "plus-list"
         ∨ c = "-"%char ∧ cls = "minus-list").
Proof.
  split; [reflexivity|].
  apply (unordered_list_class (Engine.parse_blocks 5) (Inline.parse_inline 5)
           ["+ a"; "+ b"; "- c"] initial _ ["- c"] initial).
  reflexivity.
Defined.



End ListClaims.

(** ** Well-formed trees *)

Module HoareFacts.
Import Wf Hoare.

Lemma post_ret {A} (a : A) (Q : A → Prop) : Q a → post (mret a) Q.
Proof. intros HQ st Hst. by split. Qed.

Lemma post_bind {A B} (m : M A) (f : A → M B) (P : A → Prop) (Q : B → Prop) :
  post m P → (∀ a, P a → post (f a) Q) → post (m ≫= f) Q.
Proof.
  intros Hm Hf st Hst. unfold mbind, M_bind. specialize (Hm st Hst).
  destruct (m st) as [[a st']| |]; [|done..]. destruct Hm as [Hst' HP].
  by apply Hf.
Qed.

Lemma post_weaken {A} (m : M A) (P Q : A → Prop) :
  post m P → (∀ a, P a → Q a) → post m Q.
Proof.
  intros Hm HPQ st Hst. specialize (Hm st Hst).
  destruct (m st) as [[a st']| |]; [|done..]. destruct Hm. auto.
Qed.

Lemma post_throw {A} e (Q : A → Prop) : post (St.throw e) Q.
Proof. by intros st Hst. Qed.

Lemma post_out_of_fuel {A} (Q : A → Prop) : post St.out_of_fuel Q.
Proof. by intros st Hst. Qed.

Lemma post_get : post St.get heap_wf.
Proof. by intros st Hst. Qed.

Lemma post_lift {A} (o : outcome A) (Q : A → Prop) :
  (∀ a, o = Ret a → Q a) → post (St.lift o) Q.
Proof. intros HQ st Hst. unfold St.lift. destruct o; simpl; auto. Qed.

Lemma post_modify (f : pstate → pstate) :
  (∀ st, heap_wf st → heap_wf (f st)) → post (St.modify f) (λ _, True).
Proof. intros Hf st Hst. split; auto. Qed.

Lemma post_alloc o : wf o = true → post (St.alloc o) (λ _, True).
Proof.
  intros Ho st Hst. split; [|done]. unfold heap_wf in *. simpl.
  apply Forall_app. split; [done|]. by constructor.
Qed.

Lemma post_update a f :
  (∀ n, wf n = true → wf (f n) = true) → post (St.update a f) (λ _, True).
Proof.
  intros Hf. apply post_modify. intros st Hst. unfold heap_wf in *. simpl.
  apply Forall_alter; [done|]. intros n _ Hn. by apply Hf.
Qed.

Lemma post_mapM {A B} (f : A → M B) (Q : B → Prop) l :
  (∀ x, post (f x) Q) → post (St.mapM f l) (Forall Q).
Proof.
  intros Hf. induction l as [|x l IH]; cbn [St.mapM].
  - by apply post_ret.
  - eapply post_bind; [apply Hf|]. intros y Hy.
    eapply post_bind; [apply IH|]. intros ys Hys.
    apply post_ret. by constructor.
Qed.

End HoareFacts.

Module WfFacts.
Import Wf Hoare HoareFacts.

Lemma forallb_wfs l : forallb wf l = true ↔ wfs l.
Proof. unfold wfs. rewrite forallb_forall, Forall_forall. by setoid_rewrite list_elem_of_In. Qed.

Lemma wf_elem nm cs : wfs cs → wf (Node.elem nm cs) = true.
Proof. intros H. simpl. by apply forallb_wfs. Qed.

Lemma wf_elem_attrs nm a cs : wfs cs → wf (Node.elem_attrs nm a cs) = true.
Proof. intros H. simpl. by apply forallb_wfs. Qed.

Lemma wf_text s : wf (Node.text s) = true.
Proof. done. Qed.

Lemma wf_children nm a cs t ty k :
  wf (Obj nm a (Some cs) t ty k) = true ↔ wfs cs.
Proof. simpl. apply forallb_wfs. Qed.

Lemma wf_set_type ty n : wf n = true → wf (Node.set_type ty n) = true.
Proof. by destruct n. Qed.
Lemma wf_set_key k n : wf n = true → wf (Node.set_key k n) = true.
Proof. by destruct n. Qed.
Lemma wf_set_attributes a n : wf n = true → wf (Node.set_attributes a n) = true.
Proof. by destruct n. Qed.
Lemma wf_set_attr k v n : wf n = true → wf (Node.set_attr k v n) = true.
Proof. destruct n as [nm [a|] cs t ty ky| | |]; done. Qed.
Lemma wf_set_text s n : wf n = true → wf (Node.set_text s n) = true.
Proof.
  destruct n as [nm a cs t ty ky| | |]; try done. simpl.
  intros [_ H]%andb_true_iff. rewrite H. by rewrite orb_true_r.
Qed.
Lemma wf_set_children cs n : wfs cs → wf (Node.set_children cs n) = true → True.
Proof. done. Qed.
Lemma wf_set_children' cs n :
  wfs cs → wf n = true → wf (Node.set_children cs n) = true.
Proof.
  intros Hcs. destruct n as [nm a cs' t ty ky| | |]; try done. simpl.
  intros _. by apply forallb_wfs.
Qed.
(** Renaming keeps a node that has children well formed. *)
Lemma wf_set_name nm n :
  is_Some (Node.children n) → wf n = true → wf (Node.set_name nm n) = true.
Proof.
  destruct n as [nm' a cs t ty ky| | |]; try done. simpl.
  intros [cs' ->]. done.
Qed.

Lemma wfs_app l1 l2 : wfs l1 → wfs l2 → wfs (l1 ++ l2).
Proof. intros. by apply Forall_app. Qed.

Lemma wfs_snoc l n : wfs l → wf n = true → wfs (l ++ [n]).
Proof. intros. apply Forall_app. split; [done|]. by constructor. Qed.

End WfFacts.

Module InlineFacts.
Import Js Inline Wf Hoare Good HoareFacts WfFacts.

Lemma good_delimited nm s e : good_ip (delimited nm s e).
Proof.
  intros pi Hpi t c. cbn [ip_parse delimited].
  eapply post_bind; [apply Hpi|]. intros [children c'] Hc.
  apply post_ret. by apply wf_elem.
Qed.

Lemma good_capture nm s e process filter :
  (∀ n, wf n = true → post (process n) (λ n', wf n' = true)) →
  good_ip (capture nm s e process filter).
Proof.
  intros Hp pi Hpi t c. cbn [ip_parse capture].
  destruct (grab _ _ _ _ _) as [[txt c']|]; [|by apply post_ret].
  eapply post_bind; [apply Hp|].
  - apply wf_elem. by repeat constructor.
  - intros n Hn. by apply post_ret.
Qed.

Lemma post_footnote_cite_process n :
  wf n = true → post (footnote_cite_process n) (λ n', wf n' = true).
Proof.
  intros Hn. unfold footnote_cite_process.
  destruct (Node.children n) as [[|[nm a cs [t|] ty k| | |] children]|] eqn:Hc;
    try apply post_throw.
  eapply post_bind.
  { apply post_alloc. destruct n; try done. simpl in Hc. subst.
    by apply andb_true_iff in Hn as [_ Hn]. }
  intros a' _. eapply post_bind; [apply post_modify; by intros|].
  intros _ _. apply post_ret. done.
Qed.

Lemma good_link : good_ip link.
Proof.
  intros pi Hpi t c. cbn [ip_parse link].
  eapply post_bind; [apply Hpi|]. intros [children c'] Hc. simpl in Hc.
  destruct (grab _ _ _ _ _) as [[href c'']|]; [|by apply post_ret].
  destruct (JsNumber.loose_eq_minus_one href); [by apply post_ret|].
  eapply post_bind.
  { apply post_alloc. apply wf_elem_attrs. destruct children; [|done].
    by repeat constructor. }
  intros a _. eapply post_bind; [apply post_modify; by intros|].
  intros _ _. by apply post_ret.
Qed.

Lemma good_img : good_ip img.
Proof.
  intros pi Hpi t c. cbn [ip_parse img].
  destruct (grab _ _ _ _ _) as [[alt c']|]; [|by apply post_ret].
  destruct (JsNumber.loose_eq_minus_one alt); [by apply post_ret|].
  destruct (grab _ _ _ _ _) as [[src c'']|]; [|by apply post_ret].
  destruct (JsNumber.loose_eq_minus_one src); [by apply post_ret|].
  eapply post_bind; [by apply post_alloc|].
  intros a _. eapply post_bind; [apply post_modify; by intros|].
  intros _ _. by apply post_ret.
Qed.

Lemma inlineparsers_builtin : inlineparsers = builtin.
Proof. reflexivity. Qed.

Lemma good_inlineparsers : Forall good_ip inlineparsers.
Proof.
  rewrite inlineparsers_builtin. unfold builtin.
  repeat constructor;
    try apply good_delimited; try apply good_link; try apply good_img.
  - apply good_capture. intros n Hn. by apply post_ret.
  - apply good_capture. apply post_footnote_cite_process.
Qed.

Lemma select_good t c ps idx first :
  Forall good_ip ps → from_option good_ip True first →
  let '(i, f, kept) := select t c ps idx first in
  Forall good_ip kept ∧ from_option good_ip True f.
Proof.
  intros Hps. revert idx first.
  induction Hps as [|p ps Hp Hps IH]; intros idx first Hf; cbn [select]; [done|].
  destruct (ip_indexOf p t c) as [idxp|].
  - destruct (idxp <? idx).
    + specialize (IH idxp (Some p) Hp).
      destruct (select t c ps idxp (Some p)) as [[i f] kept].
      destruct IH. split; [by constructor | done].
    + specialize (IH idx first Hf).
      destruct (select t c ps idx first) as [[i f] kept].
      destruct IH. split; [by constructor | done].
  - by apply IH.
Qed.

Lemma post_mark_inline n : wf n = true → post (mark_inline n) (λ n', wf n' = true).
Proof.
  intros Hn. destruct n as [nm a cs t ty k|a| |]; cbn [mark_inline];
    try (apply post_ret; by apply wf_set_type).
  eapply post_bind; [apply post_update; intros; by apply wf_set_type|].
  intros _ _. by apply post_ret.
Qed.

Lemma post_finish ast c : wfs ast → post (finish ast c) (λ r, wfs r.1).
Proof.
  intros Hast. unfold finish.
  eapply post_bind with (P := wfs).
  - induction Hast as [|n ast Hn Hast IH]; cbn [St.mapM];
      [apply post_ret; constructor|].
    eapply post_bind; [by apply post_mark_inline|]. intros n' Hn'.
    eapply post_bind; [apply IH|]. intros ast' Hast'.
    apply post_ret. by constructor.
  - intros ast' Hast'. by apply post_ret.
Qed.

Lemma post_run fuel : ∀ text ender current cursor ast,
  Forall good_ip current → wfs ast →
  post (run fuel text ender current cursor ast) (λ r, wfs r.1).
Proof.
  induction fuel as [|fuel IH]; intros text ender current cursor ast Hcur Hast;
    cbn [run]; [apply post_out_of_fuel|].
  destruct (cursor <? len text); [|by apply post_finish].
  pose proof (select_good text cursor current (ender_indexOf ender text cursor) None
                Hcur I) as Hsel.
  destruct (select _ _ _ _ _) as [[idx first] current'].
  destruct Hsel as [Hcur' Hfirst].
  set (pair := if cursor <? idx then _ else _).
  assert (wfs pair.1) as Hast1.
  { unfold pair. destruct (cursor <? idx); [|done]. by apply wfs_snoc. }
  destruct pair as [ast1 cursor1]. simpl in Hast1.
  destruct first as [p|]; [|by apply post_finish].
  simpl in Hfirst.
  eapply post_bind.
  { apply Hfirst. intros t e c. apply IH; [apply good_inlineparsers | constructor]. }
  intros [[n|] cursor2] Hn; simpl in Hn.
  - apply IH; [done|]. by apply wfs_snoc.
  - destruct (at_ cursor2 text); [|apply post_throw].
    apply IH; [done|]. by apply wfs_snoc.
Qed.

Lemma good_parse_inline fuel : good_pi (parse_inline fuel).
Proof. intros t e c. apply post_run; [apply good_inlineparsers | constructor]. Qed.

End InlineFacts.

Module BlockFacts.
Import Js Lines Block Wf Hoare Good HoareFacts WfFacts InlineFacts.

Lemma post_inline_text pi text : good_pi pi → post (inline_text pi text) wfs.
Proof.
  intros Hpi. unfold inline_text. eapply post_bind; [apply Hpi|].
  intros [ast c] Hast. by apply post_ret.
Qed.

Lemma wfs_map_text (f : string → string) l : wfs (map (λ c, Node.text (f c)) l).
Proof. induction l; by constructor. Qed.

Lemma wfs_map_elem nm (l : list (list node)) :
  Forall wfs l → wfs (map (Node.elem nm) l).
Proof. induction 1; constructor; [by apply wf_elem | done]. Qed.

Ltac ret := apply post_ret; cbn [fst opt_ok].
Ltac ret0 := solve [apply post_ret; exact I].

Lemma good_header : good_bp header.
Proof.
  intros pb pi Hpb Hpi lines. cbn [bp_parse header].
  destruct lines as [|l rest]; [apply post_throw|].
  destruct (header_re l) as [n|]; [|ret0].
  eapply post_bind; [by apply post_inline_text|]. intros children Hc.
  ret. left. by apply wf_elem.
Qed.

Lemma good_blockquote : good_bp blockquote.
Proof.
  intros pb pi Hpb Hpi lines. cbn [bp_parse blockquote].
  destruct (grablines _ lines) as [[|q quoted] rest]; [ret0|].
  eapply post_bind; [apply Hpb|]. intros children Hc.
  ret. left. by apply wf_elem.
Qed.

Lemma good_indented_codeblock : good_bp indented_codeblock.
Proof.
  intros pb pi Hpb Hpi lines. cbn [bp_parse indented_codeblock].
  destruct (grablines _ lines) as [[|q quoted] rest]; [ret0|].
  ret. left. apply wf_elem. apply (wfs_map_text (λ c, if startsWith "    " c then drop 4 c else c)).
Qed.

Lemma good_fenced_codeblock : good_bp fenced_codeblock.
Proof.
  intros pb pi Hpb Hpi lines. cbn [bp_parse fenced_codeblock].
  destruct lines as [|fence lines]; [ret0|].
  destruct (startsWith "```" fence); [|ret0].
  destruct (grablines _ lines) as [block rest].
  destruct (fencehandler !! drop 3 fence) as [h|].
  - apply (post_bind _ _ (λ _, False)); [apply post_throw | by intros ? []].
  - ret. left. apply wf_children. apply wfs_map_text.
Qed.

Lemma post_finish_list pb items lines mk :
  good_pb pb → (∀ cs, wfs cs → wf (mk cs) = true) →
  post (finish_list pb items lines mk) (λ r, opt_ok r.1).
Proof.
  intros Hpb Hmk. unfold finish_list.
  destruct (deblank items lines) as [items' lines'].
  apply (post_bind _ _ (λ _, True)); [by apply post_lift|]. intros its _.
  eapply post_bind; [apply post_mapM, Hpb|]. intros children Hc.
  ret. left. apply Hmk. by apply wfs_map_elem.
Qed.

Lemma good_unordered_list : good_bp unordered_list.
Proof.
  intros pb pi Hpb Hpi lines. cbn [bp_parse unordered_list].
  destruct (collect _ _ _ _ lines) as [[[|it items] marker] rest]; [ret0|].
  apply post_finish_list; [done|]. intros cs Hcs. by apply wf_elem_attrs.
Qed.

Lemma good_ordered_list : good_bp ordered_list.
Proof.
  intros pb pi Hpb Hpi lines. cbn [bp_parse ordered_list].
  destruct (collect _ _ _ _ lines) as [[[|it items] marker] rest]; [ret0|].
  apply post_finish_list; [done|]. intros cs Hcs. by apply wf_elem_attrs.
Qed.

Lemma good_horizontal_rule : good_bp horizontal_rule.
Proof.
  intros pb pi Hpb Hpi lines. cbn [bp_parse horizontal_rule].
  destruct lines as [|l rest]; [apply post_throw|].
  destruct (_ || _); [ret; by left | ret0].
Qed.

Lemma good_footnote_def : good_bp footnote_def.
Proof.
  intros pb pi Hpb Hpi lines. cbn [bp_parse footnote_def].
  destruct lines as [|l rest]; [apply post_throw|].
  destruct (footnote_re l) as [[prefix note]|]; [|ret0].
  destruct (grablines _ rest) as [g rest'].
  eapply post_bind; [apply post_modify; by intros|]. intros _ _.
  ret. by right.
Qed.

Lemma good_href_def : good_bp href_def.
Proof.
  intros pb pi Hpb Hpi lines. cbn [bp_parse href_def].
  destruct lines as [|l rest]; [apply post_throw|].
  destruct (href_re l) as [[prefix note]|]; [|ret0].
  eapply post_bind; [apply post_modify; by intros|]. intros _ _.
  ret. by right.
Qed.

Lemma wfs_raw (f : string → option string) l : wfs (map (λ c, Raw (f c)) l).
Proof. induction l; by constructor. Qed.

Lemma good_html_groups : good_bp html_groups.
Proof.
  intros pb pi Hpb Hpi lines. cbn [bp_parse html_groups].
  destruct lines as [|l rest]; [apply post_throw|].
  destruct (html_groups_re l) as [prefix|]; [|ret0].
  destruct (grablines _ _) as [g rest'].
  ret. left. apply wf_elem. apply wfs_app; [apply (wfs_raw Some)|]. by repeat constructor.
Qed.

Lemma good_html_tags : good_bp html_tags.
Proof.
  intros pb pi Hpb Hpi lines. cbn [bp_parse html_tags].
  destruct lines as [|l rest]; [ret0|].
  destruct (html_tags_re l); [|ret0].
  ret. by left.
Qed.

(** *** Tables *)

Lemma is_cell_wfs cells : Forall is_cell cells → wfs cells.
Proof. intros H. eapply Forall_impl; [exact H|]. by intros c [? _]. Qed.

Lemma is_row_wf r : is_row r → wf r = true.
Proof. intros (nm & a & cells & t & ty & k & -> & Hc). apply wf_children. by apply is_cell_wfs. Qed.

Lemma is_cell_set_attributes a c : is_cell c → is_cell (Node.set_attributes a c).
Proof. intros [Hw Hc]. split; [by apply wf_set_attributes | by destruct c]. Qed.

Lemma is_cell_set_name nm c : is_cell c → is_cell (Node.set_name nm c).
Proof. intros [Hw Hc]. split; [by apply wf_set_name | by destruct c]. Qed.

Lemma align_cells_ok al cells : Forall is_cell cells → Forall is_cell (align_cells al cells).
Proof.
  intros Hc. revert al. induction Hc as [|c cells Hc Hcs IH]; intros [|a al]; cbn [align_cells];
    try by constructor.
  constructor; [|apply IH]. destruct (String.eqb a EmptyString); [done|].
  by apply is_cell_set_attributes.
Qed.

Lemma is_row_align al r : is_row r → is_row (align_row al r).
Proof.
  intros (nm & a & cells & t & ty & k & -> & Hc). unfold align_row. cbn.
  eexists _, _, _, _, _, _. split; [done|]. by apply align_cells_ok.
Qed.

Lemma is_row_to_header r : is_row r → is_row (to_header r).
Proof.
  intros (nm & a & cells & t & ty & k & -> & Hc). unfold to_header. cbn.
  eexists _, _, _, _, _, _. split; [done|].
  induction Hc; constructor; [by apply is_cell_set_name | done].
Qed.

Lemma post_row pi line number :
  good_pi pi →
  post (row pi line number)
       (λ r, match r with Row tr => is_row tr | _ => True end).
Proof.
  intros Hpi. unfold row. destruct line as [line|]; [|ret0].
  destruct (startsWith "|" line); [|ret0].
  destruct (_ && _); [ret0|].
  eapply post_bind with (P := Forall is_cell).
  - apply post_mapM. intros c.
    eapply post_bind; [by apply post_inline_text|]. intros children Hc.
    apply post_ret. split; [by apply wf_elem | by eexists].
  - intros cells Hcells. apply post_ret.
    by eexists _, _, _, _, _, _.
Qed.

Lemma post_rows_loop pi lines : ∀ rowcount rows alignment alignedrow,
  good_pi pi → Forall is_row rows →
  post (rows_loop pi lines rowcount rows alignment alignedrow)
       (λ r, Forall is_row r.1.1.1).
Proof.
  induction lines as [|l lines IH]; intros rowcount rows alignment alignedrow Hpi Hrows;
    cbn [rows_loop]; [by apply post_ret|].
  eapply post_bind; [by apply post_row|]. intros [|a|tr] Hr.
  - by apply post_ret.
  - by apply IH.
  - apply IH; [done|]. apply Forall_app. split; [done|]. by constructor.
Qed.

Lemma good_table : good_bp table.
Proof.
  intros pb pi Hpb Hpi lines. cbn [bp_parse table].
  eapply post_bind; [apply post_rows_loop; [done | constructor]|].
  intros [[[rows alignment] alignedrow] rest] Hrows. cbn [fst] in Hrows.
  destruct rows as [|r0 rows]; [ret0|].
  destruct alignment as [[|a al]|]; [| |apply post_throw].
  - ret. left. apply wf_elem. constructor; [|constructor].
    apply wf_elem. eapply Forall_impl; [done|]. apply is_row_wf.
  - ret. left.
    assert (Forall is_row (map (align_row (a :: al)) (r0 :: rows))) as Hal.
    { apply Forall_fmap. eapply Forall_impl; [done|]. intros r. apply is_row_align. }
    cbn [map] in *. apply Forall_cons in Hal as [Hr0 Hal].
    apply wf_elem. constructor; [|constructor; [|constructor]].
    + apply wf_elem. cbn [firstn]. constructor; [|constructor].
      apply is_row_wf. destruct (bool_decide _); [by apply is_row_to_header | done].
    + apply wf_elem. cbn [skipn]. eapply Forall_impl; [done|]. apply is_row_wf.
Qed.

Lemma blockparsers_builtin : blockparsers = builtin.
Proof. reflexivity. Qed.

Lemma good_blockparsers : Forall good_bp blockparsers.
Proof.
  rewrite blockparsers_builtin. unfold builtin.
  repeat constructor.
  - apply good_header.
  - apply good_blockquote.
  - apply good_indented_codeblock.
  - apply good_fenced_codeblock.
  - apply good_unordered_list.
  - apply good_ordered_list.
  - apply good_horizontal_rule.
  - apply good_footnote_def.
  - apply good_href_def.
  - apply good_html_groups.
  - apply good_html_tags.
  - apply good_table.
Qed.

End BlockFacts.

Module EngineFacts.
Import Js Lines Block Wf Hoare Good HoareFacts WfFacts InlineFacts BlockFacts.

(** *** Postprocessing *)

Lemma heap_lookup_wf st a o : heap_wf st → heap st !! a = Some o → wf o = true.
Proof. intros Hst Ha. eapply Forall_lookup_1 in Hst; [|exact Ha]. done. Qed.

Lemma post_number_cite a acc : post (number_cite a acc) (λ _, True).
Proof.
  destruct acc as [i tonumbers]. unfold number_cite.
  eapply post_bind; [apply post_get|]. intros st Hst.
  destruct (heap st !! a) as [cite|] eqn:Ha; [|apply post_throw].
  pose proof (heap_lookup_wf _ _ _ Hst Ha) as Hcite.
  destruct (Proto.get _ tonumbers) as [n| |];
    (destruct (Node.attributes cite) as [at_|]; [|apply post_throw]);
    (destruct (Node.children cite) as [[|c0 cs]|] eqn:Hcs; try apply post_throw);
    (eapply post_bind; [|intros _ _; by apply post_ret]);
    apply post_update; intros n' Hn';
    (apply wf_set_children';
      [ destruct cite; try done; simpl in Hcs; subst;
        apply wf_children in Hcite; apply Forall_cons in Hcite as [Hc0 Hcs'];
        constructor; [by apply wf_set_text | done]
      | by apply wf_set_attr, wf_set_key ]).
Qed.

Lemma post_number_cites cs acc : post (number_cites cs acc) (λ _, True).
Proof.
  revert acc. induction cs as [|a cs IH]; intros acc; cbn [number_cites].
  - by apply post_ret.
  - eapply post_bind; [apply post_number_cite|]. intros acc' _. apply IH.
Qed.

Lemma post_assign_attributes a n :
  wf n = true → post (assign_attributes a n) (λ n', wf n' = true).
Proof.
  intros Hn. destruct n as [nm at_ cs t ty k|b| |]; cbn [assign_attributes];
    try (by apply post_ret).
  eapply post_bind; [apply post_update; intros; by apply wf_set_attributes|].
  intros _ _. by apply post_ret.
Qed.

Lemma post_number_items cs : ∀ i, wfs cs → post (number_items i cs) wfs.
Proof.
  induction cs as [|c cs IH]; intros i Hcs; cbn [number_items].
  - apply post_ret. constructor.
  - apply Forall_cons in Hcs as [Hc Hcs].
    eapply post_bind; [by apply post_assign_attributes|]. intros c' Hc'.
    eapply post_bind; [by apply IH|]. intros cs' Hcs'.
    apply post_ret. by constructor.
Qed.

Lemma post_number_first d0 :
  wf d0 = true → post (number_first d0) (λ d, wf d = true).
Proof.
  intros Hd. destruct d0 as [nm a [cs|] t ty k|b| |]; cbn [number_first];
    try apply post_throw.
  - apply wf_children in Hd.
    eapply post_bind; [by apply post_number_items|]. intros cs' Hcs'.
    apply post_ret. by apply wf_children.
  - eapply post_bind; [apply post_get|]. intros st Hst.
    destruct (heap st !! b) as [o|] eqn:Hb; cbn [mbind option_bind]; [|apply post_throw].
    destruct (Node.children o) as [cs|] eqn:Hcs; [|apply post_throw].
    pose proof (heap_lookup_wf _ _ _ Hst Hb) as Ho.
    assert (wfs cs) as Hw.
    { destruct o; try done. simpl in Hcs. subst. by apply wf_children in Ho. }
    eapply post_bind; [by apply post_number_items|]. intros cs' Hcs'.
    eapply post_bind; [|intros _ _; by apply post_ret].
    apply post_update. intros n Hn. by apply wf_set_children'.
Qed.

Lemma post_footnote_postprocess pb ast :
  good_pb pb → wfs ast → post (footnote_postprocess pb ast) wfs.
Proof.
  intros Hpb Hast. unfold footnote_postprocess.
  eapply post_bind; [apply post_get|]. intros st _.
  eapply post_bind; [apply post_number_cites|]. intros [i tonumbers] _.
  eapply post_bind; [apply post_get|]. intros st' _.
  apply (post_bind _ _ (λ _, True)); [by apply post_lift|]. intros defs _.
  eapply post_bind; [apply Hpb|]. intros [|d0 ds] Hdefs; [by apply post_ret|].
  apply Forall_cons in Hdefs as [Hd0 Hds].
  eapply post_bind; [by apply post_number_first|]. intros d0' Hd0'.
  apply post_ret. apply wfs_snoc; [done|].
  apply wf_elem_attrs. constructor; [|constructor].
  cbn [wf]. apply forallb_wfs. by constructor.
Qed.

Lemma wf_resolve_link defs n : wf n = true → wf (resolve_link defs n) = true.
Proof.
  intros Hn. unfold resolve_link. destruct (Node.attributes n); [|done].
  destruct (jsval_truthy _); by apply wf_set_attr.
Qed.

Lemma post_href_postprocess ast : wfs ast → post (href_postprocess ast) wfs.
Proof.
  intros Hast. unfold href_postprocess.
  eapply post_bind; [apply post_get|]. intros st _.
  eapply post_bind; [|intros _ _; by apply post_ret].
  apply post_mapM with (Q := λ _, True). intros a.
  apply post_update. intros n. apply wf_resolve_link.
Qed.

Lemma good_post_blockparsers : Forall good_post blockparsers.
Proof.
  rewrite blockparsers_builtin. unfold builtin.
  repeat constructor; intros f pb pi ast Hf Hpb Hpi Hast; simpl in Hf; try done;
    injection Hf as <-.
  - by apply post_ret.
  - by apply post_footnote_postprocess.
  - by apply post_href_postprocess.
Qed.

(** *** The block engine *)

Lemma post_try_parsers pb pi bps : ∀ lines,
  good_pb pb → good_pi pi → Forall good_bp bps →
  post (Engine.try_parsers pb pi bps lines) (λ r, opt_ok r.1).
Proof.
  intros lines Hpb Hpi Hbps. revert lines.
  induction Hbps as [|bp bps Hbp Hbps IH]; intros lines; cbn [Engine.try_parsers].
  - by apply post_ret.
  - eapply post_bind; [by apply Hbp|]. intros [[n|] lines'] Hn.
    + by apply post_ret.
    + apply IH.
Qed.

Lemma post_push_text pi name lines text ast :
  good_pi pi → wfs ast →
  post (Engine.push_text pi name lines text ast) (λ r, wfs r.2).
Proof.
  intros Hpi Hast. unfold Engine.push_text.
  destruct (if String.eqb name "p" then _ else _) as [lines' text'].
  destruct text' as [|t text']; [by apply post_ret|].
  eapply post_bind; [by apply post_inline_text|]. intros children Hc.
  destruct (String.eqb name "p"); apply post_ret; cbn [snd].
  - apply wfs_snoc; [done|]. by apply wf_elem.
  - by apply wfs_app.
Qed.

Lemma post_engine_run fuel : ∀ lines text ast,
  wfs ast → post (Engine.run fuel lines text ast) wfs.
Proof.
  induction fuel as [|fuel IH]; intros lines text ast Hast; cbn [Engine.run];
    [apply post_out_of_fuel|].
  assert (good_pb (λ ls, Engine.run fuel ls [] [])) as Hpb.
  { intros ls. apply IH. constructor. }
  pose proof (good_parse_inline fuel) as Hpi.
  destruct lines as [|l0 lines0].
  { destruct text as [|t text]; [by apply post_ret|].
    eapply post_bind; [by apply post_push_text|]. intros [[? ?] ast'] Hast'.
    by apply post_ret. }
  eapply post_bind; [apply post_try_parsers; [done | done | apply good_blockparsers]|].
  intros [[n|] lines] Hn; cbn [fst opt_ok] in Hn.
  - destruct (bool_decide _) eqn:Hname; [by apply IH|].
    apply bool_decide_eq_false in Hname. destruct Hn as [Hn|Hn]; [|done].
    eapply post_bind; [by apply post_push_text|]. intros [[lines' text'] ast'] Hast'.
    apply IH. by apply wfs_snoc.
  - destruct lines as [|l rest]; [by apply IH|].
    destruct (blankline l).
    + destruct text as [|t text]; [apply IH; by apply wfs_snoc|].
      eapply post_bind; [by apply post_push_text|]. intros [[lines' text'] ast'] Hast'.
      by apply IH.
    + by apply IH.
Qed.

Lemma good_parse_blocks fuel : good_pb (Engine.parse_blocks fuel).
Proof. intros ls. apply post_engine_run. constructor. Qed.

(** *** Reading through the heap *)

Lemma wf_subst h n : wfs h → wf n = true → wf (Heap.subst h n) = true.
Proof.
  intros Hh. induction n as [nm a cs t ty k IH|a|s|l IH] using node_ind'; cbn [Heap.subst].
  - destruct cs as [l|]; [|done]. cbn [option_map wf Wf.present].
    intros Hl%forallb_wfs. cbn. apply forallb_wfs.
    apply Forall_fmap.
    induction Hl as [|x l Hx Hl IHl]; [constructor|].
    apply Forall_cons in IH as [IHx IH]. constructor; [by apply IHx | by apply IHl].
  - intros _. destruct (h !! a) as [o|] eqn:Ha; [|done]. cbn.
    by eapply Forall_lookup_1 in Hh.
  - done.
  - cbn [wf]. intros Hl%forallb_wfs. apply forallb_wfs. apply Forall_fmap.
    induction Hl as [|x l Hx Hl IHl]; [constructor|].
    apply Forall_cons in IH as [IHx IH]. constructor; [by apply IHx | by apply IHl].
Qed.

Lemma wfs_resolve_heap h : wfs h → wfs (Heap.resolve_heap h).
Proof.
  unfold Heap.resolve_heap. intros Hh.
  assert (∀ acc, wfs acc → wfs (foldl (λ acc o, acc ++ [Heap.subst acc o]) acc h)) as H.
  { induction Hh as [|o h Ho Hh IH]; intros acc Hacc; cbn [foldl]; [done|].
    apply IH. apply wfs_snoc; [done|]. by apply wf_subst. }
  apply H. constructor.
Qed.

Lemma wfs_resolve h ast : wfs h → wfs ast → wfs (Heap.resolve h ast).
Proof.
  intros Hh Hast. unfold Heap.resolve. apply Forall_fmap.
  eapply Forall_impl; [exact Hast|]. intros n Hn. cbn.
  apply wf_subst; [by apply wfs_resolve_heap | done].
Qed.

(** *** The top level *)

Lemma post_init_all : post Top.init_all (λ _, True).
Proof.
  intros st Hst. unfold Top.init_all. rewrite blockparsers_builtin.
  vm_compute. done.
Qed.

Lemma post_postprocess_all fuel ast : wfs ast → post (Top.postprocess_all fuel ast) wfs.
Proof.
  intros Hast. unfold Top.postprocess_all.
  assert (∀ bps (m : M (list node)), Forall good_post bps → post m wfs →
            post (foldl (λ acc bp,
                    ast ← acc;
                    match bp_postprocess bp with
                    | Some f => f (Engine.parse_blocks fuel) (Inline.parse_inline fuel) ast
                    | None => mret ast
                    end) m bps) wfs) as H.
  { intros bps m Hbps. revert m.
    induction Hbps as [|bp bps Hbp Hbps IH]; intros m Hm; cbn [foldl]; [done|].
    apply IH. eapply post_bind; [exact Hm|]. intros ast' Hast'.
    destruct (bp_postprocess bp) as [f|] eqn:Hf; [|by apply post_ret].
    eapply Hbp; [done | apply good_parse_blocks | apply good_parse_inline | done]. }
  apply H; [apply good_post_blockparsers | by apply post_ret].
Qed.

Lemma post_parse fuel doc : post (Top.parse fuel doc) wfs.
Proof.
  unfold Top.parse.
  eapply post_bind; [apply post_init_all|]. intros _ _.
  eapply post_bind; [apply good_parse_blocks|]. intros ast Hast.
  eapply post_bind; [by apply post_postprocess_all|]. intros ast' Hast'.
  eapply post_bind; [apply post_get|]. intros st Hst.
  apply post_ret. by apply wfs_resolve.
Qed.

End EngineFacts.

(** ** The top level *)

Module TopClaims.
Import Js Block Wf Shape.

Lemma post_elim {A} (m : M A) (Q : A → Prop) st a st' :
  Hoare.post m Q → Hoare.heap_wf st → m st = Ret (a, st') →
  Hoare.heap_wf st' ∧ Q a.
Proof. intros Hm Hst Heq. specialize (Hm st Hst). by rewrite Heq in Hm. Qed.




(** C3 (the code at the failing input). A table of two data rows and no
    row of alignment markers: the table parser throws where it reads the
    length of the alignment, which no row has set. *)
Theorem table_without_alignment_throws fuel pb st :
  bp_parse table pb (Inline.parse_inline (S fuel)) ["| a | b |"; "| c | d |"] st
  = Throw (TypeError "alignment is undefined").
Proof. vm_compute; reflexivity. Qed.

(** C4 (the code at the failing inputs). Whatever the lines of a config
    fence are, the fenced code block parser throws before the config
    handler is entered: the argument of the call is an unbound
    identifier. *)
Theorem config_fence_throws pb pi lines st :
  bp_parse fenced_codeblock pb pi ("```config" :: lines) st
  = Throw (ReferenceError "children is not defined").
Proof.
  cbn [bp_parse fenced_codeblock].
  change (startsWith "```" "```config") with true. cbv iota.
  destruct (Lines.grablines _ lines) as [block rest].
  change (fencehandler !! drop 3 "```config") with (Some fencehandler_config).
  reflexivity.
Qed.

(** C2 (the code at failing inputs). With any printer and enough fuel,
    [scratchmark] throws on a table without an alignment row, on a fence
    that has a handler, and on a footnote citation without a
    definition. *)
Theorem scratchmark_throws fuel printer :
  (∀ st, Top.scratchmark (S (S fuel)) (doc_lines ["| a | b |"; "| c | d |"]) printer st
         = Throw (TypeError "alignment is undefined"))
  ∧ (∀ st, Top.scratchmark (S (S fuel)) (doc_lines ["```omit"; "x"; "```"]) printer st
           = Throw (ReferenceError "children is not defined"))
  ∧ Top.scratchmark (S (S (S (S fuel)))) "see[^x]" printer initial
    = Throw (TypeError "this.defs[tonumbers[j]] is not iterable").
Proof. repeat split; intros; vm_compute; reflexivity. Qed.

(** C6 (the code at the failing input). A citation whose label is a name
    that every object literal inherits is given no number: its key
    becomes the inherited value, and no footnote is listed. *)
Theorem inherited_label_not_numbered :
  ∃ st,
    Top.scratchmark 8 (doc_lines ["a[^constructor]"; ""; "[^constructor]: note"])
      (Some tree_printer) initial
    = Ret (OutTree
             [Node.elem "p"
                [Obj "text" None None (Some "a") (Some "inline") None;
                 Obj "sup" None
                   (Some [Obj "a"
                            (Some [("href",
                                    VStr "#footnote_function Object() { [native code] }")])
                            (Some [Node.text "function Object() { [native code] }"])
                            None None (Some (VInherited "constructor"))])
                   None (Some "inline") None];
              Node.text EmptyString], st).
Proof. eexists. vm_compute. reflexivity. Qed.

(** The scenario of the specification: the citations x, y, x are numbered
    1, 2, 1 although y is defined first. *)
Lemma cites_x_y_x :
  let cite n :=
    Obj "sup" None
      (Some [Obj "a" (Some [("href", VStr ("#footnote_" +:+ of_nat n))])
               (Some [Node.text (of_nat n)]) None None (Some (VNum n))])
      None (Some "inline") None in
  let text s := Obj "text" None None (Some s) (Some "inline") None in
  ∃ st footnotes,
    Top.scratchmark 12
      (doc_lines ["a[^x] b[^y] c[^x]"; ""; "[^y]: why"; "[^x]: ex"])
      (Some tree_printer) initial
    = Ret (OutTree
             [Node.elem "p" [text "a"; cite 1; text " b"; cite 2; text " c"; cite 1];
              Node.text EmptyString; footnotes], st).
Proof. intros cite text. eexists _, _. vm_compute. reflexivity. Qed.

Lemma scratchmark_no_tree fuel doc st t st' :
  Top.scratchmark fuel doc None st ≠ Ret (OutTree t, st').
Proof.
  unfold Top.scratchmark, mbind, M_bind.
  destruct (Top.parse fuel doc st) as [[ast st1]| |]; [|done..].
  cbn [default from_option id]. unfold St.lift, html_printer, mbind, outcome_bind.
  destruct (Printer.html_printer _ _) as [s| |]; [|done..].
  unfold mret, outcome_ret, St.get. cbn.
  destruct (bool_decide _); done.
Qed.



End TopClaims.

(** * Further properties of the code *)

(** ** Facts about strings *)

Module JsFacts.
Import Js.

Lemma sapp_cons c a b : String c a +:+ b = String c (a +:+ b).
Proof. reflexivity. Qed.

Lemma sapp_nil_l b : EmptyString +:+ b = b.
Proof. reflexivity. Qed.

Lemma len_app a b : len (a +:+ b) = len a + len b.
Proof.
  unfold len. induction a as [|c a IH]; [done|].
  rewrite sapp_cons. simpl. by rewrite IH.
Qed.

Lemma sapp_empty_r a : a +:+ EmptyString = a.
Proof. induction a as [|c a IH]; [done|]. by rewrite sapp_cons, IH. Qed.

Lemma sapp_assoc a b c : (a +:+ b) +:+ c = a +:+ (b +:+ c).
Proof. induction a as [|x a IH]; [done|]. by rewrite !sapp_cons, IH. Qed.

Lemma sdrop_0 s : drop 0 s = s.
Proof. by destruct s. Qed.

Lemma sdrop_app_plus a b k : drop (len a + k) (a +:+ b) = drop k b.
Proof. induction a as [|c a IH]; [done|]. rewrite sapp_cons. exact IH. Qed.

Lemma sdrop_app a b : drop (len a) (a +:+ b) = b.
Proof.
  rewrite <- (Nat.add_0_r (len a)). rewrite sdrop_app_plus. apply sdrop_0.
Qed.

Lemma stake_app_plus a b k : take (len a + k) (a +:+ b) = a +:+ take k b.
Proof.
  induction a as [|c a IH]; [done|]. rewrite !sapp_cons. simpl. by rewrite IH.
Qed.

Lemma stake_0 s : take 0 s = EmptyString.
Proof. by destruct s. Qed.

Lemma stake_app a b : take (len a) (a +:+ b) = a.
Proof.
  rewrite <- (Nat.add_0_r (len a)). by rewrite stake_app_plus, stake_0, sapp_empty_r.
Qed.

Lemma stake_all s : take (len s) s = s.
Proof. induction s as [|c s IH]; simpl; [done | by rewrite IH]. Qed.

Lemma sdrop_all s : drop (len s) s = EmptyString.
Proof. induction s as [|c s IH]; simpl; done. Qed.

Lemma startsWith_app p s : startsWith p (p +:+ s) = true.
Proof.
  induction p as [|c p IH]; [done|]. rewrite sapp_cons. simpl.
  by rewrite Ascii.eqb_refl, IH.
Qed.

Lemma startsWith_spec p s : startsWith p s = true ↔ ∃ r, s = p +:+ r.
Proof.
  split.
  - revert s. induction p as [|c p IH]; intros s; simpl; [by exists s|].
    destruct s as [|d s]; [done|].
    destruct (Ascii.eqb_spec c d) as [->|]; [|done]. simpl.
    intros [r ->]%IH. by exists r.
  - intros [r ->]. apply startsWith_app.
Qed.

Lemma seqb_refl s : String.eqb s s = true.
Proof. by apply String.eqb_eq. Qed.

Lemma endsWith_app p a : endsWith p (a +:+ p) = true.
Proof.
  unfold endsWith. rewrite len_app.
  replace (len a + len p - len p) with (len a + 0) by lia.
  rewrite sdrop_app_plus, sdrop_0, seqb_refl, andb_true_r.
  apply Nat.leb_le. lia.
Qed.

Lemma endsWith_app_r p a b : endsWith p b = true → endsWith p (a +:+ b) = true.
Proof.
  unfold endsWith. intros [Hle Heq]%andb_true_iff.
  apply Nat.leb_le in Hle. rewrite len_app.
  replace (len a + len b - len p) with (len a + (len b - len p)) by lia.
  rewrite sdrop_app_plus, Heq, andb_true_r. apply Nat.leb_le. lia.
Qed.

Lemma includes_app c a b : includes c (a +:+ b) = includes c a || includes c b.
Proof.
  induction a as [|d a IH]; [done|]. rewrite sapp_cons. simpl.
  by rewrite IH, orb_assoc.
Qed.

Lemma trimRight_idemp s : trimRight (trimRight s) = trimRight s.
Proof.
  induction s as [|c s IH]; [done|]. cbn [trimRight].
  destruct (trimRight s) as [|d t] eqn:E.
  - destruct (is_space c) eqn:Hc; [done|]. unfold str. cbn [trimRight]. by rewrite Hc.
  - cbn [trimRight]. cbn [trimRight] in IH. by rewrite IH.
Qed.

(** The last character of a right-trimmed string is no white space. *)
Lemma trimRight_last s :
  match at_neg 1 (trimRight s) with
  | Some c => is_space c = false
  | None => True
  end.
Proof.
  induction s as [|c s IH]; [done|]. cbn [trimRight].
  destruct (trimRight s) as [|d t] eqn:E.
  - destruct (is_space c) eqn:Hc; [done|]. unfold str, at_neg, at_, len. simpl. done.
  - unfold at_neg, at_, len in *. cbn [String.length] in *.
    replace (S (S (String.length t)) <? 1) with false by (symmetry; apply Nat.ltb_ge; lia).
    replace (S (String.length t) <? 1) with false in IH by (symmetry; apply Nat.ltb_ge; lia).
    replace (S (S (String.length t)) - 1) with (S (S (String.length t) - 1)) by lia.
    exact IH.
Qed.

End JsFacts.

(** ** The registry: lookup after registration *)

Module RegistryProps.
Import ParserCollection RegistryFacts.

Section props.
Context {P : Type} `{Named P}.


End props.


End RegistryProps.

(** ** Lines and list items *)

Module LinesProps.
Import Js Lines Shape LinesFacts ListFacts.

(** X2. [grablines] takes the longest run of lines at the head of the
    array that satisfy the predicate: the lines grabbed followed by the
    lines left are the array, every line grabbed satisfies the predicate,
    and the first line left, if there is one, does not. *)
Theorem grablines_longest_prefix (p : string → bool) (lines : list string) :
  let g := (grablines p lines).1 in
  let rest := (grablines p lines).2 in
  lines = g ++ rest
  ∧ Forall (λ l, p l = true) g
  ∧ match rest with [] => True | l :: _ => p l = false end.
Proof.
  intros g rest. subst g rest.
  destruct (grablines p lines) as [g rest] eqn:E. by apply grablines_spec.
Qed.

Lemma last_blank_exists ls :
  last ls = Some EmptyString → existsb blankline ls = true.
Proof.
  intros [l' ->]%last_Some. rewrite existsb_app. simpl. apply orb_true_r.
Qed.

(** X3. [checkloose]: when some item holds a blank line, every item ends
    in a blank line afterwards; otherwise the items are unchanged. An item
    keeps its marker and its lines, with at most one blank line added at
    the end, and a second call changes nothing. *)
Theorem checkloose_spec (items : list item) :
  (if existsb (λ it, existsb blankline (item_lines it)) items
   then Forall (λ it, last (item_lines it) = Some EmptyString) (checkloose items)
   else checkloose items = items)
  ∧ Forall2 (λ it it', item_prefix it' = item_prefix it
               ∧ (item_lines it' = item_lines it
                  ∨ item_lines it' = item_lines it ++ [EmptyString]))
            items (checkloose items)
  ∧ checkloose (checkloose items) = checkloose items.
Proof.
  unfold checkloose at 1 2 3 5.
  destruct (existsb _ items) eqn:Hl.
  - set (f := λ it : item, match last (item_lines it) with
                           | Some l => if blankline l then it
                                       else Item (item_prefix it) (item_lines it ++ [EmptyString])
                           | None => Item (item_prefix it) (item_lines it ++ [EmptyString])
                           end).
    assert (∀ it, last (item_lines (f it)) = Some EmptyString) as Hlast.
    { intros it. unfold f. destruct (last (item_lines it)) as [l|] eqn:E.
      - destruct (blankline l) eqn:Hb; [|simpl; by rewrite last_snoc].
        apply blankline_spec in Hb as ->. done.
      - simpl. by rewrite last_snoc. }
    assert (∀ it, last (item_lines it) = Some EmptyString → f it = it) as Hfix.
    { intros it E. unfold f. by rewrite E. }
    split; [clear Hl; induction items; constructor; [apply Hlast | done]|].
    split.
    + clear Hl. induction items as [|it items IH]; [constructor|].
      cbn [map]. constructor; [|exact IH].
      unfold f. destruct (last (item_lines it)) as [l|];
        [destruct (blankline l)|]; simpl; auto.
    + unfold checkloose. rewrite Hl. fold f.
      assert (existsb (λ it, existsb blankline (item_lines it)) (map f items) = true) as ->.
      { destruct items as [|it items]; [done|]. cbn [map existsb].
        by rewrite (last_blank_exists _ (Hlast it)). }
      rewrite map_map. apply map_ext. intros it. apply Hfix, Hlast.
  - split; [done|]. split.
    + clear Hl. induction items as [|it items IH]; constructor; auto.
    + unfold checkloose. by rewrite Hl.
Qed.

Lemma split_trailing_blanks_last l kept blanks x :
  split_trailing_blanks l = (kept, blanks) → last kept = Some x → blankline x = false.
Proof.
  revert kept blanks. induction l as [|y l IH]; intros kept blanks; cbn [split_trailing_blanks].
  - by intros [= <- <-].
  - destruct (split_trailing_blanks l) as [k b] eqn:E.
    destruct k as [|z k].
    + destruct (blankline y) eqn:Hy; intros [= <- <-]; [done|].
      simpl. by intros [= <-].
    + intros [= <- <-]. rewrite last_cons_cons. by eapply IH.
Qed.

Lemma flatten_app its1 its2 : flatten (its1 ++ its2) = flatten its1 ++ flatten its2.
Proof. unfold flatten. by rewrite map_app, concat_app. Qed.

(** X4. [deblank] loses no line: the lines of the items followed by the
    input are the same before and after, and the markers are unchanged.
    With fewer than two items nothing moves; with two or more, the last
    item does not end in a blank line afterwards. *)
Theorem deblank_conserves (items : list item) (lines : list string) :
  let r := deblank items lines in
  flatten r.1 ++ r.2 = flatten items ++ lines
  ∧ map item_prefix r.1 = map item_prefix items
  ∧ (length items ≤ 1 → r = (items, lines))
  ∧ (2 ≤ length items →
     ∀ it l, last r.1 = Some it → last (item_lines it) = Some l → blankline l = false).
Proof.
  intros r. subst r. unfold deblank.
  destruct items as [|a [|b items]].
  - simpl. repeat split; intros; try done; lia.
  - simpl. repeat split; intros; try done; lia.
  - set (its := a :: b :: items).
    destruct (last its) as [it|] eqn:Hlast.
    2:{ by apply last_None in Hlast. }
    destruct (split_trailing_blanks (item_lines it)) as [kept blanks] eqn:Hs.
    pose proof (split_trailing_blanks_spec _ _ _ Hs) as [Hl _].
    apply last_Some in Hlast as [its' Hits']. rewrite Hits'.
    rewrite removelast_last. cbn [fst snd].
    split.
    { rewrite !flatten_app. unfold flatten. cbn [map concat item_lines].
      rewrite Hl, !app_nil_r, <- !app_assoc. done. }
    split; [by rewrite !map_app|].
    split; [rewrite length_app; simpl; intros; subst its; simpl in Hits';
            destruct its' as [|? [|? ?]]; simpl in *; try done; lia|].
    intros _ it' l. rewrite last_snoc. intros [= <-]. cbn [item_lines].
    by eapply split_trailing_blanks_last.
Qed.

Lemma min_indent_throws len rest l :
  l ∈ rest → blankline l = false → indented l = false →
  min_indent len rest = Throw (TypeError "line.match(/^ +/) is null").
Proof.
  intros Hin Hb Hi. revert len.
  induction rest as [|x rest IH]; intros len; [by apply elem_of_nil in Hin|].
  cbn [min_indent].
  destruct (blankline x) eqn:Hx.
  - apply elem_of_cons in Hin as [->|Hin]; [congruence|]. by apply IH.
  - destruct (count_leading space x) as [|k] eqn:Hk; [done|].
    apply elem_of_cons in Hin as [->|Hin]; [|by apply IH].
    assert (indented x = true) as Hix by (apply indented_count; lia). congruence.
Qed.

(** X5. [dedent] throws a TypeError on an item one of whose lines after the
    first is neither blank nor indented: the match of the leading spaces
    is null there. *)
Theorem dedent_throws_unindented (it : item) (its : list item) l0 rest l :
  item_lines it = l0 :: rest → l ∈ rest → blankline l = false → indented l = false →
  dedent (it :: its) = Throw (TypeError "line.match(/^ +/) is null").
Proof.
  intros Hl Hin Hb Hi. cbn [dedent]. unfold dedent_item. rewrite Hl.
  by rewrite (min_indent_throws _ _ _ Hin Hb Hi).
Qed.

Lemma dedent_throws_unindented_witness :
  dedent [Item "* " ["* a"; "  b"; "c"]; Item "* " ["* d"]]
  = Throw (TypeError "line.match(/^ +/) is null").
Proof.
  apply (dedent_throws_unindented _ _ "* a" ["  b"; "c"] "c"); [done| |done|done].
  by repeat constructor.
Defined.

End LinesProps.

(** ** The line normaliser *)

Module NormalizeProps.
Import Js Top Inputs JsFacts.

Lemma foldl_inv {A B : Type} (Q : A → Prop) (f : A → B → A) (a : A) (l : list B) :
  Q a → (∀ a b, Q a → Q (f a b)) → Q (foldl f a l).
Proof.
  intros Ha Hf. revert a Ha. induction l as [|b l IH]; intros a Ha; simpl; [done|].
  apply IH, Hf, Ha.
Qed.

Lemma split_lines_nonempty s : split_lines s ≠ [].
Proof.
  induction s as [|c s IH]; cbn [split_lines]; [done|].
  destruct (Ascii.eqb c nl); [done|].
  destruct (split_lines s) as [|l ls]; [done|].
  by destruct (Ascii.eqb c cr && startsWith (str nl) s).
Qed.

Lemma join_continuations_nonempty lines : lines ≠ [] → join_continuations lines ≠ [].
Proof.
  destruct lines as [|l ls]; [done|]. intros _. unfold join_continuations.
  apply (foldl_inv (λ j : list string, j ≠ [])); [done|].
  intros joined line Hj.
  destruct (last joined) as [p|]; [destruct (endsWith _ p)|];
    by intros [_ ?]%app_eq_nil.
Qed.

(** X6. The lines that [scratchmark] hands to the block engine: there is
    at least one, and none ends in white space, so right trimming them
    again changes nothing. *)
Theorem normalize_trimmed (doc : string) :
  1 ≤ length (normalize doc)
  ∧ Forall (λ l, trimRight l = l
               ∧ match at_neg 1 l with
                 | Some c => is_space c = false
                 | None => True
                 end) (normalize doc).
Proof.
  unfold normalize. split.
  - rewrite length_map.
    assert (join_continuations (map trimRight (split_lines (replace_first tab "    " doc))) ≠ [])
      as Hne.
    { apply join_continuations_nonempty.
      pose proof (split_lines_nonempty (replace_first tab "    " doc)).
      by destruct (split_lines _). }
    destruct (join_continuations _); [done | simpl; lia].
  - induction (join_continuations _) as [|l ls IH]; cbn [map]; constructor; [|exact IH].
    split; [apply trimRight_idemp | apply trimRight_last].
Qed.

Lemma join_step_spec (acc ls : list string) :
  acc ≠ [] →
  let r := foldl (λ joined line,
                    match last joined with
                    | Some p =>
                        if endsWith (str backslash) p
                        then removelast joined ++ [drop_right 1 p +:+ line]
                        else joined ++ [line]
                    | None => joined ++ [line]
                    end) acc ls in
  length r ≤ length acc + length ls
  ∧ (Forall no_continuation (removelast acc) → Forall no_continuation (removelast r))
  ∧ (Forall no_continuation (removelast (acc ++ ls)) → r = acc ++ ls).
Proof.
  revert acc. induction ls as [|x ls IH]; intros acc Hacc r; subst r; cbn [foldl].
  - rewrite app_nil_r. repeat split; [lia | done].
  - destruct (last acc) as [p|] eqn:Hlast; [|by apply last_None in Hlast].
    apply last_Some in Hlast as [acc' ->].
    rewrite removelast_last.
    destruct (endsWith (str backslash) p) eqn:Hp.
    + destruct (IH (acc' ++ [drop_right 1 p +:+ x])) as (Hlen & Hkeep & _).
      { by intros [_ ?]%app_eq_nil. }
      rewrite removelast_last in Hkeep.
      split; [rewrite !length_app in *; simpl in *; lia|].
      split; [exact Hkeep|].
      rewrite <- app_assoc. cbn [app].
      rewrite removelast_app by done. cbn [removelast].
      intros Hall. apply Forall_app in Hall as [_ Hall].
      inversion Hall as [|? ? Hbad _]; subst. unfold no_continuation in Hbad. congruence.
    + destruct (IH ((acc' ++ [p]) ++ [x])) as (Hlen & Hkeep & Hsame).
      { by intros [_ ?]%app_eq_nil. }
      rewrite removelast_last in Hkeep.
      split; [rewrite !length_app in *; simpl in *; lia|].
      split.
      { intros Hall. apply Hkeep. apply Forall_app. split; [done|].
        by constructor. }
      intros Hall.
      assert (((acc' ++ [p]) ++ [x]) ++ ls = (acc' ++ [p]) ++ x :: ls) as Heq
        by (by rewrite <- !app_assoc).
      rewrite Hsame; [exact Heq | by rewrite Heq].
Qed.

(** X7. Joining line continuations: the result has no more lines than the
    input, only its last line can end in a backslash, and when no line
    of the input but the last ends in a backslash the lines are unchanged. *)
Theorem join_continuations_spec (lines : list string) :
  length (join_continuations lines) ≤ length lines
  ∧ Forall (λ l, endsWith (str backslash) l = false) (removelast (join_continuations lines))
  ∧ (Forall (λ l, endsWith (str backslash) l = false) (removelast lines) →
     join_continuations lines = lines).
Proof.
  destruct lines as [|l ls]; [by repeat split|].
  unfold join_continuations.
  destruct (join_step_spec [l] ls) as (Hlen & Hkeep & Hsame); [done|].
  split; [simpl in *; lia|]. split; [by apply Hkeep; constructor|].
  intros Hall. by apply Hsame.
Qed.

End NormalizeProps.

(** ** The HTML printer *)

Module PrinterProps.
Import Js Printer JsFacts.

(** X8. [html_escape] leaves no angle bracket in its result, changes
    nothing in a text without angle brackets and ampersands, and escapes
    the parts of a text one by one. *)
Theorem html_escape_safe (s : string) :
  includes "<" (html_escape s) = false
  ∧ includes ">" (html_escape s) = false
  ∧ (includes "<" s || includes ">" s || includes "&" s = false → html_escape s = s)
  ∧ ∀ t, html_escape (s +:+ t) = html_escape s +:+ html_escape t.
Proof.
  split; [|split; [|split]].
  - induction s as [|c s IH]; [done|]. cbn [html_escape].
    rewrite includes_app, IH, orb_false_r.
    destruct (Ascii.eqb_spec c ">"); [done|].
    destruct (Ascii.eqb_spec c "&"); [done|].
    destruct (Ascii.eqb_spec c "<"); [done|].
    unfold str. cbn [includes]. rewrite orb_false_r. by apply Ascii.eqb_neq.
  - induction s as [|c s IH]; [done|]. cbn [html_escape].
    rewrite includes_app, IH, orb_false_r.
    destruct (Ascii.eqb_spec c ">"); [done|].
    destruct (Ascii.eqb_spec c "&"); [done|].
    destruct (Ascii.eqb_spec c "<"); [done|].
    unfold str. cbn [includes]. rewrite orb_false_r. by apply Ascii.eqb_neq.
  - induction s as [|c s IH]; [done|]. cbn [html_escape includes].
    rewrite (Ascii.eqb_sym "<" c), (Ascii.eqb_sym ">" c), (Ascii.eqb_sym "&" c).
    destruct (Ascii.eqb c ">"); [by rewrite !orb_true_r|].
    destruct (Ascii.eqb c "&"); [by rewrite !orb_true_r|].
    destruct (Ascii.eqb c "<"); [done|].
    cbn [orb]. intros H. by rewrite IH.
  - intros t. induction s as [|c s IH]; [done|].
    rewrite sapp_cons. cbn [html_escape]. by rewrite IH, sapp_assoc.
Qed.

Lemma printers_inv nm p :
  printers nm = Some p →
  match p with
  | POmit => nm = "omit"
  | PImg => nm = "img"
  | PCode => nm = "code"
  | _ => True
  end.
Proof.
  unfold printers.
  destruct (String.eqb_spec nm "text"); [by intros [= <-]|].
  case_bool_decide; [by intros [= <-]|].
  destruct (String.eqb_spec nm "codeblock"); [by intros [= <-]|].
  destruct (String.eqb_spec nm "hr"); [by intros [= <-]|].
  destruct (String.eqb_spec nm "verbatim"); [by intros [= <-]|].
  destruct (String.eqb_spec nm "omit"); [by intros [= <-]|].
  destruct (String.eqb_spec nm "img"); [by intros [= <-]|].
  destruct (String.eqb_spec nm "code"); [by intros [= <-]|].
  done.
Qed.

Ltac ends_nl :=
  repeat first [ apply endsWith_app | apply endsWith_app_r ].



End PrinterProps.

(** ** The block parsers *)

Module BlockProps.
Import Js Lines Block Inputs JsFacts LinesFacts ListFacts.

Lemma count_leading_hashes n t : count_leading "#" (hashes n +:+ String " " t) = n.
Proof. induction n as [|n IH]; [done|]. cbn [hashes]. rewrite sapp_cons. simpl. by rewrite IH. Qed.

Lemma at_hashes n t : at_ n (hashes n +:+ String " " t) = Some " "%char.
Proof. induction n as [|n IH]; [done|]. cbn [hashes]. rewrite sapp_cons. exact IH. Qed.

Lemma drop_hashes n t : drop (S n) (hashes n +:+ String " " t) = t.
Proof.
  induction n as [|n IH]; [by destruct t|]. cbn [hashes]. rewrite sapp_cons. exact IH.
Qed.

(** X10. Headers: one to six hash signs and a space make a header of that
    level, whose text is what follows, without the hash signs that close
    it; no hash sign, or seven and more, and the parser declines and
    leaves the lines as they are; on an empty array it throws. *)
Theorem header_levels pb pi (n : nat) (t : string) (rest : list string) st :
  let line := hashes n +:+ " " +:+ t in
  (1 ≤ n ≤ 6 →
   bp_parse header pb pi (line :: rest) st
   = (children ← inline_text pi (strip_trailing_hashes t);
      mret (Some (Node.elem ("h" +:+ of_nat n) children), rest)) st)
  ∧ (n = 0 ∨ 7 ≤ n → bp_parse header pb pi (line :: rest) st = Ret (None, line :: rest, st))
  ∧ bp_parse header pb pi [] st = Throw (TypeError "lines[0] is undefined").
Proof.
  intros line. subst line. change (" " +:+ t) with (String " " t).
  cbn [bp_parse header]. unfold header_re.
  rewrite count_leading_hashes, at_hashes.
  rewrite (bool_decide_true (Some " "%char = Some space)) by done.
  rewrite andb_true_r.
  split; [|split; [|done]].
  - intros [H1 H6].
    apply Nat.leb_le in H1 as ->. apply Nat.leb_le in H6 as ->.
    cbn [andb]. by rewrite drop_hashes.
  - intros [->|H7]; [done|].
    replace (n <=? 6) with false by (symmetry; apply Nat.leb_gt; lia).
    by rewrite andb_false_r.
Qed.

Lemma fencehandler_None type :
  type ∉ ["config"; "verbatim"; "omit"] → fencehandler !! type = None.
Proof.
  intros Hn. unfold fencehandler.
  assert (type ≠ "config") by (intros ->; apply Hn; by repeat constructor).
  assert (type ≠ "verbatim") by (intros ->; apply Hn; by repeat constructor).
  assert (type ≠ "omit") by (intros ->; apply Hn; by repeat constructor).
  by rewrite !lookup_insert_ne, lookup_singleton_ne.
Qed.

(** X11. A fence whose type has no handler: the lines up to the next line
    that starts with three backquotes are the code block, that line is
    consumed with it, and the type is kept on the node. Without a closing
    line the block takes every line that is left. *)
Theorem fence_without_handler pb pi (type : string) (block rest : list string) st :
  type ∉ ["config"; "verbatim"; "omit"] →
  Forall (λ l, startsWith "```" l = false) block →
  let node := Obj "codeblock" None
                (Some (map (λ c, Node.text (unescape_fence c)) block))
                None (Some type) None in
  (∀ close, startsWith "```" close = true →
     bp_parse fenced_codeblock pb pi (("```" +:+ type) :: block ++ close :: rest) st
     = Ret (Some node, rest, st))
  ∧ bp_parse fenced_codeblock pb pi (("```" +:+ type) :: block) st
    = Ret (Some node, [], st).
Proof.
  intros Htype Hblock node.
  assert (Forall (λ l, negb (startsWith "```" l) = true) block) as Hb.
  { eapply Forall_impl; [exact Hblock|]. by intros l ->. }
  assert (drop 3 ("```" +:+ type) = type) as Hdrop by apply (sdrop_app "```").
  split.
  - intros close Hclose. cbn [bp_parse fenced_codeblock].
    rewrite startsWith_app, Hdrop.
    rewrite (grablines_app (λ line, negb (startsWith "```" line)) block (close :: rest) Hb)
      by (by rewrite Hclose).
    by rewrite (fencehandler_None _ Htype).
  - cbn [bp_parse fenced_codeblock].
    rewrite startsWith_app, Hdrop.
    pose proof (grablines_app (λ line, negb (startsWith "```" line)) block [] Hb I) as Hg.
    rewrite app_nil_r in Hg. rewrite Hg.
    by rewrite (fencehandler_None _ Htype).
Qed.

Lemma fence_without_handler_witness :
  let node := Obj "codeblock" None
                (Some [Node.text "let x"; Node.text "```inner"]) None (Some "js") None in
  bp_parse fenced_codeblock (Engine.parse_blocks 0) (Inline.parse_inline 0)
    ["```js"; "let x"; "\```inner"; "```"; "after"] initial
  = Ret (Some node, ["after"], initial)
  ∧ bp_parse fenced_codeblock (Engine.parse_blocks 0) (Inline.parse_inline 0)
      ["```js"; "let x"; "\```inner"] initial
    = Ret (Some node, [], initial).
Proof.
  intros node.
  destruct (fence_without_handler (Engine.parse_blocks 0) (Inline.parse_inline 0)
              "js" ["let x"; "\```inner"] ["after"] initial) as [Hclosed Hopen].
  - intros Hin. repeat (apply elem_of_cons in Hin as [Hin|Hin]; [done|]).
    by apply elem_of_nil in Hin.
  - by repeat constructor.
  - split; [by apply (Hclosed "```") | exact Hopen].
Defined.

(** X12. The table parser takes an alignment row that no data row
    accompanies off the input and returns no node: the row is in no tree
    and is not given back to the engine. *)
Theorem table_drops_lone_alignment_row pb pi (l : string) (rest : list string) st :
  startsWith "|" l = true →
  forallb (λ c, negb (String.eqb c EmptyString) && marker_cell c) (columns l) = true →
  match rest with [] => True | l' :: _ => startsWith "|" l' = false end →
  bp_parse table pb pi (l :: rest) st = Ret (None, rest, st).
Proof.
  intros Hl Hcols Hrest. cbn [bp_parse table rows_loop]. unfold row at 1.
  rewrite Hl, Hcols. cbn [Nat.leb andb].
  unfold mbind, M_bind, mret, M_ret. cbn beta iota.
  destruct rest as [|l' rest']; [done|].
  cbn [rows_loop]. unfold row. rewrite Hrest. done.
Qed.

Lemma table_drops_lone_alignment_row_witness :
  bp_parse table (Engine.parse_blocks 0) (Inline.parse_inline 0)
    ["|---|:-:|"; "text"] initial
  = Ret (None, ["text"], initial).
Proof.
  by apply (table_drops_lone_alignment_row _ _ "|---|:-:|" ["text"] initial).
Defined.

Lemma split_no_sep c a : includes c a = false → split c a = [a].
Proof.
  induction a as [|d a IH]; [done|]. cbn [includes split].
  intros [Hd Ha]%orb_false_iff. rewrite Hd, (IH Ha). done.
Qed.

Lemma split_app_sep c a b :
  includes c a = false → split c (a +:+ String c b) = a :: split c b.
Proof.
  induction a as [|d a IH].
  - intros _. rewrite sapp_nil_l. cbn [split]. by rewrite Ascii.eqb_refl.
  - cbn [includes]. intros [Hd Ha]%orb_false_iff.
    rewrite sapp_cons. cbn [split]. by rewrite Hd, (IH Ha).
Qed.

Lemma split_join c cells :
  cells ≠ [] → Forall (λ x, includes c x = false) cells →
  split c (join (str c) cells) = cells.
Proof.
  intros Hne Hall. induction Hall as [|x cells Hx Hall IH]; [done|].
  destruct cells as [|y cells]; [by apply split_no_sep|].
  change (join (str c) (x :: y :: cells))
    with (x +:+ String c (join (str c) (y :: cells))).
  rewrite (split_app_sep _ _ _ Hx), IH; done.
Qed.

Lemma split_join_sep c cells r :
  cells ≠ [] → Forall (λ x, includes c x = false) cells →
  split c (join (str c) cells +:+ String c r) = cells ++ split c r.
Proof.
  intros Hne Hall. induction Hall as [|x cells Hx Hall IH]; [done|].
  destruct cells as [|y cells].
  - cbn [join app]. by apply split_app_sep.
  - change (join (str c) (x :: y :: cells))
      with (x +:+ String c (join (str c) (y :: cells))).
    rewrite sapp_assoc, sapp_cons, (split_app_sep _ _ _ Hx), IH; done.
Qed.

(** X13. The cells of a table row: a line made of a bar, the cells joined
    by bars and a closing bar has exactly these cells; without the closing
    bar the last cell is lost. *)
Theorem columns_round_trip (cells : list string) :
  cells ≠ [] →
  Forall (λ c, includes "|" c = false) cells →
  columns ("|" +:+ join "|" cells +:+ "|") = cells
  ∧ columns ("|" +:+ join "|" cells) = removelast cells.
Proof.
  intros Hne Hall. unfold columns. split.
  - change ("|" +:+ join "|" cells +:+ "|")
      with (String "|" (join (str "|") cells +:+ String "|" EmptyString)).
    cbn [split]. rewrite Ascii.eqb_refl. cbn [tail].
    rewrite (split_join_sep _ _ _ Hne Hall). cbn [split].
    by rewrite removelast_last.
  - change ("|" +:+ join "|" cells) with (String "|" (join (str "|") cells)).
    cbn [split]. rewrite Ascii.eqb_refl. cbn [tail].
    by rewrite (split_join _ _ Hne Hall).
Qed.

Lemma columns_round_trip_witness :
  columns "| a | b |" = [" a "; " b "] ∧ columns "| a | b" = [" a "].
Proof.
  apply (columns_round_trip [" a "; " b "]); [done | by repeat constructor].
Defined.

Lemma bind_None {A : Type} (m : M A) (f : A → option node) (g : A → list string)
    st lines' st' :
  (x ← m; mret (f x, g x)) st = Ret (None, lines', st') →
  ∃ x st1, m st = Ret (x, st1) ∧ f x = None.
Proof.
  intros (x & st1 & Hm & Hr)%bind_Ret. unfold mret, M_ret in Hr.
  injection Hr as Hf _ _. by exists x, st1.
Qed.

(** X14. The contract of the block parsers, [parse] "should leave the lines
    array unchanged" when it returns no node, holds for every built-in
    parser but the table parser: the lines and the state are as they
    were. *)
Theorem decline_leaves_input (bp : bparser) pb pi (lines lines' : list string) st st' :
  bp ∈ [header; blockquote; indented_codeblock; fenced_codeblock; unordered_list;
        ordered_list; horizontal_rule; footnote_def; href_def; html_groups; html_tags] →
  bp_parse bp pb pi lines st = Ret (None, lines', st') →
  lines' = lines ∧ st' = st.
Proof.
  intros Hin.
  repeat (apply elem_of_cons in Hin as [->|Hin]); [..|by apply elem_of_nil in Hin].
  - (* header *)
    cbn [bp_parse header]. destruct lines as [|l rest]; [done|].
    destruct (header_re l) as [n|].
    + by intros (? & ? & _ & H)%(bind_None _ (λ c, Some (Node.elem _ c)) (λ _, rest)).
    + unfold mret, M_ret. by intros [= <- <-].
  - (* blockquote *)
    cbn [bp_parse blockquote].
    destruct (grablines _ lines) as [quoted rest]. destruct quoted as [|q quoted].
    + unfold mret, M_ret. by intros [= <- <-].
    + by intros (? & ? & _ & H)%(bind_None _ (λ c, Some (Node.elem _ c)) (λ _, rest)).
  - (* indented code block *)
    cbn [bp_parse indented_codeblock].
    destruct (grablines _ lines) as [block rest]. destruct block as [|b block].
    + unfold mret, M_ret. by intros [= <- <-].
    + unfold mret, M_ret. done.
  - (* fenced code block *)
    cbn [bp_parse fenced_codeblock]. destruct lines as [|fence lines''].
    { unfold mret, M_ret. by intros [= <- <-]. }
    destruct (startsWith "```" fence).
    + destruct (grablines _ lines'') as [block rest].
      destruct (fencehandler !! drop 3 fence); [done|].
      unfold mret, M_ret. done.
    + unfold mret, M_ret. by intros [= <- <-].
  - (* unordered list *)
    cbn [bp_parse unordered_list].
    destruct (collect _ _ _ _ lines) as [[items marker] rest].
    destruct items as [|it items].
    + unfold mret, M_ret. by intros [= <- <-].
    + by intros [? ?]%finish_list_Ret.
  - (* ordered list *)
    cbn [bp_parse ordered_list].
    destruct (collect _ _ _ _ lines) as [[items style] rest].
    destruct items as [|it items].
    + unfold mret, M_ret. by intros [= <- <-].
    + by intros [? ?]%finish_list_Ret.
  - (* horizontal rule *)
    cbn [bp_parse horizontal_rule]. destruct lines as [|l rest]; [done|].
    destruct (startsWith "***" l || startsWith "---" l || startsWith "___" l);
      unfold mret, M_ret; [done | by intros [= <- <-]].
  - (* footnote definition *)
    cbn [bp_parse footnote_def]. destruct lines as [|l rest]; [done|].
    destruct (footnote_re l) as [[prefix note]|].
    + destruct (grablines _ rest) as [g rest'].
      by intros (? & ? & _ & H)%(bind_None _ (λ _, Some (Node.void "omit")) (λ _, rest')).
    + unfold mret, M_ret. by intros [= <- <-].
  - (* link reference definition *)
    cbn [bp_parse href_def]. destruct lines as [|l rest]; [done|].
    destruct (href_re l) as [[prefix note]|].
    + by intros (? & ? & _ & H)%(bind_None _ (λ _, Some (Node.void "omit")) (λ _, rest)).
    + unfold mret, M_ret. by intros [= <- <-].
  - (* raw HTML groups *)
    cbn [bp_parse html_groups]. destruct lines as [|l rest]; [done|].
    destruct (html_groups_re l) as [prefix|].
    + destruct (grablines _ (l :: rest)) as [g rest']. unfold mret, M_ret. done.
    + unfold mret, M_ret. by intros [= <- <-].
  - (* raw HTML tags *)
    cbn [bp_parse html_tags]. destruct lines as [|l rest].
    { unfold mret, M_ret. by intros [= <- <-]. }
    destruct (html_tags_re l); unfold mret, M_ret; [done | by intros [= <- <-]].
Qed.

Lemma decline_leaves_input_witness :
  bp_parse ordered_list (Engine.parse_blocks 0) (Inline.parse_inline 0)
    ["1.no space"; "2. b"] initial
  = Ret (None, ["1.no space"; "2. b"], initial)
  ∧ ["1.no space"; "2. b"] = ["1.no space"; "2. b"] ∧ initial = initial.
Proof.
  split; [reflexivity|].
  apply (decline_leaves_input ordered_list (Engine.parse_blocks 0) (Inline.parse_inline 0));
    [by repeat constructor | reflexivity].
Defined.

End BlockProps.

(** ** The inline engine *)

Module InlineProps.
Import Js Inline Inputs Total JsFacts ListFacts InlineFacts.

Lemma drop_cons i text c s :
  drop i text = String c s → at_ i text = Some c ∧ drop (S i) text = s ∧ i < len text.
Proof.
  unfold at_, len. revert text.
  induction i as [|i IH]; intros [|a t]; simpl; try done.
  - intros [= -> ->]. split; [done|]. split; [by destruct s | lia].
  - intros H. destruct (IH _ H) as (? & ? & ?). split; [done|]. split; [done | lia].
Qed.

Lemma drop_nil i text : drop i text = EmptyString → len text ≤ i.
Proof.
  unfold len. revert text. induction i as [|i IH]; intros [|a t]; simpl; try done; try lia.
  intros H. specialize (IH _ H). lia.
Qed.

Lemma unescaped_at_here pat text i s prev :
  drop i text = s → i ≤ len text →
  prev = match i with 0 => None | S i' => at_ i' text end →
  unescaped_at pat text i
  = startsWith pat s && negb (bool_decide (prev = Some backslash)).
Proof.
  intros <- Hi ->. unfold unescaped_at.
  by replace (i <=? len text) with true by (symmetry; by apply Nat.leb_le).
Qed.

Lemma scan_spec pat start text s :
  ∀ i prev,
    drop i text = s → i ≤ len text →
    prev = match i with 0 => None | S i' => at_ i' text end →
    match scan pat start prev i s with
    | Some j =>
        start ≤ j ∧ i ≤ j ≤ len text ∧ unescaped_at pat text j = true
        ∧ ∀ k, start ≤ k → i ≤ k → k < j → unescaped_at pat text k = false
    | None => ∀ k, start ≤ k → i ≤ k → unescaped_at pat text k = false
    end.
Proof.
  induction s as [|c s IH]; intros i prev Hs Hi Hprev; cbn [scan].
  - pose proof (unescaped_at_here pat text i _ prev Hs Hi Hprev) as Hu.
    destruct (Nat.leb_spec start i) as [Hsi|Hsi]; cbn [andb].
    + rewrite <- Hu. destruct (unescaped_at pat text i) eqn:E.
      * split; [done|]. split; [lia|]. split; [done|]. intros; lia.
      * intros k Hk Hik. apply drop_nil in Hs.
        destruct (decide (k = i)) as [->|]; [done|].
        unfold unescaped_at.
        replace (k <=? len text) with false by (symmetry; apply Nat.leb_gt; lia). done.
    + intros k Hk Hik. apply drop_nil in Hs. unfold unescaped_at.
      replace (k <=? len text) with false by (symmetry; apply Nat.leb_gt; lia). done.
  - pose proof (unescaped_at_here pat text i _ prev Hs Hi Hprev) as Hu.
    destruct (drop_cons _ _ _ _ Hs) as (Hat & Hdrop & Hlt).
    specialize (IH (S i) (Some c) Hdrop Hlt (eq_sym Hat)).
    assert ((start <=? i) && startsWith pat (String c s)
            && negb (bool_decide (prev = Some backslash)) = true
            ∨ (start ≤ i → unescaped_at pat text i = false)) as [Hyes|Hno].
    { destruct (Nat.leb_spec start i) as [Hsi|Hsi]; cbn [andb].
      - rewrite <- Hu. destruct (unescaped_at pat text i); [by left | by right].
      - right. lia. }
    + rewrite Hyes. apply andb_true_iff in Hyes as [[Hsi%Nat.leb_le H1]%andb_true_iff H2].
      split; [done|]. split; [lia|]. split; [by rewrite Hu, H1, H2|]. intros; lia.
    + destruct ((start <=? i) && startsWith pat (String c s)
                && negb (bool_decide (prev = Some backslash))) eqn:Ht.
      { apply andb_true_iff in Ht as [[Hsi%Nat.leb_le H1]%andb_true_iff H2].
        rewrite Hu, H1, H2 in Hno. by specialize (Hno Hsi). }
      destruct (scan pat start (Some c) (S i) s) as [j|].
      * destruct IH as (Hsj & Hij & Huj & Hmin).
        split; [done|]. split; [lia|]. split; [done|].
        intros k Hk Hik Hkj. destruct (decide (k = i)) as [->|]; [by apply Hno|].
        apply Hmin; lia.
      * intros k Hk Hik. destruct (decide (k = i)) as [->|]; [by apply Hno|].
        apply IH; lia.
Qed.

Lemma make_indexOf_spec pat text start :
  match make_indexOf pat text start with
  | Some j =>
      start ≤ j ≤ len text ∧ unescaped_at pat text j = true
      ∧ ∀ k, start ≤ k < j → unescaped_at pat text k = false
  | None => ∀ k, start ≤ k → unescaped_at pat text k = false
  end.
Proof.
  unfold make_indexOf.
  pose proof (scan_spec pat start text text 0 None (sdrop_0 text) (Nat.le_0_l _) eq_refl) as H.
  destruct (scan pat start None 0 text) as [j|].
  - destruct H as (? & ? & ? & Hmin). split; [lia|]. split; [done|].
    intros k [? ?]. apply Hmin; lia.
  - intros k Hk. apply H; lia.
Qed.

(** X15. [make_indexOf(str)] returns the first index at or after [start]
    where [str] stands with no backslash in front of it, and -1 when
    there is no such index. *)
Theorem make_indexOf_first (pat text : string) (start : nat) :
  match make_indexOf pat text start with
  | Some j =>
      start ≤ j ≤ len text ∧ unescaped_at pat text j = true
      ∧ ∀ k, start ≤ k < j → unescaped_at pat text k = false
  | None => ∀ k, start ≤ k → unescaped_at pat text k = false
  end.
Proof. apply make_indexOf_spec. Qed.

Lemma select_inv text cursor ps :
  ∀ idx first,
    let '(i, f, kept) := select text cursor ps idx first in
    kept = List.filter (λ p, Wf.present (ip_indexOf p text cursor)) ps
    ∧ i ≤ idx
    ∧ Forall (λ p, ∀ j, ip_indexOf p text cursor = Some j → i ≤ j) ps
    ∧ (i = idx ∧ f = first
       ∨ ∃ k p, ps !! k = Some p ∧ f = Some p
                ∧ ip_indexOf p text cursor = Some i ∧ i < idx
                ∧ ∀ k' q j, k' < k → ps !! k' = Some q →
                            ip_indexOf q text cursor = Some j → i < j).
Proof.
  induction ps as [|p ps IH]; intros idx first; cbn [select List.filter].
  { repeat split; [done | constructor | by left]. }
  destruct (ip_indexOf p text cursor) as [idxp|] eqn:Hp; cbn [Wf.present].
  - destruct (Nat.ltb_spec idxp idx) as [Hlt|Hge].
    + specialize (IH idxp (Some p)).
      destruct (select text cursor ps idxp (Some p)) as [[i f] kept].
      destruct IH as (-> & Hle & Hall & Hf).
      split; [done|]. split; [lia|].
      split; [constructor; [intros j Hj; rewrite Hp in Hj; injection Hj as <-; lia | done]|].
      right. destruct Hf as [[-> ->]|(k & q & Hk & -> & Hq & Hi & Hfirst)].
      * exists 0, p. repeat split; try done. intros; lia.
      * exists (S k), q. repeat split; try done; [lia|].
        intros [|k'] q' j Hk' Hq' Hj.
        -- simpl in Hq'. injection Hq' as <-. rewrite Hp in Hj. injection Hj as <-. done.
        -- apply (Hfirst k' q' j); [lia | done | done].
    + specialize (IH idx first).
      destruct (select text cursor ps idx first) as [[i f] kept].
      destruct IH as (-> & Hle & Hall & Hf).
      split; [done|]. split; [done|].
      split; [constructor; [intros j Hj; rewrite Hp in Hj; injection Hj as <-; lia | done]|].
      destruct Hf as [[-> ->]|(k & q & Hk & -> & Hq & Hi & Hfirst)]; [by left|].
      right. exists (S k), q. repeat split; try done.
      intros [|k'] q' j Hk' Hq' Hj.
      * simpl in Hq'. injection Hq' as <-. rewrite Hp in Hj. injection Hj as <-. lia.
      * apply (Hfirst k' q' j); [lia | done | done].
  - specialize (IH idx first).
    destruct (select text cursor ps idx first) as [[i f] kept].
    destruct IH as (-> & Hle & Hall & Hf).
    split; [done|]. split; [done|].
    split; [constructor; [intros j Hj; by rewrite Hp in Hj | done]|].
    destruct Hf as [[-> ->]|(k & q & Hk & -> & Hq & Hi & Hfirst)]; [by left|].
    right. exists (S k), q. repeat split; try done.
    intros [|k'] q' j Hk' Hq' Hj.
    + simpl in Hq'. injection Hq' as <-. by rewrite Hp in Hj.
    + apply (Hfirst k' q' j); [lia | done | done].
Qed.

(** X16. One pass over the inline parsers: the parsers kept for the next
    pass are those that still match somewhere; the index chosen is not
    behind the terminator and not behind any match; and when a parser
    is chosen, it matches at that index, in front of the terminator, and
    every parser registered before it matches only further on. *)
Theorem select_nearest (text : string) (cursor : nat) (ps : list iparser)
    (idx : nat) (first : option iparser) :
  let '(i, f, kept) := select text cursor ps idx first in
  kept = List.filter (λ p, Wf.present (ip_indexOf p text cursor)) ps
  ∧ i ≤ idx
  ∧ Forall (λ p, ∀ j, ip_indexOf p text cursor = Some j → i ≤ j) ps
  ∧ (i = idx ∧ f = first
     ∨ ∃ k p, ps !! k = Some p ∧ f = Some p
              ∧ ip_indexOf p text cursor = Some i ∧ i < idx
              ∧ ∀ k' q j, k' < k → ps !! k' = Some q →
                          ip_indexOf q text cursor = Some j → i < j).
Proof. apply select_inv. Qed.

(** *** Plain text *)

Lemma startsWith_includes c pat s :
  startsWith pat s = true → includes c pat = true → includes c s = true.
Proof.
  revert s. induction pat as [|a pat IH]; intros s; [done|].
  destruct s as [|b s]; [done|]. cbn [startsWith includes].
  intros [Hab Hs]%andb_true_iff. apply Ascii.eqb_eq in Hab as <-.
  intros [->|Hc]%orb_true_iff; [done|]. by rewrite (IH _ Hs Hc), orb_true_r.
Qed.

Lemma scan_absent c pat start s :
  includes c pat = true → includes c s = false →
  ∀ prev i, scan pat start prev i s = None.
Proof.
  intros Hpat. induction s as [|d s IH]; intros Hs prev i; cbn [scan].
  - destruct (startsWith pat EmptyString) eqn:E.
    + by rewrite (startsWith_includes _ _ _ E Hpat) in Hs.
    + by rewrite andb_false_r.
  - destruct (startsWith pat (String d s)) eqn:E.
    + by rewrite (startsWith_includes _ _ _ E Hpat) in Hs.
    + rewrite andb_false_r. cbn [andb]. apply IH.
      cbn [includes] in Hs. by apply orb_false_iff in Hs as [_ ?].
Qed.

Lemma select_none text cursor ps idx first :
  Forall (λ p, ip_indexOf p text cursor = None) ps →
  select text cursor ps idx first = (idx, first, []).
Proof.
  induction 1 as [|p ps Hp _ IH]; cbn [select]; [done|]. by rewrite Hp.
Qed.

Lemma plain_no_parser text cursor :
  plain text = true → Forall (λ p, ip_indexOf p text cursor = None) inlineparsers.
Proof.
  unfold plain. intros Hp. apply negb_true_iff in Hp.
  cbn [existsb] in Hp.
  apply orb_false_iff in Hp as [Hstar Hp]. apply orb_false_iff in Hp as [Hunder Hp].
  apply orb_false_iff in Hp as [Hcaret Hp]. apply orb_false_iff in Hp as [Htilde Hp].
  apply orb_false_iff in Hp as [Hquote Hp]. apply orb_false_iff in Hp as [Hbracket _].
  rewrite inlineparsers_builtin. unfold builtin, footnote_cite.
  repeat constructor; cbn [ip_indexOf delimited capture link img]; unfold make_indexOf.
  - by apply (scan_absent "*").
  - by apply (scan_absent "*").
  - by apply (scan_absent "_").
  - by apply (scan_absent "_").
  - by apply (scan_absent "^").
  - by apply (scan_absent "~").
  - by apply (scan_absent "`").
  - by apply (scan_absent "[").
  - by apply (scan_absent "[").
  - by apply (scan_absent "[").
Qed.

(** X17. A text in which no inline parser can start is returned as one
    inline text node, without the backslashes that [noesc] removes, and
    the cursor is at its end; the empty text gives no node. *)
Theorem plain_text_one_node (fuel : nat) (text : string) st :
  plain text = true →
  parse_inline (S fuel) text None 0 st
  = Ret (if String.eqb text EmptyString then []
         else [Obj "text" None None (Some (noesc text)) (Some "inline") None],
         len text, st).
Proof.
  intros Hp. unfold parse_inline. cbn [run].
  destruct text as [|c text]; [done|].
  replace (0 <? len (String c text)) with true by done.
  rewrite (select_none _ _ _ _ _ (plain_no_parser _ 0 Hp)).
  cbn [ender_indexOf].
  replace (0 <? len (String c text)) with true by done.
  unfold slice. rewrite Nat.sub_0_r, sdrop_0, stake_all. done.
Qed.

Lemma plain_text_one_node_witness :
  parse_inline 1 "2 > 1 \& so on" None 0 initial
  = Ret ([Obj "text" None None (Some "2 > 1 & so on") (Some "inline") None], 14, initial).
Proof. by apply (plain_text_one_node 0 "2 > 1 \& so on" initial). Defined.

(** *** The inline engine returns *)

Lemma returns_ret {A : Type} (a : A) (Q : A → Prop) : Q a → returns (mret a) Q.
Proof. intros HQ st. by exists a, st. Qed.

Lemma returns_bind {A B : Type} (m : M A) (f : A → M B) (Q : A → Prop) (R : B → Prop) :
  returns m Q → (∀ a, Q a → returns (f a) R) → returns (m ≫= f) R.
Proof.
  intros Hm Hf st. destruct (Hm st) as (a & st1 & Hst & Ha).
  unfold mbind, M_bind. rewrite Hst. by apply Hf.
Qed.

Lemma returns_weaken {A : Type} (m : M A) (Q R : A → Prop) :
  returns m Q → (∀ a, Q a → R a) → returns m R.
Proof.
  intros Hm HQR st. destruct (Hm st) as (a & st1 & Hst & Ha). exists a, st1. auto.
Qed.

Lemma returns_modify f : returns (St.modify f) (λ _, True).
Proof. intros st. by eexists _, _. Qed.

Lemma returns_alloc o : returns (St.alloc o) (λ _, True).
Proof. intros st. by eexists _, _. Qed.

Lemma returns_mapM {A B : Type} (f : A → M B) l :
  (∀ x, returns (f x) (λ _, True)) → returns (St.mapM f l) (λ _, True).
Proof.
  intros Hf. induction l as [|x l IH]; cbn [St.mapM]; [by apply returns_ret|].
  eapply returns_bind; [apply Hf|]. intros y _.
  eapply returns_bind; [apply IH|]. intros ys _. by apply returns_ret.
Qed.

Lemma returns_mark_inline n : returns (mark_inline n) (λ _, True).
Proof.
  destruct n; cbn [mark_inline]; try by apply returns_ret.
  eapply returns_bind; [apply returns_modify|]. intros _ _. by apply returns_ret.
Qed.

Lemma returns_finish ast cursor : returns (finish ast cursor) (λ r, r.2 = cursor).
Proof.
  unfold finish. eapply returns_bind; [apply returns_mapM, returns_mark_inline|].
  intros ast' _. by apply returns_ret.
Qed.

Lemma grab_Some text c target start end_ok txt c' :
  grab text c target start end_ok = Some (txt, c') →
  c + start ≤ c' ∨ c' = len text.
Proof.
  unfold grab. pose proof (make_indexOf_spec target text (c + start)) as H.
  destruct (make_indexOf target text (c + start)) as [idx|].
  - intros [= _ <-]. left. lia.
  - destruct end_ok; [|done]. intros [= _ <-]. by right.
Qed.

Lemma grab_end_ok text c target start :
  ∃ txt c', grab text c target start true = Some (txt, c').
Proof.
  unfold grab. destruct (make_indexOf target text (c + start)); by eexists _, _.
Qed.

Lemma progresses_delimited name s e : 0 < len s → progresses (delimited name s e).
Proof.
  intros Hs pi text cursor Hc Hpi. cbn [ip_parse delimited].
  eapply returns_bind; [apply (Hpi (Some e) (cursor + len s)); lia|].
  intros [children c] Hge. apply returns_ret. simpl in *. lia.
Qed.

Lemma progresses_capture name s e process textfilter :
  0 < len s →
  (∀ txt, returns (process (Node.elem name [Node.text txt])) (λ _, True)) →
  progresses (capture name s e process textfilter).
Proof.
  intros Hs Hprocess pi text cursor Hc Hpi. cbn [ip_parse capture].
  destruct (grab_end_ok text (cursor + len s) e 0) as (txt & c & Hg).
  rewrite Hg. apply grab_Some in Hg.
  eapply returns_bind; [apply Hprocess|].
  intros n _. apply returns_ret. simpl. lia.
Qed.

Lemma returns_footnote_cite_process name txt :
  returns (footnote_cite_process (Node.elem name [Node.text txt])) (λ _, True).
Proof.
  cbn [footnote_cite_process Node.elem Node.text Node.children].
  eapply returns_bind; [apply returns_alloc|]. intros a _.
  eapply returns_bind; [apply returns_modify|]. intros _ _. by apply returns_ret.
Qed.

Lemma progresses_link : progresses link.
Proof.
  intros pi text cursor Hc Hpi. cbn [ip_parse link].
  eapply returns_bind; [apply (Hpi (Some "](") (S cursor)); lia|].
  intros [children c] Hge. simpl in Hge.
  destruct (grab text c ")" 2 false) as [[href c']|] eqn:Hg; [|by apply returns_ret].
  apply grab_Some in Hg.
  destruct (JsNumber.loose_eq_minus_one href); [by apply returns_ret|].
  eapply returns_bind; [apply returns_alloc|]. intros a _.
  eapply returns_bind; [apply returns_modify|]. intros _ _.
  apply returns_ret. simpl. lia.
Qed.

Lemma progresses_img : progresses img.
Proof.
  intros pi text cursor Hc Hpi. cbn [ip_parse img].
  destruct (grab text (cursor + 2) "](" 0 false) as [[alt c]|] eqn:Hg;
    [|by apply returns_ret].
  apply grab_Some in Hg.
  destruct (JsNumber.loose_eq_minus_one alt); [by apply returns_ret|].
  destruct (grab text c ")" 2 false) as [[src c']|] eqn:Hg'; [|by apply returns_ret].
  apply grab_Some in Hg'.
  destruct (JsNumber.loose_eq_minus_one src); [by apply returns_ret|].
  eapply returns_bind; [apply returns_alloc|]. intros a _.
  eapply returns_bind; [apply returns_modify|]. intros _ _.
  apply returns_ret. simpl. lia.
Qed.

Lemma progresses_inlineparsers : Forall progresses inlineparsers.
Proof.
  rewrite inlineparsers_builtin. unfold builtin, footnote_cite.
  repeat constructor;
    try (apply progresses_delimited; simpl; lia);
    try apply progresses_link; try apply progresses_img.
  - apply progresses_capture; [simpl; lia|]. intros txt. by apply returns_ret.
  - apply progresses_capture; [simpl; lia|]. apply returns_footnote_cite_process.
Qed.

Lemma ender_indexOf_le ender text cursor : ender_indexOf ender text cursor ≤ len text.
Proof.
  destruct ender as [e|]; cbn [ender_indexOf]; [|done].
  pose proof (make_indexOf_spec e text cursor) as H.
  destruct (make_indexOf e text cursor); simpl; lia.
Qed.

Lemma at_Some i text : i < len text → ∃ c, at_ i text = Some c.
Proof.
  unfold at_, len. revert i. induction text as [|a t IH]; intros i; simpl; [lia|].
  destruct i as [|i]; [by eexists|]. intros Hi. apply IH. lia.
Qed.

Lemma run_returns fuel :
  ∀ text ender current cursor ast,
    Forall progresses current → len text - cursor < fuel →
    returns (run fuel text ender current cursor ast) (λ r, cursor ≤ r.2).
Proof.
  induction fuel as [|fuel IH]; intros text ender current cursor ast Hcur Hfuel; [lia|].
  cbn [run].
  destruct (Nat.ltb_spec cursor (len text)) as [Hlt|Hge].
  2:{ eapply returns_weaken; [apply returns_finish|]. intros r ->. done. }
  pose proof (select_inv text cursor current (ender_indexOf ender text cursor) None) as Hsel.
  pose proof (ender_indexOf_le ender text cursor) as Hend.
  destruct (select text cursor current _ None) as [[idx first] current'].
  destruct Hsel as (Hkept & Hle & _ & Hfirst).
  assert (Forall progresses current') as Hcur'.
  { rewrite Hkept. clear -Hcur.
    induction Hcur as [|p ps Hp _ IHps]; cbn [List.filter]; [constructor|].
    destruct (Wf.present _); [by constructor | done]. }
  set (ac := if cursor <? idx
             then (ast ++ [Node.text (noesc (slice cursor idx text))], idx)
             else (ast, cursor)).
  assert (cursor ≤ ac.2 ∧ (ac.2 = idx ∨ ac.2 = cursor)) as [Hc1 Hc1'].
  { subst ac. destruct (Nat.ltb_spec cursor idx); simpl; lia. }
  destruct ac as [ast1 cursor1]. simpl in Hc1, Hc1'.
  destruct first as [p|].
  2:{ eapply returns_weaken; [apply returns_finish|]. intros r ->. done. }
  destruct Hfirst as [[_ [=]]|(k & q & Hk & [= <-] & _ & Hi & _)].
  assert (progresses p) as Hp.
  { eapply Forall_forall in Hcur; [done|]. by eapply list_elem_of_lookup_2. }
  assert (cursor1 < len text) as Hlt1 by lia.
  eapply returns_bind.
  { apply Hp; [done|]. intros e c Hc. apply IH; [apply progresses_inlineparsers | lia]. }
  intros [r cursor2] Hr. simpl in Hr.
  destruct r as [n|].
  - eapply returns_weaken; [apply IH; [done | lia]|]. intros r' Hr'. simpl in *. lia.
  - subst cursor2. destruct (at_Some _ _ Hlt1) as [ch ->].
    eapply returns_weaken; [apply IH; [done | lia]|]. intros r' Hr'. simpl in *. lia.
Qed.

(** X18. The inline engine is total: on every text, with every terminator,
    from every cursor and state, [parse_inline] returns nodes and a
    cursor that is not in front of the one it was given, once the fuel
    exceeds the number of characters behind the cursor. No built-in
    inline parser throws. *)
Theorem parse_inline_returns (fuel : nat) (text : string) (ender : option string)
    (cursor : nat) st :
  len text - cursor < fuel →
  ∃ ast c st', parse_inline fuel text ender cursor st = Ret (ast, c, st') ∧ cursor ≤ c.
Proof.
  intros Hfuel. unfold parse_inline.
  destruct (run_returns fuel text ender inlineparsers cursor []
              progresses_inlineparsers Hfuel st) as ([ast c] & st' & Hrun & Hc).
  by exists ast, c, st'.
Qed.

Lemma parse_inline_returns_witness :
  ∃ ast c st',
    parse_inline 12 "a *b [c](d" (Some "]") 0 initial = Ret (ast, c, st') ∧ 0 ≤ c.
Proof.
  apply (parse_inline_returns 12 "a *b [c](d" (Some "]") 0 initial). simpl. lia.
Defined.

End InlineProps.

(** ** Markers, footnote definitions and link reference definitions *)

Module DefsProps.
Import Js Lines Block Inputs Shape JsFacts LinesFacts CollectFacts ListFacts.

Lemma take_two n l m e :
  at_ n l = Some m → at_ (S n) l = Some e →
  take (n + 2) l = take n l +:+ String m (String e EmptyString)
  ∧ len (take n l) = n.
Proof.
  unfold at_, len. revert l. induction n as [|n IH]; intros [|a l]; simpl; try done.
  - intros [= ->]. destruct l as [|b l]; simpl; [done|]. intros [= ->].
    split; [|done]. by destruct l.
  - intros H1 H2. destruct (IH l H1 H2) as [-> ->]. done.
Qed.

Lemma run_then_close_Some pr l p :
  run_then_close pr l = Some p →
  ∃ body m, p = body +:+ String m " " ∧ 1 ≤ len body ∧ (m = ")" ∨ m = ".")%char.
Proof.
  unfold run_then_close.
  destruct (1 <=? span pr l) eqn:Hn; [|done]. apply Nat.leb_le in Hn.
  case_bool_decide as Hm; [|done]. case_bool_decide as He; [|done].
  cbn [andb]. intros [= <-].
  assert (∃ m, at_ (span pr l) l = Some m ∧ (m = ")" ∨ m = ".")%char) as (m & Hat & Hm').
  { destruct Hm as [Hm|Hm]; eexists; (split; [exact Hm|]); auto. }
  destruct (take_two _ _ _ _ Hat He) as [Ht Hl].
  exists (take (span pr l) l), m. rewrite Ht, Hl. done.
Qed.

Lemma ordered_re_shape l p :
  ordered_re l = Some p →
  ∃ body m, p = body +:+ String m " " ∧ 1 ≤ len body ∧ (m = ")" ∨ m = ".")%char.
Proof.
  unfold ordered_re.
  destruct (run_then_close is_digit l) as [q|] eqn:Hd.
  { intros [= <-]. by eapply run_then_close_Some. }
  assert (run_then_close is_roman l = Some p →
          ∃ body m, p = body +:+ String m " " ∧ 1 ≤ len body ∧ (m = ")" ∨ m = ".")%char)
    as Hr by apply run_then_close_Some.
  destruct l as [|c [|d [|e r]]]; try exact Hr.
  destruct (is_alpha c && (Ascii.eqb d ")" || Ascii.eqb d ".") && Ascii.eqb e " ") eqn:Ha;
    [|exact Hr].
  apply andb_true_iff in Ha as [[_ Hd']%andb_true_iff He%Ascii.eqb_eq]. subst e.
  intros [= <-]. exists (String c EmptyString), d.
  split; [by destruct r|]. split; [simpl; lia|].
  apply orb_true_iff in Hd' as [->%Ascii.eqb_eq| ->%Ascii.eqb_eq]; auto.
Qed.

Lemma at_app_len a m r : at_ (len a) (a +:+ String m r) = Some m.
Proof. unfold at_, len. induction a as [|c a IH]; [done|]. rewrite sapp_cons. exact IH. Qed.

(** X19. The style of a list marker that the regular expression of ordered
    lists accepts: the marker is a non-empty body, a closing mark and a
    space, and [getstyle] returns two characters, one of the five types
    of an HTML list and the closing mark. *)
Theorem ordered_style (l p : string) :
  ordered_re l = Some p →
  ∃ body m k,
    p = body +:+ String m " " ∧ 1 ≤ len body ∧ (m = ")" ∨ m = ".")%char
    ∧ getstyle p = String k (String m EmptyString)
    ∧ k ∈ ["1"; "I"; "i"; "A"; "a"]%char.
Proof.
  intros (body & m & -> & Hbody & Hm)%ordered_re_shape.
  exists body, m.
  assert (at_neg 2 (body +:+ String m " ") = Some m) as Hend.
  { unfold at_neg. rewrite len_app.
    replace (len body + len (String m " ") <? 2) with false
      by (symmetry; apply Nat.ltb_ge; simpl; lia).
    replace (len body + len (String m " ") - 2) with (len body) by (simpl; lia).
    apply at_app_len. }
  unfold getstyle. rewrite Hend.
  destruct body as [|c body]; [simpl in Hbody; lia|].
  rewrite sapp_cons. cbn [at_ String.get].
  destruct (includes c "0123456789");
    [|destruct (includes c "IVMXL");
      [|destruct (includes c "ivmxl"); [|destruct (includes c "ABCDEFGHIJK")]]];
    eexists; (split; [done|]); (split; [done|]); (split; [done|]);
    (split; [reflexivity|]); by repeat constructor.
Qed.

Lemma ordered_style_witness :
  ordered_re "iv) four" = Some "iv) "
  ∧ ∃ body m k,
      "iv) " = body +:+ String m " " ∧ 1 ≤ len body ∧ (m = ")" ∨ m = ".")%char
      ∧ getstyle "iv) " = String k (String m EmptyString)
      ∧ k ∈ ["1"; "I"; "i"; "A"; "a"]%char.
Proof.
  split; [reflexivity|]. by apply (ordered_style "iv) four" "iv) ").
Defined.

(** *** Footnote definitions as list items *)

Lemma footnote_lines_shape prefix l g :
  ∃ x ys,
    footnote_lines prefix (l :: g)
    = String "1" (String ")" (String " " x))
      :: map (λ c, String " " (String " " (String " " c))) ys.
Proof.
  unfold footnote_lines. cbn [map].
  exists (drop (len prefix) (strip_spaces (len prefix) l)),
         (map (strip_spaces (len prefix)) g).
  f_equal; rewrite ?map_map; done.
Qed.

Lemma ordered_re_one x : ordered_re (String "1" (String ")" (String " " x))) = Some "1) ".
Proof.
  unfold ordered_re, run_then_close.
  replace (span is_digit (String "1" (String ")" (String " " x)))) with 1 by done.
  cbn [at_ String.get Nat.leb andb].
  rewrite bool_decide_true by (by left). rewrite bool_decide_true by done.
  done.
Qed.

Lemma list_item_one chk x ys rest :
  chk "1) " = true →
  match rest with [] => True | l :: _ => indented l || blankline l = false end →
  let lines := String "1" (String ")" (String " " x))
               :: map (λ c, String " " (String " " (String " " c))) ys in
  list_item ordered_re chk (lines ++ rest) = Some (Item "1) " lines, rest).
Proof.
  intros Hchk Hrest lines. subst lines. cbn [app]. unfold list_item.
  rewrite ordered_re_one, Hchk. cbn [negb andb String.eqb Ascii.eqb Bool.eqb].
  rewrite (grablines_app (λ line, indented line || blankline line)); [done| |done].
  clear. induction ys; constructor; done.
Qed.

Lemma collect_footnotes (ds : list (string * list string)) :
  Forall (λ d, d.2 ≠ []) ds →
  ∀ n style,
    length ds ≤ n → style = None ∨ style = Some "1)" →
    collect n ordered_re getstyle style (concat (map (λ d, footnote_lines d.1 d.2) ds))
    = (map (λ d, Item "1) " (footnote_lines d.1 d.2)) ds,
       match ds with [] => style | _ => Some "1)" end, []).
Proof.
  induction 1 as [|[prefix ls] ds Hd Hds IH]; intros n style Hn Hstyle.
  { by destruct n. }
  destruct n as [|n]; [simpl in Hn; lia|].
  cbn [map concat fst snd] in *. cbn [collect].
  destruct ls as [|l g]; [done|].
  destruct (footnote_lines_shape prefix l g) as (x & ys & Hshape).
  rewrite Hshape.
  rewrite list_item_one.
  - cbn [item_prefix].
    rewrite (IH n (Some (default (getstyle "1) ") style)));
      [|simpl in Hn; lia | destruct Hstyle as [-> | ->]; by right].
    destruct Hstyle as [-> | ->]; by destruct ds.
  - destruct Hstyle as [-> | ->]; [done|]. by rewrite bool_decide_true.
  - destruct ds as [|[prefix' ls'] ds']; [done|].
    inversion Hds as [|? ? Hd' _]; subst. cbn [map concat fst snd] in *.
    destruct ls' as [|l' g']; [done|].
    destruct (footnote_lines_shape prefix' l' g') as (x' & ys' & ->). done.
Qed.

(** X20. The lines that the footnote definitions are turned into parse as
    one ordered list: whatever the definitions hold, the list parser
    collects one item for each of them, marked [1)], and builds a list
    that starts at 1 and takes every line. *)
Theorem footnotes_make_one_list pb pi (ds : list (string * list string)) st :
  ds ≠ [] → Forall (λ d, d.2 ≠ []) ds →
  bp_parse ordered_list pb pi (concat (map (λ d, footnote_lines d.1 d.2) ds)) st
  = finish_list pb (map (λ d, Item "1) " (footnote_lines d.1 d.2)) ds) []
      (Node.elem_attrs "ol" [("start", VStr "1"); ("type", VStr "1")]) st.
Proof.
  intros Hne Hds. cbn [bp_parse ordered_list].
  assert (length ds ≤ length (concat (map (λ d, footnote_lines d.1 d.2) ds))) as Hlen.
  { clear Hne. induction Hds as [|[prefix ls] ds Hd _ IH]; [done|].
    cbn [map concat fst snd] in *. rewrite length_app.
    destruct ls as [|l g]; [done|].
    destruct (footnote_lines_shape prefix l g) as (x & ys & ->). simpl in *. lia. }
  rewrite (collect_footnotes ds Hds _ None Hlen (or_introl eq_refl)).
  by destruct ds.
Qed.

Lemma footnotes_make_one_list_witness :
  let ds := [("[^b]: ", ["[^b]: second"; "    more"]); ("[^a]:", ["[^a]:first"])] in
  concat (map (λ d, footnote_lines d.1 d.2) ds)
  = ["1) second"; "   more"; "1) first"]
  ∧ bp_parse ordered_list (Engine.parse_blocks 0) (Inline.parse_inline 0)
      ["1) second"; "   more"; "1) first"] initial
    = finish_list (Engine.parse_blocks 0)
        [Item "1) " ["1) second"; "   more"]; Item "1) " ["1) first"]] []
        (Node.elem_attrs "ol" [("start", VStr "1"); ("type", VStr "1")]) initial.
Proof.
  intros ds. split; [reflexivity|].
  apply (footnotes_make_one_list (Engine.parse_blocks 0) (Inline.parse_inline 0) ds initial);
    [done | by repeat constructor].
Defined.

(** *** Link reference definitions *)

Lemma span_le pr s : span pr s ≤ len s.
Proof. unfold len. induction s as [|c s IH]; simpl; [done|]. destruct (pr c); lia. Qed.

Lemma span_app pr a c r :
  span pr a = len a → pr c = false → span pr (a +:+ String c r) = len a.
Proof.
  unfold len. induction a as [|d a IH]; intros Ha Hc.
  - rewrite sapp_nil_l. cbn [span String.length]. by rewrite Hc.
  - rewrite sapp_cons. cbn [span String.length] in *. destruct (pr d); [|done].
    injection Ha as Ha. by rewrite IH.
Qed.

Lemma len_spaces k : len (spaces k) = k.
Proof. unfold len. induction k as [|k IH]; simpl; [done | by rewrite IH]. Qed.

Lemma count_leading_spaces k url :
  startsWith " " url = false → count_leading space (spaces k +:+ url) = k.
Proof.
  intros Hurl. induction k as [|k IH].
  - rewrite sapp_nil_l. destruct url as [|c url]; [done|].
    cbn [startsWith count_leading] in *. unfold space.
    by destruct (Ascii.eqb " " c).
  - cbn [spaces]. rewrite sapp_cons. cbn [count_leading]. unfold space at 1.
    rewrite Ascii.eqb_refl. by rewrite IH.
Qed.

Lemma href_re_line label k url :
  alnum label = true → startsWith " " url = false →
  let prefix := "[" +:+ label +:+ "]:" +:+ spaces k in
  href_re (prefix +:+ url) = Some (prefix, label)
  ∧ drop (len prefix) (prefix +:+ url) = url.
Proof.
  intros [Hne%Nat.leb_le Hal%Nat.eqb_eq]%andb_true_iff Hurl prefix.
  split; [|apply sdrop_app].
  assert (len prefix = 1 + len label + 2 + k) as Hlenp.
  { subst prefix. rewrite !len_app, len_spaces. simpl. lia. }
  assert (take (1 + len label + 2 + k) (prefix +:+ url) = prefix) as Htake.
  { rewrite <- Hlenp. apply stake_app. }
  set (tail := spaces k +:+ url).
  assert (prefix +:+ url = "[" +:+ label +:+ "]:" +:+ tail) as Hline.
  { subst prefix tail. by rewrite !sapp_assoc. }
  assert (span is_alnum (label +:+ "]:" +:+ tail) = len label) as Hspan.
  { change ("]:" +:+ tail) with (String "]" (String ":" tail)). by apply span_app. }
  assert (startsWith "[" (prefix +:+ url) = true) as Hs
    by (rewrite Hline; apply startsWith_app).
  assert (drop 1 (prefix +:+ url) = label +:+ "]:" +:+ tail) as Hd1
    by (by rewrite Hline).
  unfold href_re. cbv zeta. rewrite Hs, Hd1, Hspan.
  replace (1 <=? len label) with true by (symmetry; by apply Nat.leb_le).
  rewrite sdrop_app, (startsWith_app "]:"). cbn [andb].
  rewrite stake_app, sdrop_app_plus.
  change (drop 2 ("]:" +:+ tail)) with tail.
  subst tail. rewrite (count_leading_spaces _ _ Hurl).
  by rewrite Htake.
Qed.

(** X21. A link reference definition and its use: the line [[label]: url]
    is taken off the input, enters [url] under [label] in the table of
    definitions and leaves the other entries alone; the postprocessing
    then replaces an address that is this label by [url]. *)
Theorem href_def_round_trip pb pi (label url : string) (k : nat)
    (rest : list string) st :
  alnum label = true → url ≠ EmptyString → startsWith " " url = false →
  let line := ("[" +:+ label +:+ "]:" +:+ spaces k) +:+ url in
  ∃ st',
    bp_parse href_def pb pi (line :: rest) st = Ret (Some (Node.void "omit"), rest, st')
    ∧ href_defs st' !! label = Some url
    ∧ (∀ other, other ≠ label → href_defs st' !! other = href_defs st !! other)
    ∧ resolve_ref (href_defs st') (VStr label) = VStr url.
Proof.
  intros Hlabel Hne Hurl line. subst line.
  destruct (href_re_line label k url Hlabel Hurl) as [Hre Hdrop].
  cbn [bp_parse href_def]. rewrite Hre, Hdrop.
  eexists. split; [reflexivity|]. cbn [href_defs].
  split; [by rewrite lookup_insert_eq|].
  split; [intros other Ho; by rewrite lookup_insert_ne|].
  unfold resolve_ref, Proto.get. cbn [jsval_to_string].
  rewrite lookup_insert_eq.
  by destruct (String.eqb_spec url EmptyString).
Qed.

Lemma href_def_round_trip_witness :
  ∃ st',
    bp_parse href_def (Engine.parse_blocks 0) (Inline.parse_inline 0)
      ["[home]:  https://example.org"; "next"] initial
    = Ret (Some (Node.void "omit"), ["next"], st')
    ∧ href_defs st' !! "home" = Some "https://example.org"
    ∧ (∀ other, other ≠ "home" → href_defs st' !! other = href_defs initial !! other)
    ∧ resolve_ref (href_defs st') (VStr "home") = VStr "https://example.org".
Proof.
  by apply (href_def_round_trip (Engine.parse_blocks 0) (Inline.parse_inline 0)
              "home" "https://example.org" 2 ["next"] initial).
Defined.

End DefsProps.

(** ** Footnote numbers *)

Module FootnoteProps.
Import Block Inputs.

Lemma attr_get_set k v a : Node.attr_get k (Node.attr_set k v a) = v.
Proof.
  induction a as [|[k' v'] a IH]; cbn [Node.attr_set Node.attr_get].
  - by rewrite (proj2 (String.eqb_eq k k) eq_refl).
  - destruct (String.eqb k k') eqn:E; cbn [Node.attr_get]; rewrite ?E; [|done].
    by rewrite (proj2 (String.eqb_eq k k) eq_refl).
Qed.

Lemma distinct_snoc_old seen l : l ∈ seen → distinct (seen ++ [l]) = distinct seen.
Proof.
  intros Hl. unfold distinct. f_equal. apply set_eq. intros x.
  rewrite !elem_of_list_to_set, elem_of_app, list_elem_of_singleton.
  split; [by intros [?| ->] | by left].
Qed.

Lemma distinct_snoc_new seen l : l ∉ seen → distinct (seen ++ [l]) = S (distinct seen).
Proof.
  intros Hl. unfold distinct.
  rewrite list_to_set_app_L, list_to_set_singleton_L, size_union, size_singleton; [lia|].
  apply disjoint_singleton_r. by rewrite elem_of_list_to_set.
Qed.

Lemma numbered_old seen i m l :
  numbered seen i m → l ∈ seen → numbered (seen ++ [l]) i m.
Proof.
  intros (Hi & Hdom & Hent) Hl. split; [by rewrite distinct_snoc_old|]. split.
  - intros x. rewrite Hdom, elem_of_app, list_elem_of_singleton.
    split; [by left | by intros [?| ->]].
  - intros x n Hx. destruct (Hent x n Hx) as (j & Hj & Hnot & Hn).
    pose proof (lookup_lt_Some _ _ _ Hj) as Hlt.
    exists j. rewrite lookup_app_l, take_app_le by lia. done.
Qed.

Lemma numbered_new seen i m l :
  numbered seen i m → l ∉ seen → numbered (seen ++ [l]) (S i) (<[l := i]> m).
Proof.
  intros (Hi & Hdom & Hent) Hl. split; [by rewrite distinct_snoc_new, Hi|]. split.
  - intros x. rewrite lookup_insert_is_Some, Hdom, elem_of_app, list_elem_of_singleton.
    destruct (decide (l = x)) as [->|Hne]; [split; auto|].
    split; [intros [?|[_ ?]]; [done | by left] | intros [?| ->]; [by right | done]].
  - intros x n. rewrite lookup_insert_Some. intros [[<- <-]|[Hne Hx]].
    + exists (length seen). rewrite list_lookup_middle, take_app_length by done. done.
    + destruct (Hent x n Hx) as (j & Hj & Hnot & Hn).
      pose proof (lookup_lt_Some _ _ _ Hj) as Hlt.
      exists j. rewrite lookup_app_l, take_app_le by lia. done.
Qed.

Lemma number_cite_step st a l seen i m :
  cited st a l → numbered seen i m →
  ∃ n i' m' st' o,
    number_cite a (i, m) st = Ret ((i', m'), st')
    ∧ numbered (seen ++ [l]) i' m'
    ∧ m' !! l = Some n ∧ m ⊆ m'
    ∧ heap st' !! a = Some o ∧ Node.key o = Some (VNum n)
    ∧ Node.attr_get "href" (default [] (Node.attributes o))
      = VStr ("#footnote_" +:+ Js.of_nat n)
    ∧ (∀ b, b ≠ a → heap st' !! b = heap st !! b).
Proof.
  intros (Hinh & o & Ho & at_ & c0 & cs & ty & ->) Hnum.
  pose proof Hnum as (Hi & Hdom & Hent).
  unfold number_cite, St.get, mbind, M_bind. rewrite Ho.
  cbn [Node.key default from_option id jsval_to_string Node.attributes Node.children].
  unfold Proto.get, id. cbn [jsval_to_string]. rewrite Hinh.
  destruct (m !! l) as [n|] eqn:Hl.
  - assert (l ∈ seen) as Hin by (apply Hdom; by eexists).
    eexists n, i, m, _, _. split; [reflexivity|].
    split; [by apply numbered_old|]. split; [done|]. split; [done|].
    cbn [heap]. rewrite list_lookup_alter, decide_True, Ho by done.
    split; [reflexivity|]. split; [done|].
    split; [cbn; apply attr_get_set|].
    intros b Hb. by rewrite list_lookup_alter_ne.
  - assert (l ∉ seen) as Hin.
    { intros Hin%Hdom. rewrite Hl in Hin. by destruct Hin. }
    eexists i, (S i), (<[l := i]> m), _, _. split; [reflexivity|].
    split; [by apply numbered_new|]. split; [by rewrite lookup_insert_eq|].
    split; [by apply insert_subseteq|].
    cbn [heap]. rewrite list_lookup_alter, decide_True, Ho by done.
    split; [reflexivity|]. split; [done|].
    split; [cbn; apply attr_get_set|].
    intros b Hb. by rewrite list_lookup_alter_ne.
Qed.

Lemma cited_frame st st' addrs labels :
  Forall2 (cited st) addrs labels →
  (∀ b, b ∈ addrs → heap st' !! b = heap st !! b) →
  Forall2 (cited st') addrs labels.
Proof.
  induction 1 as [|a l addrs labels (Hinh & o & Ho & Hc) _ IH]; intros Hframe;
    constructor.
  - split; [done|]. exists o. rewrite Hframe; [done | by left].
  - apply IH. intros b Hb. apply Hframe. by right.
Qed.

Lemma number_cites_inv addrs :
  ∀ labels seen i m st,
    NoDup addrs → Forall2 (cited st) addrs labels → numbered seen i m →
    ∃ i' m' st',
      number_cites addrs (i, m) st = Ret ((i', m'), st')
      ∧ numbered (seen ++ labels) i' m' ∧ m ⊆ m'
      ∧ (∀ b, b ∉ addrs → heap st' !! b = heap st !! b)
      ∧ ∀ j a l, addrs !! j = Some a → labels !! j = Some l →
          ∃ n o, m' !! l = Some n ∧ heap st' !! a = Some o
                 ∧ Node.key o = Some (VNum n)
                 ∧ Node.attr_get "href" (default [] (Node.attributes o))
                   = VStr ("#footnote_" +:+ Js.of_nat n).
Proof.
  induction addrs as [|a addrs IH]; intros labels seen i m st Hnd Hall Hnum.
  - inversion Hall; subst. exists i, m, st. rewrite app_nil_r.
    split; [done|]. split; [done|]. split; [done|]. split; [done|].
    intros j a l Hj. by rewrite lookup_nil in Hj.
  - inversion Hall as [|? l ? labels' Hc Hall']; subst.
    apply NoDup_cons in Hnd as [Hna Hnd].
    destruct (number_cite_step st a l seen i m Hc Hnum)
      as (n & i1 & m1 & st1 & o & Hstep & Hnum1 & Hn & Hsub & Ho & Hkey & Hhref & Hframe).
    destruct (IH labels' (seen ++ [l]) i1 m1 st1 Hnd) as
      (i' & m' & st' & Hrun & Hnum' & Hsub' & Hframe' & Hcites); [|done|].
    { apply (cited_frame st); [done|]. intros b Hb. apply Hframe. by intros ->. }
    exists i', m', st'. cbn [number_cites]. unfold mbind, M_bind. rewrite Hstep.
    split; [exact Hrun|]. split; [by rewrite <- app_assoc in Hnum'|].
    split; [by etrans|]. split.
    { intros b Hb. apply not_elem_of_cons in Hb as [Hba Hb].
      by rewrite Hframe', Hframe. }
    intros [|j] a' l' Ha' Hl'; simpl in Ha', Hl'.
    + injection Ha' as <-. injection Hl' as <-. exists n, o.
      split; [by eapply lookup_weaken|]. by rewrite Hframe'.
    + by apply (Hcites j).
Qed.

(** X22. The numbering loop of the footnotes, on citations whose labels are
    no names that an object literal inherits: it returns, the counter
    ends one above the number of distinct labels, every citation gets the
    number of its label as key and in its address, the same label always
    the same number, and a label cited for the first time gets the number
    of distinct labels cited before it, plus one. *)
Theorem number_cites_first_citation_order (st : pstate) (addrs : list nat)
    (labels : list string) :
  NoDup addrs → Forall2 (cited st) addrs labels →
  ∃ tonumbers st',
    number_cites addrs (1, ∅) st = Ret ((S (distinct labels), tonumbers), st')
    ∧ ∀ j a l, addrs !! j = Some a → labels !! j = Some l →
        ∃ n o, tonumbers !! l = Some n ∧ heap st' !! a = Some o
               ∧ Node.key o = Some (VNum n)
               ∧ Node.attr_get "href" (default [] (Node.attributes o))
                 = VStr ("#footnote_" +:+ Js.of_nat n)
               ∧ ((l ∉ firstn j labels) → n = S (distinct (firstn j labels))).
Proof.
  intros Hnd Hall.
  destruct (number_cites_inv addrs labels [] 1 ∅ st Hnd Hall)
    as (i' & m' & st' & Hrun & (Hi & Hdom & Hent) & _ & _ & Hcites).
  { split; [done|]. split; [|done].
    intros l. rewrite lookup_empty, elem_of_nil. split; [by intros [? ?] | done]. }
  cbn [app] in *. subst i'. exists m', st'. split; [exact Hrun|].
  intros j a l Ha Hl.
  destruct (Hcites j a l Ha Hl) as (n & o & Hn & Ho & Hkey & Hhref).
  exists n, o. repeat (split; [done|]).
  intros Hfirst. destruct (Hent l n Hn) as (j0 & Hj0 & Hnot & ->).
  destruct (Nat.lt_trichotomy j0 j) as [Hlt|[->|Hgt]]; [|done|].
  - exfalso. apply Hfirst. apply elem_of_take. by exists j0.
  - exfalso. apply Hnot. apply elem_of_take. by exists j.
Qed.

Lemma number_cites_first_citation_order_witness :
  let cite l := Obj "a" (Some []) (Some [Node.text l]) None None (Some (VStr l)) in
  let st := PState [cite "x"; cite "y"; cite "x"] [0; 1; 2] [] ∅ ∅ ∅ in
  ∃ tonumbers st',
    number_cites [0; 1; 2] (1, ∅) st = Ret ((S (distinct ["x"; "y"; "x"]), tonumbers), st')
    ∧ ∀ j a l, [0; 1; 2] !! j = Some a → ["x"; "y"; "x"] !! j = Some l →
        ∃ n o, tonumbers !! l = Some n ∧ heap st' !! a = Some o
               ∧ Node.key o = Some (VNum n)
               ∧ Node.attr_get "href" (default [] (Node.attributes o))
                 = VStr ("#footnote_" +:+ Js.of_nat n)
               ∧ (l ∉ firstn j ["x"; "y"; "x"]
                  → n = S (distinct (firstn j ["x"; "y"; "x"]))).
Proof.
  intros cite st.
  apply (number_cites_first_citation_order st [0; 1; 2] ["x"; "y"; "x"]).
  - apply NoDup_cons_2; [|apply NoDup_cons_2; [|apply NoDup_cons_2; [|apply NoDup_nil_2]]];
      intros Hin; repeat (apply elem_of_cons in Hin as [Hin|Hin]; [discriminate|]);
      by apply elem_of_nil in Hin.
  - repeat constructor; eexists; (split; [reflexivity|]); by eexists _, _, _, _.
Defined.

End FootnoteProps.

(** ** The list of footnotes *)

Module FootnoteListProps.
Import Block Inputs ListFacts.

Lemma tabled_lookup order i m l :
  tabled order i m → (is_Some (m !! l) ↔ l ∈ order).
Proof.
  intros (Hi & Hnd & Hent). split.
  - intros [n [_ Hn]%Hent]. by eapply list_elem_of_lookup_2.
  - intros [k Hk]%list_elem_of_lookup. exists (S k). apply Hent.
    split; [lia|]. by rewrite Nat.sub_1_r.
Qed.

Lemma tabled_snoc order i m l :
  tabled order i m → l ∉ order → tabled (order ++ [l]) (S i) (<[l := i]> m).
Proof.
  intros (Hi & Hnd & Hent) Hl. split; [rewrite length_app; simpl; lia|]. split.
  { apply NoDup_app. split; [done|]. split; [|apply NoDup_singleton].
    intros x Hx ->%list_elem_of_singleton. done. }
  intros x n. rewrite lookup_insert_Some. split.
  - intros [[<- <-]|[Hne Hx]].
    + subst i. split; [lia|]. rewrite Nat.sub_1_r. simpl. by apply list_lookup_middle.
    + apply Hent in Hx as [Hn Hx]. split; [done|].
      rewrite lookup_app_l; [done|]. by eapply lookup_lt_Some.
  - intros [Hn Hx]. destruct (decide (n - 1 < length order)) as [Hlt|Hge].
    + rewrite lookup_app_l in Hx by done. right. split; [|by apply Hent].
      intros <-. apply Hl. by eapply list_elem_of_lookup_2.
    + rewrite lookup_app_r in Hx by lia.
      destruct (n - 1 - length order) as [|k] eqn:Hk; [|by destruct k].
      injection Hx as <-. left. split; [done|]. lia.
Qed.

Lemma number_cite_tabled st a l order i m :
  cited st a l → tabled order i m →
  ∃ i' m' st',
    number_cite a (i, m) st = Ret ((i', m'), st')
    ∧ tabled (if bool_decide (l ∈ order) then order else order ++ [l]) i' m'
    ∧ (∀ b, b ≠ a → heap st' !! b = heap st !! b)
    ∧ fn_defs st' = fn_defs st.
Proof.
  intros (Hinh & o & Ho & at_ & c0 & cs & ty & ->) Htab.
  unfold number_cite, St.get, mbind, M_bind. rewrite Ho.
  cbn [Node.key default from_option id jsval_to_string Node.attributes Node.children].
  unfold Proto.get, id. cbn [jsval_to_string]. rewrite Hinh.
  destruct (m !! l) as [n|] eqn:Hl.
  - assert (l ∈ order) as Hin by (apply (tabled_lookup _ _ _ _ Htab); by eexists).
    rewrite bool_decide_true by done.
    eexists i, m, _. split; [reflexivity|]. split; [done|].
    split; [|done]. intros b Hb. cbn [heap]. by rewrite list_lookup_alter_ne.
  - assert (l ∉ order) as Hin.
    { intros Hin%(tabled_lookup _ _ _ _ Htab). rewrite Hl in Hin. by destruct Hin. }
    rewrite bool_decide_false by done.
    eexists (S i), (<[l := i]> m), _. split; [reflexivity|].
    split; [by apply tabled_snoc|].
    split; [|done]. intros b Hb. cbn [heap]. by rewrite list_lookup_alter_ne.
Qed.

Lemma cited_frame' st st' addrs labels :
  Forall2 (cited st) addrs labels →
  (∀ b, b ∈ addrs → heap st' !! b = heap st !! b) →
  Forall2 (cited st') addrs labels.
Proof.
  induction 1 as [|a l addrs labels (Hinh & o & Ho & Hc) _ IH]; intros Hframe;
    constructor.
  - split; [done|]. exists o. rewrite Hframe; [done | by left].
  - apply IH. intros b Hb. apply Hframe. by right.
Qed.

Lemma number_cites_tabled addrs :
  ∀ labels order i m st,
    NoDup addrs → Forall2 (cited st) addrs labels → tabled order i m →
    ∃ i' m' st',
      number_cites addrs (i, m) st = Ret ((i', m'), st')
      ∧ tabled (foldl (λ acc l, if bool_decide (l ∈ acc) then acc else acc ++ [l])
                      order labels) i' m'
      ∧ (∀ b, b ∉ addrs → heap st' !! b = heap st !! b)
      ∧ fn_defs st' = fn_defs st.
Proof.
  induction addrs as [|a addrs IH]; intros labels order i m st Hnd Hall Htab.
  - inversion Hall; subst. by exists i, m, st.
  - inversion Hall as [|? l ? labels' Hc Hall']; subst.
    apply NoDup_cons in Hnd as [Hna Hnd].
    destruct (number_cite_tabled st a l order i m Hc Htab)
      as (i1 & m1 & st1 & Hstep & Htab1 & Hframe & Hdefs).
    destruct (IH labels' (if bool_decide (l ∈ order) then order else order ++ [l])
                 i1 m1 st1 Hnd) as
      (i' & m' & st' & Hrun & Htab' & Hframe' & Hdefs'); [|done|].
    { apply (cited_frame' st); [done|]. intros b Hb. apply Hframe. by intros ->. }
    exists i', m', st'. cbn [number_cites foldl]. unfold mbind, M_bind. rewrite Hstep.
    split; [exact Hrun|]. split; [done|]. split; [|congruence].
    intros b Hb. apply not_elem_of_cons in Hb as [Hba Hb].
    by rewrite Hframe', Hframe.
Qed.

Lemma reversed_lookup order i m k l :
  tabled order i m → order !! k = Some l → reversed m !! S k = Some l.
Proof.
  intros (Hi & Hnd & Hent) Hk. unfold reversed.
  apply elem_of_list_to_map_1.
  - rewrite <- list_fmap_compose.
    apply NoDup_fmap_2_strong; [|apply NoDup_map_to_list].
    intros [l1 n1] [l2 n2] H1%elem_of_map_to_list H2%elem_of_map_to_list.
    cbn. intros <-. apply Hent in H1 as [_ H1]. apply Hent in H2 as [_ H2].
    congruence.
  - apply list_elem_of_fmap. exists (l, S k). split; [done|].
    apply elem_of_map_to_list, Hent. split; [lia|]. by rewrite Nat.sub_1_r.
Qed.

Lemma collect_defs_order byno (defs : gmap string (list string)) rest :
  ∀ pre,
    (∀ k l, (pre ++ rest) !! k = Some l → byno !! S k = Some l) →
    collect_defs (length rest) (S (length pre)) byno defs
    = if forallb (λ l, Wf.present (defs !! l)) rest
      then Ret (concat (map (λ l, default [] (defs !! l)) rest))
      else Throw (TypeError "this.defs[tonumbers[j]] is not iterable").
Proof.
  induction rest as [|l rest IH]; intros pre Hby; [done|].
  cbn [length collect_defs forallb map concat].
  rewrite (Hby (length pre) l) by (by apply list_lookup_middle).
  cbn [default from_option id]. unfold Proto.get.
  destruct (defs !! l) as [lines|] eqn:Hl; cbn [Wf.present andb].
  - specialize (IH (pre ++ [l])). rewrite length_app in IH. cbn [length] in IH.
    rewrite Nat.add_1_r in IH. rewrite IH.
    + by destruct (forallb _ rest).
    + intros k l'. rewrite <- app_assoc. apply Hby.
  - by destruct (Proto.inherited l).
Qed.



End FootnoteListProps.

(** ** The block engine and the top level *)

Module EngineProps.
Import Js Inline Lines Block Engine Inputs ListFacts InlineFacts InlineProps.

Lemma never_omits_delimited name s e : name ≠ "omit" → never_omits (delimited name s e).
Proof.
  intros Hname pi text cursor st n c st'. cbn [ip_parse delimited].
  intros ([children c0] & st1 & _ & H)%bind_Ret.
  unfold mret, M_ret in H. injection H as <- _ _.
  unfold not_omit. cbn. congruence.
Qed.

Lemma never_omits_capture name s e process textfilter :
  (∀ txt st n st', process (Node.elem name [Node.text txt]) st = Ret (n, st') → not_omit n) →
  never_omits (capture name s e process textfilter).
Proof.
  intros Hprocess pi text cursor st n c st'. cbn [ip_parse capture].
  destruct (grab text (cursor + len s) e 0 true) as [[txt c0]|]; [|done].
  intros (n' & st1 & Hn' & H)%bind_Ret.
  unfold mret, M_ret in H. injection H as <- _ _. by eapply Hprocess.
Qed.

Lemma never_omits_inlineparsers : Forall never_omits inlineparsers.
Proof.
  rewrite inlineparsers_builtin. unfold builtin, footnote_cite.
  repeat constructor; try (by apply never_omits_delimited).
  - apply never_omits_capture. intros txt st n st' [= <- _]. by unfold not_omit.
  - apply never_omits_capture. intros txt st n st'.
    cbn [footnote_cite_process Node.elem Node.text Node.children].
    intros (a & st1 & _ & H)%bind_Ret. apply bind_Ret in H as (? & st2 & _ & H).
    unfold mret, M_ret in H. injection H as <- _. by unfold not_omit.
  - intros pi text cursor st n c st'. cbn [ip_parse link].
    intros ([children c0] & st1 & _ & H)%bind_Ret.
    destruct (grab text c0 ")" 2 false) as [[href c']|]; [|done].
    destruct (JsNumber.loose_eq_minus_one href); [done|].
    apply bind_Ret in H as (a & st2 & _ & H). apply bind_Ret in H as (? & st3 & _ & H).
    unfold mret, M_ret in H. injection H as <- _ _. by unfold not_omit.
  - intros pi text cursor st n c st'. cbn [ip_parse img].
    destruct (grab text (cursor + 2) "](" 0 false) as [[alt c0]|]; [|done].
    destruct (JsNumber.loose_eq_minus_one alt); [done|].
    destruct (grab text c0 ")" 2 false) as [[src c']|]; [|done].
    destruct (JsNumber.loose_eq_minus_one src); [done|].
    intros (a & st2 & _ & H)%bind_Ret. apply bind_Ret in H as (? & st3 & _ & H).
    unfold mret, M_ret in H. injection H as <- _ _. by unfold not_omit.
Qed.

Lemma mark_inline_name n st n' st' :
  mark_inline n st = Ret (n', st') → Node.name n' = Node.name n.
Proof.
  destruct n; cbn [mark_inline]; unfold mret, M_ret; by intros [= <- _].
Qed.

Lemma finish_not_omit ast cursor st r c st' :
  Forall not_omit ast → finish ast cursor st = Ret (r, c, st') → Forall not_omit r.
Proof.
  intros Hast. unfold finish. intros (ast' & st1 & Hmap & H)%bind_Ret.
  unfold mret, M_ret in H. injection H as <- _ _.
  revert st ast' st1 Hmap.
  induction Hast as [|n ast Hn _ IH]; intros st ast' st1; cbn [St.mapM].
  - unfold mret, M_ret. intros [= <- _]. constructor.
  - intros (n' & st2 & Hn' & H)%bind_Ret.
    apply bind_Ret in H as (ns & st3 & Hns & H).
    unfold mret, M_ret in H. injection H as <- _.
    constructor; [|by eapply IH].
    unfold not_omit in *. by rewrite (mark_inline_name _ _ _ _ Hn').
Qed.

Lemma inline_run_not_omit fuel :
  ∀ text ender current cursor ast st r c st',
    Forall never_omits current → Forall not_omit ast →
    Inline.run fuel text ender current cursor ast st = Ret (r, c, st') →
    Forall not_omit r.
Proof.
  induction fuel as [|fuel IH]; intros text ender current cursor ast st r c st' Hcur Hast;
    [done|].
  cbn [Inline.run].
  destruct (cursor <? len text); [|by apply finish_not_omit].
  pose proof (select_inv text cursor current (ender_indexOf ender text cursor) None) as Hsel.
  destruct (select text cursor current _ None) as [[idx first] current'].
  destruct Hsel as (Hkept & _ & _ & Hfirst).
  assert (Forall never_omits current') as Hcur'.
  { rewrite Hkept. clear -Hcur.
    induction Hcur as [|p ps Hp _ IHps]; cbn [List.filter]; [constructor|].
    destruct (Wf.present _); [by constructor | done]. }
  set (ac := if cursor <? idx
             then (ast ++ [Node.text (noesc (slice cursor idx text))], idx)
             else (ast, cursor)).
  assert (Forall not_omit ac.1) as Hast1.
  { subst ac. destruct (cursor <? idx); [|done]. cbn [fst].
    apply Forall_app. split; [done|]. by repeat constructor. }
  destruct ac as [ast1 cursor1]. cbn [fst] in Hast1.
  destruct first as [p|]; [|by apply finish_not_omit].
  destruct Hfirst as [[_ [=]]|(k & q & Hk & [= <-] & _)].
  assert (never_omits p) as Hp.
  { eapply Forall_forall in Hcur; [done|]. by eapply list_elem_of_lookup_2. }
  intros ([r0 cursor2] & st1 & Hparse & H)%bind_Ret.
  destruct r0 as [n|].
  - eapply IH; [exact Hcur'| |exact H].
    apply Forall_app. split; [done|]. constructor; [by eapply Hp | constructor].
  - destruct (at_ cursor2 text) as [ch|]; [|done].
    eapply IH; [exact Hcur'| |exact H].
    apply Forall_app. split; [done|]. by repeat constructor.
Qed.

Lemma inline_text_not_omit fuel text st r st' :
  inline_text (Inline.parse_inline fuel) text st = Ret (r, st') → Forall not_omit r.
Proof.
  unfold inline_text, Inline.parse_inline.
  intros ([ast c] & st1 & Hrun & H)%bind_Ret.
  unfold mret, M_ret in H. injection H as <- _.
  eapply inline_run_not_omit; [apply never_omits_inlineparsers | constructor | exact Hrun].
Qed.

Lemma push_text_not_omit fuel name lines text ast st lines' text' ast' st' :
  Forall not_omit ast →
  push_text (Inline.parse_inline fuel) name lines text ast st
  = Ret (lines', text', ast', st') →
  Forall not_omit ast'.
Proof.
  intros Hast. unfold push_text.
  destruct (String.eqb_spec name "p") as [->|Hname].
  - destruct (last text) as [blank|].
    + destruct (removelast text) as [|t0 ts].
      * unfold mret, M_ret. by intros [= _ _ <- _].
      * intros (children & st1 & _ & H)%bind_Ret.
        unfold mret, M_ret in H. injection H as _ _ <- _.
        apply Forall_app. split; [done|]. by repeat constructor.
    + destruct text as [|t0 ts].
      * unfold mret, M_ret. by intros [= _ _ <- _].
      * intros (children & st1 & _ & H)%bind_Ret.
        unfold mret, M_ret in H. injection H as _ _ <- _.
        apply Forall_app. split; [done|]. by repeat constructor.
  - destruct text as [|t0 ts].
    + unfold mret, M_ret. by intros [= _ _ <- _].
    + intros (children & st1 & Hc & H)%bind_Ret.
      unfold mret, M_ret in H. injection H as _ _ <- _.
      apply Forall_app. split; [done|]. by eapply inline_text_not_omit.
Qed.

Lemma engine_run_not_omit fuel :
  ∀ lines text ast st r st',
    Forall not_omit ast → Engine.run fuel lines text ast st = Ret (r, st') →
    Forall not_omit r.
Proof.
  induction fuel as [|fuel IH]; intros lines text ast st r st' Hast; [done|].
  cbn [Engine.run].
  destruct lines as [|l0 ls].
  { destruct text as [|t0 ts].
    - unfold mret, M_ret. by intros [= <- _].
    - intros ([[lines' text'] ast'] & st1 & Hpush & H)%bind_Ret.
      unfold mret, M_ret in H. injection H as <- _.
      by eapply push_text_not_omit. }
  intros ([n lines'] & st1 & _ & H)%bind_Ret.
  destruct n as [n|].
  - case_bool_decide as Hn; [by eapply IH|].
    apply bind_Ret in H as ([[lines2 text2] ast2] & st2 & Hpush & H).
    eapply IH; [|exact H].
    apply Forall_app. split; [by eapply push_text_not_omit|]. by repeat constructor.
  - destruct lines' as [|l rest]; [by eapply IH|].
    destruct (blankline l).
    + destruct text as [|t0 ts].
      * eapply IH; [|exact H]. apply Forall_app. split; [done|]. by repeat constructor.
      * apply bind_Ret in H as ([[lines2 text2] ast2] & st2 & Hpush & H).
        eapply IH; [|exact H]. by eapply push_text_not_omit.
    + by eapply IH.
Qed.

(** X24. The block engine puts no [omit] node in the array it returns:
    neither the placeholders of the definitions, which it filters, nor a
    node of the inline engine. *)
Theorem parse_blocks_never_omit (fuel : nat) (lines : list string) st ast st' :
  Engine.parse_blocks fuel lines st = Ret (ast, st') →
  Forall (λ n, Node.name n ≠ Some "omit") ast.
Proof.
  unfold Engine.parse_blocks. intros H.
  by apply (engine_run_not_omit fuel lines [] [] st ast st' (Forall_nil_2 _)).
Qed.

Lemma parse_blocks_never_omit_witness :
  ∃ st',
    Engine.parse_blocks 4 ["[home]: https://example.org"; "text"] initial
    = Ret ([Obj "text" None None (Some "text") (Some "inline") None], st')
    ∧ Forall (λ n, Node.name n ≠ Some "omit")
        [Obj "text" None None (Some "text") (Some "inline") None].
Proof.
  eexists. split; [vm_compute; reflexivity|].
  apply (parse_blocks_never_omit 4 ["[home]: https://example.org"; "text"] initial _
           (PState [] [] [] ∅ (<["home" := "https://example.org"]> ∅) ∅)).
  vm_compute. reflexivity.
Defined.

End EngineProps.

Module TopProps.
Import Top Block.

Lemma init_all_resets st :
  init_all st = Ret (tt, PState (heap st) [] [] ∅ ∅ ∅).
Proof. destruct st. vm_compute. reflexivity. Qed.

(** X25. Every call of [scratchmark] starts from empty tables: the
    initialisation empties the citations, the links, both tables of
    definitions and the config, so what an earlier document left there
    has no part in the result. *)
Theorem scratchmark_forgets_tables (fuel : nat) (doc : string)
    (printer : option printer_t) (st : pstate) :
  init_all st = Ret (tt, PState (heap st) [] [] ∅ ∅ ∅)
  ∧ scratchmark fuel doc printer st
    = scratchmark fuel doc printer (PState (heap st) [] [] ∅ ∅ ∅).
Proof.
  split; [apply init_all_resets|].
  assert (∀ {A B : Type} (m : M A) (f : A → M B) s a s0,
            m s = Ret (a, s0) → (m ≫= f) s = f a s0) as Hbind.
  { intros A B m f s a s0 Hm. unfold mbind, M_bind. by rewrite Hm. }
  assert (parse fuel doc st = parse fuel doc (PState (heap st) [] [] ∅ ∅ ∅)) as Hparse.
  { unfold parse.
    rewrite (Hbind _ _ _ _ _ _ _ (init_all_resets st)).
    by rewrite (Hbind _ _ _ _ _ _ _ (init_all_resets (PState (heap st) [] [] ∅ ∅ ∅))). }
  unfold scratchmark. unfold mbind at 1 3. unfold M_bind at 1 3. by rewrite Hparse.
Qed.

End TopProps.

(** ** The block engine ends *)

Module TerminationProps.
Import Js Lines Block Inputs Total Shape JsFacts LinesFacts CollectFacts ListFacts
  InlineFacts InlineProps.

(** *** Weights *)

Lemma weight_cons l ls : weight (l :: ls) = S (len l) + weight ls.
Proof. done. Qed.

Lemma weight_nil : weight [] = 0.
Proof. done. Qed.

Lemma weight_blank : weight [EmptyString] = 1.
Proof. done. Qed.

Lemma weight_app a b : weight (a ++ b) = weight a + weight b.
Proof. induction a as [|l a IH]; [done|]. cbn [app]. rewrite !weight_cons, IH. lia. Qed.

Lemma weight_tail ls : weight (tail ls) ≤ weight ls.
Proof. destruct ls as [|l ls]; [done|]. rewrite weight_cons. simpl. lia. Qed.

Lemma len_drop_le k s : len (drop k s) ≤ len s.
Proof.
  unfold len. revert s. induction k as [|k IH]; intros [|c s]; simpl; try lia.
  specialize (IH s). lia.
Qed.

Lemma len_drop k s : len (drop k s) = len s - k.
Proof.
  unfold len. revert s. induction k as [|k IH]; intros [|c s]; simpl; try lia.
  apply IH.
Qed.

Lemma len_strip_trailing_hashes s : len (strip_trailing_hashes s) ≤ len s.
Proof.
  unfold len. induction s as [|c s IH]; [done|]. cbn [strip_trailing_hashes].
  destruct (strip_trailing_hashes s) as [|d t].
  - destruct (Ascii.eqb c "#"); simpl in *; lia.
  - simpl in *. lia.
Qed.

Lemma len_strip_spaces k s : len (strip_spaces k s) ≤ len s.
Proof. unfold strip_spaces. apply len_drop_le. Qed.

Lemma weight_map_le (f : string → string) ls :
  (∀ l, len (f l) ≤ len l) → weight (map f ls) ≤ weight ls.
Proof.
  intros Hf. induction ls as [|l ls IH]; [done|]. cbn [map]. rewrite !weight_cons.
  specialize (Hf l). lia.
Qed.

Lemma weight_length ls : length ls ≤ weight ls.
Proof. induction ls as [|l ls IH]; [done|]. rewrite weight_cons. simpl. lia. Qed.

(** *** Computations that end *)

Lemma ends_ret {A : Type} (a : A) (Q : A → Prop) : Q a → ends_with (mret a) Q.
Proof. by intros HQ st. Qed.

Lemma ends_throw {A : Type} (e : exn) (Q : A → Prop) : ends_with (St.throw e) Q.
Proof. by intros st. Qed.

Lemma ends_bind {A B : Type} (m : M A) (f : A → M B) (Q : A → Prop) (R : B → Prop) :
  ends_with m Q → (∀ a, Q a → ends_with (f a) R) → ends_with (m ≫= f) R.
Proof.
  intros Hm Hf st. specialize (Hm st). unfold mbind, M_bind.
  destruct (m st) as [[a st1]| |]; [|done..]. by apply Hf.
Qed.

Lemma ends_weaken {A : Type} (m : M A) (Q R : A → Prop) :
  ends_with m Q → (∀ a, Q a → R a) → ends_with m R.
Proof.
  intros Hm HQR st. specialize (Hm st). destruct (m st) as [[a st1]| |]; auto.
Qed.

Lemma ends_modify f (Q : unit → Prop) : Q tt → ends_with (St.modify f) Q.
Proof. by intros HQ st. Qed.

Lemma ends_lift {A : Type} (o : outcome A) (Q : A → Prop) :
  match o with Ret a => Q a | Throw _ => True | OutOfFuel => False end →
  ends_with (St.lift o) Q.
Proof. intros Ho st. unfold St.lift. by destruct o. Qed.

Lemma ends_mapM {A B : Type} (f : A → M B) (l : list A) :
  Forall (λ x, ends_with (f x) (λ _, True)) l → ends_with (St.mapM f l) (λ _, True).
Proof.
  induction 1 as [|x l Hx _ IH]; cbn [St.mapM]; [by apply ends_ret|].
  eapply ends_bind; [exact Hx|]. intros y _.
  eapply ends_bind; [exact IH|]. intros ys _. by apply ends_ret.
Qed.

Lemma ends_returns {A : Type} (m : M A) (Q : A → Prop) :
  returns m Q → ends_with m Q.
Proof. intros Hm st. destruct (Hm st) as (a & st' & -> & Ha). done. Qed.

Lemma ends_inline_text k pi text :
  pi_fueled k pi → len text < k → ends_with (inline_text pi text) (λ _, True).
Proof.
  intros Hpi Hlen. unfold inline_text.
  eapply ends_bind; [by apply Hpi|]. intros [ast c] _. by apply ends_ret.
Qed.

Lemma pb_fueled_mono k k' pb : k' ≤ k → pb_fueled k pb → pb_fueled k' pb.
Proof. intros Hk Hpb ls Hls. apply Hpb. lia. Qed.

Lemma pi_fueled_mono k k' pi : k' ≤ k → pi_fueled k pi → pi_fueled k' pi.
Proof. intros Hk Hpi text e c Hlen. apply Hpi. lia. Qed.

(** *** The parsers that call no engine, and the header *)

Ltac ends_same := apply ends_ret; cbn [fst snd]; rewrite ?weight_cons, ?weight_app; lia.

Lemma consumes_header : consumes header.
Proof.
  intros pb pi lines Hpb Hpi. cbn [bp_parse header].
  destruct lines as [|l rest]; [apply ends_throw|].
  destruct (header_re l) as [n|]; [|ends_same].
  eapply ends_bind.
  { apply (ends_inline_text _ _ _ Hpi). rewrite weight_cons.
    pose proof (len_strip_trailing_hashes (drop (S n) l)).
    pose proof (len_drop_le (S n) l). lia. }
  intros children _. apply ends_ret. cbn [fst snd]. rewrite weight_cons. lia.
Qed.

Lemma len_unquote l : startsWith ">" l = true → S (len (unquote l)) ≤ len l.
Proof.
  destruct l as [|c l]; [done|]. cbn [startsWith].
  intros [Hc%Ascii.eqb_eq _]%andb_true_iff. subst c. unfold len.
  destruct l as [|d l]; [simpl; lia|].
  destruct (Ascii.eqb_spec d " ") as [->|Hd]; [simpl; lia|].
  assert (unquote (String ">" (String d l)) = String d l) as ->; [|simpl; lia].
  cbn [unquote]. destruct d as [[] [] [] [] [] [] [] []]; try done.
Qed.

Lemma weight_map_unquote qs :
  Forall (λ l, startsWith ">" l = true) qs →
  weight (map unquote qs) + length qs ≤ weight qs.
Proof.
  induction 1 as [|q qs Hq _ IH]; [done|]. cbn [map length]. rewrite !weight_cons.
  pose proof (len_unquote q Hq). lia.
Qed.

Lemma consumes_blockquote : consumes blockquote.
Proof.
  intros pb pi lines Hpb Hpi. cbn [bp_parse blockquote].
  destruct (grablines _ lines) as [quoted rest] eqn:Hg.
  apply grablines_spec in Hg as (-> & Hall & _).
  destruct quoted as [|q quoted]; [ends_same|].
  pose proof (weight_map_unquote _ Hall) as Hw. cbn [length] in Hw.
  eapply ends_bind.
  { apply Hpb. rewrite weight_app. lia. }
  intros children _. apply ends_ret. cbn [fst snd]. rewrite weight_app.
  pose proof (weight_length (q :: quoted)). cbn [length] in *. lia.
Qed.

Lemma consumes_indented_codeblock : consumes indented_codeblock.
Proof.
  intros pb pi lines Hpb Hpi. cbn [bp_parse indented_codeblock].
  destruct (grablines _ lines) as [block rest] eqn:Hg.
  apply grablines_spec in Hg as (-> & Hall & _).
  destruct block as [|b block]; apply ends_ret; cbn [fst snd]; [done|].
  rewrite weight_app, weight_cons. lia.
Qed.

Lemma consumes_fenced_codeblock : consumes fenced_codeblock.
Proof.
  intros pb pi lines Hpb Hpi. cbn [bp_parse fenced_codeblock].
  destruct lines as [|fence lines']; [ends_same|].
  destruct (startsWith "```" fence); [|ends_same].
  destruct (grablines _ lines') as [block rest] eqn:Hg.
  apply grablines_spec in Hg as (-> & _ & _).
  destruct (fencehandler !! drop 3 fence) as [h|].
  - apply (ends_bind _ _ (λ _, False)); [apply ends_throw|]. by intros ? [].
  - apply ends_ret. cbn [fst snd]. rewrite weight_cons, weight_app.
    pose proof (weight_tail rest). lia.
Qed.

Lemma consumes_horizontal_rule : consumes horizontal_rule.
Proof.
  intros pb pi lines Hpb Hpi. cbn [bp_parse horizontal_rule].
  destruct lines as [|l rest]; [apply ends_throw|].
  destruct (startsWith "***" l || startsWith "---" l || startsWith "___" l);
    apply ends_ret; cbn [fst snd]; rewrite ?weight_cons; lia.
Qed.

Lemma consumes_footnote_def : consumes footnote_def.
Proof.
  intros pb pi lines Hpb Hpi. cbn [bp_parse footnote_def].
  destruct lines as [|l lines']; [apply ends_throw|].
  destruct (footnote_re l) as [[prefix note]|]; [|ends_same].
  destruct (grablines _ lines') as [g rest] eqn:Hg.
  apply grablines_spec in Hg as (-> & _ & _).
  eapply ends_bind; [by apply (ends_modify _ (λ _, True))|].
  intros _ _. apply ends_ret. cbn [fst snd]. rewrite weight_cons, weight_app. lia.
Qed.

Lemma consumes_href_def : consumes href_def.
Proof.
  intros pb pi lines Hpb Hpi. cbn [bp_parse href_def].
  destruct lines as [|l rest]; [apply ends_throw|].
  destruct (href_re l) as [[prefix note]|]; [|ends_same].
  eapply ends_bind; [by apply (ends_modify _ (λ _, True))|].
  intros _ _. apply ends_ret. cbn [fst snd]. rewrite weight_cons. lia.
Qed.

Lemma consumes_html_groups : consumes html_groups.
Proof.
  intros pb pi lines Hpb Hpi. cbn [bp_parse html_groups].
  destruct lines as [|l lines']; [apply ends_throw|].
  destruct (html_groups_re l) as [prefix|]; [|ends_same].
  destruct (grablines _ (l :: lines')) as [g rest] eqn:Hg.
  apply grablines_spec in Hg as (Heq & _ & _).
  apply ends_ret. cbn [fst snd]. rewrite Heq, weight_app.
  destruct g as [|g0 g].
  - cbn [app] in Heq. subst rest. cbn [tail]. rewrite weight_cons. simpl. lia.
  - pose proof (weight_tail rest). rewrite weight_cons. lia.
Qed.

Lemma consumes_html_tags : consumes html_tags.
Proof.
  intros pb pi lines Hpb Hpi. cbn [bp_parse html_tags].
  destruct lines as [|l rest]; [ends_same|].
  destruct (html_tags_re l); apply ends_ret; cbn [fst snd]; rewrite ?weight_cons; lia.
Qed.

(** *** The lists *)

Lemma weight_flatten_cons it its :
  weight (flatten (it :: its)) = weight (item_lines it) + weight (flatten its).
Proof. unfold flatten. cbn [map concat]. apply weight_app. Qed.

Lemma weight_flatten_app a b : weight (flatten (a ++ b)) = weight (flatten a) + weight (flatten b).
Proof.
  induction a as [|it a IH]; [done|]. cbn [app].
  rewrite !weight_flatten_cons, IH. lia.
Qed.

Lemma weight_flatten_elem W its :
  weight (flatten its) ≤ W → Forall (λ it, weight (item_lines it) ≤ W) its.
Proof.
  revert W. induction its as [|it its IH]; intros W; [constructor|].
  rewrite weight_flatten_cons. intros HW. constructor; [lia|]. apply IH. lia.
Qed.

Lemma headed_weight it : headed it → 3 ≤ weight (item_lines it).
Proof. intros (l0 & g & -> & Hp). rewrite weight_cons. lia. Qed.

Section lists.
Context {T : Type} `{EqDecision T}.
Context (regex : string → option string) (style_of : string → T).
Context (Hre : ∀ l p, regex l = Some p → 2 ≤ len p ≤ len l).

Lemma collect_weight n style lines its st rest :
  collect n regex style_of style lines = (its, st, rest) →
  Forall headed its ∧ weight (flatten its) + weight rest = weight lines.
Proof.
  revert style lines its st rest.
  induction n as [|n IH]; intros style lines its st rest; cbn [collect].
  - intros [= <- <- <-]. by split; [constructor|].
  - destruct (list_item _ _ lines) as [[it rest1]|] eqn:Hit.
    + destruct (collect n _ _ _ rest1) as [[its' st'] rest'] eqn:Hc.
      intros [= <- <- <-].
      apply list_item_Some in Hit as (l0 & g & -> & Hit & Hre0 & _).
      destruct (IH _ _ _ _ _ Hc) as [Hh Hw].
      destruct it as [p ls]. cbn [item_prefix item_lines] in *. injection Hit as ->.
      split.
      * constructor; [|done]. exists l0, g. split; [done|]. by apply Hre.
      * rewrite weight_flatten_cons. cbn [item_lines].
        rewrite !weight_cons, weight_app in *. lia.
    + intros [= <- <- <-]. by split; [constructor|].
Qed.

End lists.

Lemma deblank_weight its lines its' lines' :
  Forall headed its → deblank its lines = (its', lines') →
  Forall headed its'
  ∧ weight (flatten its') + weight lines' = weight (flatten its) + weight lines.
Proof.
  intros Hh. unfold deblank.
  destruct its as [|a [|b its]]; [by intros [= <- <-] | by intros [= <- <-] |].
  destruct (last (a :: b :: its)) as [it|] eqn:Hlast; [|by intros [= <- <-]].
  apply last_Some in Hlast as [front Hfront]. rewrite Hfront in *.
  rewrite removelast_last.
  apply Forall_app in Hh as [Hfr Hit]. inversion Hit as [|? ? Hit' _]; subst.
  destruct Hit' as (l0 & g & Hls & Hp). rewrite Hls.
  destruct (split_trailing_blanks (l0 :: g)) as [kept blanks] eqn:Hs.
  intros [= <- <-].
  assert (blankline l0 = false) as Hl0.
  { unfold blankline. apply String.eqb_neq. intros ->. simpl in Hp. lia. }
  destruct (split_trailing_blanks_head _ _ _ _ Hl0 Hs) as [kept' ->].
  apply split_trailing_blanks_spec in Hs as [Hs _].
  split.
  - apply Forall_app. split; [done|]. constructor; [|constructor].
    exists l0, kept'. done.
  - rewrite !weight_flatten_app. unfold flatten at 2 4. cbn [map concat item_lines].
    rewrite Hls, Hs, !app_nil_r, !weight_app. lia.
Qed.

Lemma deblank_length its lines its' lines' :
  deblank its lines = (its', lines') → length its' = length its.
Proof.
  unfold deblank.
  destruct its as [|a [|b its]]; [by intros [= <- <-] | by intros [= <- <-] |].
  destruct (last (a :: b :: its)) as [it|] eqn:Hlast; [|by intros [= <- <-]].
  apply last_Some in Hlast as [front Hfront]. rewrite Hfront.
  rewrite removelast_last.
  destruct (split_trailing_blanks _) as [kept blanks]. intros [= <- <-].
  by rewrite !length_app.
Qed.

Lemma dedent_item_weight W it it' :
  headed it → weight (item_lines it) ≤ W → dedent_item it = Ret it' →
  weight (item_lines it') + 2 ≤ W.
Proof.
  intros (l0 & g & Hls & Hp) HW. unfold dedent_item. rewrite Hls in *.
  destruct (min_indent _ g) as [k| |]; [|done..]. cbn [outcome_bind].
  intros [= <-]. cbn [item_lines].
  rewrite weight_cons in *. rewrite len_drop.
  pose proof (weight_map_le (strip_spaces (if k =? 0 then 1 else k)) g
                (len_strip_spaces _)). lia.
Qed.

Lemma dedent_weight W its its' :
  Forall headed its → Forall (λ it, weight (item_lines it) ≤ W) its →
  dedent its = Ret its' →
  Forall (λ it, weight (item_lines it) + 2 ≤ W) its'.
Proof.
  intros Hh. revert its'. induction Hh as [|it its Hit _ IH]; intros its' HW; cbn [dedent].
  - intros [= <-]. constructor.
  - inversion HW as [|? ? HWit HWits]; subst.
    destruct (dedent_item it) as [it'| |] eqn:Hd; [|done..]. cbn [outcome_bind].
    destruct (dedent its) as [its1| |]; [|done..]. cbn [outcome_bind].
    intros [= <-]. constructor; [by eapply dedent_item_weight|]. by apply IH.
Qed.

Lemma min_indent_ends n g : min_indent n g ≠ OutOfFuel.
Proof.
  revert n. induction g as [|l g IH]; intros n; cbn [min_indent]; [done|].
  destruct (blankline l); [apply IH|].
  destruct (count_leading space l); [done|apply IH].
Qed.

Lemma dedent_ends its : dedent its ≠ OutOfFuel.
Proof.
  induction its as [|it its IH]; cbn [dedent]; [done|].
  unfold dedent_item. destruct (item_lines it) as [|l0 g]; [done|].
  pose proof (min_indent_ends (len (item_prefix it)) g).
  destruct (min_indent _ g); [|done..]. cbn [outcome_bind].
  destruct (dedent its); done.
Qed.

Lemma checkloose_weight W its :
  Forall (λ it, weight (item_lines it) + 2 ≤ W) its →
  Forall (λ it, weight (item_lines it) < W) (checkloose its).
Proof.
  intros HW. unfold checkloose.
  destruct (existsb _ its).
  - apply Forall_map. eapply Forall_impl; [exact HW|]. intros it Hit. cbn beta in *.
    destruct (last (item_lines it)) as [l|]; [destruct (blankline l)|];
      cbn [item_lines]; rewrite ?weight_app, ?weight_blank; lia.
  - eapply Forall_impl; [exact HW|]. intros it Hit. cbn beta in *. lia.
Qed.

Lemma ends_finish_list pb its lines mk W :
  Forall headed its → its ≠ [] → pb_fueled W pb →
  weight (flatten its) + weight lines ≤ W →
  ends_with (finish_list pb its lines mk)
            (λ r, match r.1 with Some _ => weight r.2 < W | None => False end).
Proof.
  intros Hh Hne Hpb HW. unfold finish_list.
  destruct (deblank its lines) as [its1 lines1] eqn:Hd.
  pose proof (deblank_length _ _ _ _ Hd) as Hlen.
  apply deblank_weight in Hd as [Hh1 Hw1]; [|done].
  assert (3 ≤ weight (flatten its1)) as H3.
  { destruct its1 as [|i1 its1]; [by destruct its|].
    inversion Hh1 as [|? ? Hi1 _]; subst. rewrite weight_flatten_cons.
    pose proof (headed_weight i1 Hi1). lia. }
  eapply (ends_bind _ _ (λ its2, Forall (λ it, weight (item_lines it) + 2 ≤ W) its2)).
  { apply ends_lift. pose proof (dedent_ends its1).
    destruct (dedent its1) as [its2| |] eqn:Hdd; [|done..].
    eapply dedent_weight; [exact Hh1| |exact Hdd].
    apply weight_flatten_elem. lia. }
  intros its2 Hits2. apply checkloose_weight in Hits2.
  eapply ends_bind.
  { apply ends_mapM. apply Forall_map. eapply Forall_impl; [exact Hits2|].
    intros it Hit. cbn beta in *. by apply Hpb. }
  intros children _. apply ends_ret. cbn [fst snd]. lia.
Qed.

Lemma unordered_re_len l p : unordered_re l = Some p → 2 ≤ len p ≤ len l.
Proof.
  intros (c & r & -> & -> & _)%unordered_re_Some. unfold len. simpl. lia.
Qed.

Lemma len_take k s : k ≤ len s → len (take k s) = k.
Proof.
  unfold len. revert s. induction k as [|k IH]; intros [|c s]; simpl; try lia.
  intros Hk. rewrite IH; lia.
Qed.

Lemma at_lt n s c : at_ n s = Some c → n < len s.
Proof.
  unfold len. revert s. induction n as [|n IH]; intros [|d s]; simpl; try done; try lia.
  intros Hs. apply IH in Hs. lia.
Qed.

Lemma run_then_close_len pr l p : run_then_close pr l = Some p → 2 ≤ len p ≤ len l.
Proof.
  unfold run_then_close.
  destruct (1 <=? span pr l) eqn:Hn; [|done]. apply Nat.leb_le in Hn.
  case_bool_decide as Hm; [|done]. case_bool_decide as He; [|done].
  cbn [andb]. intros [= <-]. apply at_lt in He.
  rewrite len_take; lia.
Qed.

Lemma ordered_re_len l p : ordered_re l = Some p → 2 ≤ len p ≤ len l.
Proof.
  unfold ordered_re.
  destruct (run_then_close is_digit l) as [q|] eqn:Hd.
  { intros [= <-]. by eapply run_then_close_len. }
  pose proof (run_then_close_len is_roman l p) as Hr.
  destruct l as [|c [|d [|e r]]]; try exact Hr.
  destruct (is_alpha c && (Ascii.eqb d ")" || Ascii.eqb d ".") && Ascii.eqb e " ");
    [|exact Hr].
  intros [= <-]. unfold len. simpl. lia.
Qed.

Lemma consumes_unordered_list : consumes unordered_list.
Proof.
  intros pb pi lines Hpb Hpi. cbn [bp_parse unordered_list].
  destruct (collect _ _ _ _ lines) as [[items marker] rest] eqn:Hc.
  apply (collect_weight _ _ unordered_re_len) in Hc as [Hh Hw].
  destruct items as [|it items]; [ends_same|].
  eapply ends_weaken; [apply (ends_finish_list _ _ _ _ (weight lines)); try done; lia|].
  intros [[n|] ls] Hr; cbn [fst snd] in *; [done|by destruct Hr].
Qed.

Lemma consumes_ordered_list : consumes ordered_list.
Proof.
  intros pb pi lines Hpb Hpi. cbn [bp_parse ordered_list].
  destruct (collect _ _ _ _ lines) as [[items marker] rest] eqn:Hc.
  apply (collect_weight _ _ ordered_re_len) in Hc as [Hh Hw].
  destruct items as [|it items]; [ends_same|].
  eapply ends_weaken; [apply (ends_finish_list _ _ _ _ (weight lines)); try done; lia|].
  intros [[n|] ls] Hr; cbn [fst snd] in *; [done|by destruct Hr].
Qed.

(** *** The table *)

Lemma split_len c s : Forall (λ x, len x ≤ len s) (split c s).
Proof.
  unfold len. induction s as [|d s IH]; cbn [split]; [constructor; [done|constructor]|].
  destruct (Ascii.eqb c d).
  - constructor; [simpl; lia|]. eapply Forall_impl; [exact IH|].
    intros x Hx. simpl in *. lia.
  - destruct (split c s) as [|l ls]; [constructor; [simpl; lia|constructor]|].
    inversion IH as [|? ? Hl Hls]; subst.
    constructor; [simpl in *; lia|]. eapply Forall_impl; [exact Hls|].
    intros x Hx. simpl in *. lia.
Qed.

Lemma Forall_removelast {A : Type} (P : A → Prop) l : Forall P l → Forall P (removelast l).
Proof.
  induction 1 as [|x l Hx Hl IH]; [constructor|]. cbn [removelast].
  destruct l; [constructor|]. by constructor.
Qed.

Lemma columns_len line : Forall (λ x, len x ≤ len line) (columns line).
Proof.
  unfold columns. apply Forall_removelast.
  pose proof (split_len "|" line) as Hs.
  destruct (split "|" line) as [|x l]; [constructor|]. by inversion Hs.
Qed.

Lemma ends_row pi W line number :
  pi_fueled W pi → len line < W → ends_with (row pi (Some line) number) (λ _, True).
Proof.
  intros Hpi Hlen. cbn [row].
  destruct (startsWith "|" line); [|by apply ends_ret].
  destruct (_ && _); [by apply ends_ret|].
  eapply ends_bind; [|intros cells _; by apply ends_ret].
  apply ends_mapM. eapply Forall_impl; [apply columns_len|].
  intros c Hc. cbn beta in *.
  eapply ends_bind; [apply (ends_inline_text W); [done|lia]|].
  intros children _. by apply ends_ret.
Qed.

Lemma ends_rows_loop pi W lines :
  pi_fueled W pi → weight lines ≤ W →
  ∀ n rows al ar,
    ends_with (rows_loop pi lines n rows al ar)
      (λ r, weight r.2 ≤ weight lines
            ∧ (rows = [] → r.1.1.1 = [] ∨ weight r.2 < weight lines)).
Proof.
  intros Hpi. induction lines as [|l lines IH]; intros HW n rows al ar; cbn [rows_loop].
  { apply ends_ret. cbn [fst snd]. split; [done|]. auto. }
  rewrite weight_cons in HW.
  eapply ends_bind; [apply (ends_row pi W); [done|lia]|].
  intros r _. destruct r as [|a|tr].
  - apply ends_ret. cbn [fst snd]. split; [done|]. auto.
  - eapply ends_weaken; [apply IH; lia|]. intros r [Hr _]. cbn beta.
    rewrite weight_cons. split; [lia|]. intros _. right. lia.
  - eapply ends_weaken; [apply IH; lia|]. intros r [Hr _]. cbn beta.
    rewrite weight_cons. split; [lia|]. intros _. right. lia.
Qed.

Lemma consumes_table : consumes table.
Proof.
  intros pb pi lines Hpb Hpi. cbn [bp_parse table].
  eapply ends_bind; [apply (ends_rows_loop pi (weight lines)); [done|lia]|].
  intros [[[rows al] ar] rest] [Hle Hlt]. cbn [fst snd] in *.
  destruct rows as [|r0 rows]; [by apply ends_ret|].
  destruct (Hlt eq_refl) as [?|Hlt']; [done|].
  destruct al as [[|a al]|]; [by apply ends_ret | by apply ends_ret | apply ends_throw].
Qed.

(** *** The registry and the engine *)

Lemma consumes_builtin : Forall consumes builtin.
Proof.
  unfold builtin. repeat constructor.
  - apply consumes_header.
  - apply consumes_blockquote.
  - apply consumes_indented_codeblock.
  - apply consumes_fenced_codeblock.
  - apply consumes_unordered_list.
  - apply consumes_ordered_list.
  - apply consumes_horizontal_rule.
  - apply consumes_footnote_def.
  - apply consumes_href_def.
  - apply consumes_html_groups.
  - apply consumes_html_tags.
  - apply consumes_table.
Qed.

Lemma ends_try_parsers pb pi bps :
  Forall consumes bps →
  ∀ lines, pb_fueled (weight lines) pb → pi_fueled (weight lines) pi →
    ends_with (Engine.try_parsers pb pi bps lines)
      (λ r, match r.1 with
            | Some _ => weight r.2 < weight lines
            | None => weight r.2 ≤ weight lines
            end).
Proof.
  induction 1 as [|bp bps Hbp _ IH]; intros lines Hpb Hpi; cbn [Engine.try_parsers].
  { apply ends_ret. cbn [fst snd]. lia. }
  eapply ends_bind; [by apply Hbp|].
  intros [[n|] lines1] Hr; cbn [fst snd] in Hr.
  - apply ends_ret. cbn [fst snd]. lia.
  - eapply ends_weaken.
    + apply IH; [eapply pb_fueled_mono; [|exact Hpb] | eapply pi_fueled_mono; [|exact Hpi]]; lia.
    + intros [[n|] ls] Hr'; cbn [fst snd] in *; lia.
Qed.

Lemma len_join_nl text : text ≠ [] → S (len (join (str nl) text)) = weight text.
Proof.
  induction text as [|l text IH]; [done|]. intros _.
  destruct text as [|l' text]; [cbn [join]; rewrite weight_cons; simpl; lia|].
  change (join (str nl) (l :: l' :: text))
    with (l +:+ str nl +:+ join (str nl) (l' :: text)).
  rewrite weight_cons, <- IH by done. rewrite !len_app. unfold len at 2. simpl. lia.
Qed.

Lemma pi_fueled_parse_inline fuel : pi_fueled fuel (Inline.parse_inline fuel).
Proof.
  intros text e c Hlen. unfold Inline.parse_inline.
  eapply ends_weaken; [apply ends_returns, run_returns|done].
  - apply progresses_inlineparsers.
  - lia.
Qed.

Lemma ends_push_textblock pi lines text ast K :
  pi_fueled K pi → weight text ≤ K →
  ends_with (Engine.push_text pi "textblock" lines text ast)
            (λ r, r.1.1 = lines ∧ r.1.2 = []).
Proof.
  intros Hpi HK. unfold Engine.push_text.
  change (String.eqb "textblock" "p") with false. cbv iota.
  destruct text as [|t text]; [by apply ends_ret|].
  eapply ends_bind.
  { apply (ends_inline_text K); [done|].
    pose proof (len_join_nl (t :: text) ltac:(done)). lia. }
  intros children _. by apply ends_ret.
Qed.

Lemma ends_push_p pi rest text l ast K :
  pi_fueled K pi → weight text ≤ K →
  ends_with (Engine.push_text pi "p" rest (text ++ [l]) ast)
            (λ r, r.1.1 = l :: rest ∧ r.1.2 = []).
Proof.
  intros Hpi HK. unfold Engine.push_text.
  change (String.eqb "p" "p") with true. cbv iota.
  rewrite last_snoc, removelast_last.
  destruct text as [|t text]; [by apply ends_ret|].
  eapply ends_bind.
  { apply (ends_inline_text K); [done|].
    pose proof (len_join_nl (t :: text) ltac:(done)). lia. }
  intros children _. by apply ends_ret.
Qed.

Lemma weight_pos l ls : 1 ≤ weight (l :: ls).
Proof. rewrite weight_cons. lia. Qed.

Lemma ends_run fuel :
  ∀ lines text ast,
    2 * weight lines + weight text < fuel →
    ends_with (Engine.run fuel lines text ast) (λ _, True).
Proof.
  induction fuel as [|fuel IH]; intros lines text ast Hfuel; [lia|].
  cbn [Engine.run].
  pose proof (pi_fueled_parse_inline fuel) as Hpi.
  destruct lines as [|l0 lines0].
  { destruct text as [|t text]; [by apply ends_ret|].
    eapply ends_bind; [apply (ends_push_textblock _ _ _ _ fuel); [done|lia]|].
    intros [[? ?] ?] _. by apply ends_ret. }
  pose proof (weight_pos l0 lines0) as Hpos.
  set (lines := l0 :: lines0) in *. clearbody lines.
  eapply ends_bind.
  { apply ends_try_parsers.
    - rewrite BlockFacts.blockparsers_builtin. apply consumes_builtin.
    - intros ls Hls. apply IH. rewrite weight_nil. lia.
    - eapply pi_fueled_mono; [|exact Hpi]. lia. }
  intros [[n|] lines1] Hr; cbn [fst snd] in Hr.
  - case_bool_decide.
    + apply IH. lia.
    + eapply ends_bind; [apply (ends_push_textblock _ _ _ _ fuel); [done|lia]|].
      intros [[lines2 text2] ast2] [Hl Ht]. cbn [fst snd] in *. subst.
      apply IH. rewrite ?weight_nil. lia.
  - destruct lines1 as [|l rest].
    { apply IH. rewrite weight_app, weight_nil, weight_blank. lia. }
    rewrite weight_cons in Hr.
    destruct (blankline l).
    + destruct text as [|t text].
      * apply IH. rewrite ?weight_nil. lia.
      * pose proof (weight_pos t text).
        eapply ends_bind; [apply (ends_push_p _ _ _ _ _ fuel); [done|lia]|].
        intros [[lines2 text2] ast2] [Hl Ht]. cbn [fst snd] in *. subst.
        apply IH. rewrite weight_cons, weight_nil. lia.
    + apply IH. rewrite weight_app, weight_cons, weight_nil. lia.
Qed.

Lemma pb_fueled_parse_blocks fuel K :
  2 * K ≤ S fuel → pb_fueled K (Engine.parse_blocks fuel).
Proof. intros HK ls Hls. unfold Engine.parse_blocks. apply ends_run. rewrite weight_nil. lia. Qed.

(** X26. A built-in block parser that returns a node has shortened the
    array of lines, and one that returns no node has not lengthened it
    (the weight of an array counts its characters and its lines); the
    parser returns or throws whenever the [parse_blocks] and the
    [parse_inline] it is given do so on every lighter input. *)
Theorem block_parser_takes_lines (bp : bparser) pb pi (lines : list string) st :
  bp ∈ blockparsers →
  pb_fueled (weight lines) pb → pi_fueled (weight lines) pi →
  match bp_parse bp pb pi lines st with
  | Ret (Some _, rest, _) => weight rest < weight lines
  | Ret (None, rest, _) => weight rest ≤ weight lines
  | Throw _ => True
  | OutOfFuel => False
  end.
Proof.
  intros Hbp Hpb Hpi. rewrite BlockFacts.blockparsers_builtin in Hbp.
  pose proof consumes_builtin as Hall. rewrite Forall_forall in Hall.
  specialize (Hall bp Hbp pb pi lines Hpb Hpi st).
  destruct (bp_parse bp pb pi lines st) as [[[[n|] rest] st']| |]; done.
Qed.

Lemma block_parser_takes_lines_witness :
  match bp_parse blockquote (Engine.parse_blocks 20) (Inline.parse_inline 20)
          ["> a"; "b"] initial with
  | Ret (Some _, rest, _) => weight rest < weight ["> a"; "b"]
  | Ret (None, rest, _) => weight rest ≤ weight ["> a"; "b"]
  | Throw _ => True
  | OutOfFuel => False
  end.
Proof.
  apply (block_parser_takes_lines blockquote).
  - rewrite BlockFacts.blockparsers_builtin. unfold builtin.
    apply elem_of_cons. right. apply elem_of_cons. by left.
  - apply pb_fueled_parse_blocks. vm_compute. lia.
  - eapply pi_fueled_mono; [|apply pi_fueled_parse_inline]. vm_compute. lia.
Defined.

(** X27. [parse_blocks] ends on every array of lines: once the fuel
    exceeds twice the weight of the lines, it returns a tree or throws. *)
Theorem parse_blocks_ends (fuel : nat) (lines : list string) st :
  2 * weight lines < fuel →
  (∃ ast st', Engine.parse_blocks fuel lines st = Ret (ast, st'))
  ∨ (∃ e, Engine.parse_blocks fuel lines st = Throw e).
Proof.
  intros Hfuel. unfold Engine.parse_blocks.
  pose proof (ends_run fuel lines [] [] ltac:(rewrite weight_nil; lia) st) as Hrun.
  destruct (Engine.run fuel lines [] [] st) as [[ast st']|e|]; [| |done].
  - left. by exists ast, st'.
  - right. by exists e.
Qed.

Lemma parse_blocks_ends_witness :
  (∃ ast st',
     Engine.parse_blocks 60 ["# a"; "> b"; "- c"; "  d"; ""; "e"] initial = Ret (ast, st'))
  ∨ (∃ e, Engine.parse_blocks 60 ["# a"; "> b"; "- c"; "  d"; ""; "e"] initial = Throw e).
Proof.
  apply (parse_blocks_ends 60 ["# a"; "> b"; "- c"; "  d"; ""; "e"] initial).
  vm_compute. lia.
Defined.

End TerminationProps.
